(** * Q-Builder statevector simulator (simulator.js): embedding and properties

    Source: the module [simulator.js] of the repository, with its entry
    point [simulateCircuit(ir, opts)], and the text helper [escapeHtml] of
    the module [builder.js].

    The simulator evolves a dense vector of 2^n complex amplitudes through
    the gate operations of a circuit, optionally post-selects on one qubit,
    derives probabilities and samples shot counts.

    Conventions of the embedding.
    - JavaScript numbers that hold amplitudes, probabilities, angles and
      random values are modelled as real numbers ([R]) with exact
      arithmetic: rounding, NaN and infinities are outside the model.
      What is proved of them is proved in exact arithmetic. The module
      [Double] holds the evolution, the post-selection and the
      probabilities a second time, over IEEE binary64 numbers, for the
      values the program itself returns.
    - JavaScript numbers that hold integers (indices, masks, ticks, seeds,
      shot counts) are modelled as [Z]; the 32-bit operators ([<<], [|],
      [^], [>>>], [Math.imul]) have their wrap-around written out, and
      [&], [|], [^] on indices and masks are [Z.land], [Z.lor], [Z.lxor].
    - Arrays are lists; an element access outside the array and the two
      exceptions the code can raise are explicit results ([Throw]).
    - [Math.random] is an oracle: a stream of reals handed to the
      simulation.
    - Strings are strings of ASCII characters.
    - A statevector is a genuine vector of 2^n amplitudes up to n = 30:
      [1 << n] is computed on 32 bits, and the properties that need the
      whole register say so. *)

From Stdlib Require Import Floats.PrimFloat.
From Stdlib Require Import ZArith List String Ascii Bool Lia Reals Lra Psatz Sorted
  Permutation.
From Equations Require Import Equations.
Import ListNotations.

Open Scope Z_scope.

(** ** Results of JavaScript code that may throw *)

Inductive error : Type :=
| RangeError    (* [new Array(N)] with a negative length *)
| TypeError     (* reading [.re] or [.im] of [undefined] *)
| OutOfBounds.  (* an [undefined] element moved around, or a write past the
                   end of the array: not followed further by the model *)

Inductive result (A : Type) : Type :=
| Ok (a : A)
| Throw (e : error).
Arguments Ok {A} a.
Arguments Throw {A} e.

Definition bind {A B : Type} (m : result A) (k : A -> result B) : result B :=
  match m with
  | Ok a => k a
  | Throw e => Throw e
  end.

Notation "x <- m ;; k" := (bind m (fun x => k))
  (at level 61, m at next level, right associativity).

Definition rmap {A B : Type} (f : A -> B) (m : result A) : result B :=
  x <- m ;; Ok (f x).

(** [for (let i = 0; i < size; i++) body]: the loop state is threaded
    through the body, which may throw. *)
Fixpoint for_from {S : Type} (k : nat) (i : Z) (body : Z -> S -> result S)
  (s : S) : result S :=
  match k with
  | O => Ok s
  | Datatypes.S k' => s' <- body i s ;; for_from k' (i + 1) body s'
  end.

Definition for_loop {S : Type} (size : Z) (body : Z -> S -> result S) (s : S)
  : result S :=
  for_from (Z.to_nat size) 0 body s.

(** ** 32-bit integer operators *)

Definition toUint32 (x : Z) : Z := x mod 2 ^ 32.

Definition toInt32 (x : Z) : Z := (x + 2 ^ 31) mod 2 ^ 32 - 2 ^ 31.

(** [x << k]: the shift count is taken modulo 32 and the result is wrapped
    to a signed 32-bit integer. *)
Definition shl32 (x k : Z) : Z := toInt32 (Z.shiftl (toInt32 x) (k mod 32)).

(** [x >>> k]: unsigned shift. *)
Definition shru32 (x k : Z) : Z := Z.shiftr (toUint32 x) (k mod 32).

Definition xor32 (x y : Z) : Z := Z.lxor (toInt32 x) (toInt32 y).
Definition or32 (x y : Z) : Z := Z.lor (toInt32 x) (toInt32 y).
Definition imul (x y : Z) : Z := toInt32 (toInt32 x * toInt32 y).

(** ** Complex helpers *)

Record Cx : Type := C { re : R; im : R }.

Definition cadd (a b : Cx) : Cx := C (re a + re b) (im a + im b).
Definition cmul (a b : Cx) : Cx :=
  C (re a * re b - im a * im b) (re a * im b + im a * re b).

(** ** 1-qubit matrices *)

Record Mat2 : Type := M2 { m00 : Cx; m01 : Cx; m10 : Cx; m11 : Cx }.

Definition ONE : Cx := C 1 0.
Definition ZERO : Cx := C 0 0.
Definition SQRT2 : R := sqrt 2.
Definition SQRT1_2 : R := sqrt (1 / 2).

Definition Mx : Mat2 := M2 ZERO ONE ONE ZERO.
Definition My : Mat2 := M2 ZERO (C 0 (-1)) (C 0 1) ZERO.
Definition Mz : Mat2 := M2 ONE ZERO ZERO (C (-1) 0).
Definition Mh : Mat2 :=
  let s := (1 / SQRT2)%R in M2 (C s 0) (C s 0) (C s 0) (C (- s) 0).
Definition Ms : Mat2 := M2 ONE ZERO ZERO (C 0 1).
Definition Mt : Mat2 := M2 ONE ZERO ZERO (C SQRT1_2 SQRT1_2).

Definition Mrx (theta : R) : Mat2 :=
  let c := cos (theta / 2) in
  let s := sin (theta / 2) in
  M2 (C c 0) (C 0 (- s)) (C 0 (- s)) (C c 0).
Definition Mry (theta : R) : Mat2 :=
  let c := cos (theta / 2) in
  let s := sin (theta / 2) in
  M2 (C c 0) (C (- s) 0) (C s 0) (C c 0).
Definition Mrz (theta : R) : Mat2 :=
  let p := (theta / 2)%R in
  M2 (C (cos (- p)) (sin (- p))) ZERO ZERO (C (cos p) (sin p)).

(** ** Arrays of amplitudes *)

Definition state : Type := list Cx.

(** [a[i]]: [None] is JavaScript's [undefined]. *)
Definition aget {A : Type} (a : list A) (i : Z) : option A :=
  if i <? 0 then None else nth_error a (Z.to_nat i).

Fixpoint upd {A : Type} (k : nat) (v : A) (a : list A) : list A :=
  match a, k with
  | [], _ => []
  | _ :: t, O => v :: t
  | x :: t, Datatypes.S k' => x :: upd k' v t
  end.

(** An element read whose value is used at once in arithmetic
    ([TypeError] on [undefined]) or moved ([OutOfBounds]). *)
Definition rd (e : error) (a : state) (i : Z) : result Cx :=
  match aget a i with
  | Some x => Ok x
  | None => Throw e
  end.

(** [a[i] = v] inside the array. *)
Definition wr (a : state) (i : Z) (v : Cx) : result state :=
  if (0 <=? i) && (i <? Z.of_nat (List.length a))
  then Ok (upd (Z.to_nat i) v a)
  else Throw OutOfBounds.

(** ** Qubit indices

    A target index is a JavaScript number after [Number(...)]. The kernels
    only ask whether it is an integer, and compare integers: everything that
    [Number.isInteger] rejects (a fraction, NaN, an infinity, the
    [undefined] of a missing target) is one value here. *)
Inductive jsnum : Type :=
| JInt (z : Z)
| JOther.

Definition valid1 (n : Z) (q : jsnum) : option Z :=
  match q with
  | JInt z => if (z <? 0) || (z >=? n) then None else Some z
  | JOther => None
  end.

Definition valid2 (n : Z) (a b : jsnum) : bool :=
  match a, b with
  | JInt a, JInt b =>
      (0 <=? a) && (0 <=? b) && (a <? n) && (b <? n) && negb (a =? b)
  | _, _ => false
  end.

(** [new Set([a,b,c]).size === 3 && every(...)]: when one of the three is
    not an integer the second conjunct fails whatever the set holds. *)
Definition valid3 (n : Z) (a b c : jsnum) : bool :=
  match a, b, c with
  | JInt a, JInt b, JInt c =>
      (negb (a =? b) && negb (a =? c) && negb (b =? c))
      && ((0 <=? a) && (a <? n)) && ((0 <=? b) && (b <? n))
      && ((0 <=? c) && (c <? n))
  | _, _, _ => false
  end.

Definition jsint (q : jsnum) : Z :=
  match q with JInt z => z | JOther => 0 end.

(** ** Core application kernels *)

(** Apply a 1-qubit unitary to target bit q. *)
Definition apply1 (st : state) (n : Z) (q : jsnum) (M : Mat2) : result state :=
  match valid1 n q with
  | None => Ok st
  | Some q =>
      let size := shl32 1 n in
      let mask := shl32 1 q in
      for_loop size (fun i out =>
        if Z.land i mask =? 0 then
          let j := Z.lor i mask in
          a0 <- rd TypeError st i ;;
          a1 <- rd TypeError st j ;;
          let a0p := cadd (cmul (m00 M) a0) (cmul (m01 M) a1) in
          let a1p := cadd (cmul (m10 M) a0) (cmul (m11 M) a1) in
          out <- wr out i a0p ;; wr out j a1p
        else Ok out) st
  end.

Definition applyCX (st : state) (n : Z) (control target : jsnum) : result state :=
  if negb (valid2 n control target) then Ok st else
  let size := shl32 1 n in
  let cm := shl32 1 (jsint control) in
  let tm := shl32 1 (jsint target) in
  for_loop size (fun i out =>
    if negb (Z.land i cm =? 0) && (Z.land i tm =? 0) then
      let j := Z.lor i tm in
      v <- rd OutOfBounds st j ;; out <- wr out i v ;;
      w <- rd OutOfBounds st i ;; wr out j w
    else Ok out) st.

Definition applyCY (st : state) (n : Z) (control target : jsnum) : result state :=
  if negb (valid2 n control target) then Ok st else
  let size := shl32 1 n in
  let cm := shl32 1 (jsint control) in
  let tm := shl32 1 (jsint target) in
  for_loop size (fun i out =>
    if negb (Z.land i cm =? 0) && (Z.land i tm =? 0) then
      let j := Z.lor i tm in
      a0 <- rd TypeError st i ;;
      a1 <- rd TypeError st j ;;
      out <- wr out i (cadd (cmul (m00 My) a0) (cmul (m01 My) a1)) ;;
      wr out j (cadd (cmul (m10 My) a0) (cmul (m11 My) a1))
    else Ok out) st.

Definition applyCZ (st : state) (n : Z) (control target : jsnum) : result state :=
  if negb (valid2 n control target) then Ok st else
  let size := shl32 1 n in
  let cm := shl32 1 (jsint control) in
  let tm := shl32 1 (jsint target) in
  let both := Z.lor cm tm in
  for_loop size (fun i out =>
    if Z.land i both =? both then
      a <- rd TypeError out i ;; wr out i (C (- re a) (- im a))
    else Ok out) st.

Definition applySWAP (st : state) (n : Z) (q0 q1 : jsnum) : result state :=
  if negb (valid2 n q0 q1) then Ok st else
  if jsint q0 =? jsint q1 then Ok st else
  let '(a, b) := if jsint q0 <? jsint q1 then (jsint q0, jsint q1)
                 else (jsint q1, jsint q0) in
  let size := shl32 1 n in
  let am := shl32 1 a in
  let bm := shl32 1 b in
  for_loop size (fun i out =>
    let ia := negb (Z.land i am =? 0) in
    let ib := negb (Z.land i bm =? 0) in
    if negb (Bool.eqb ia ib) then
      let j := Z.lxor i (Z.lor am bm) in
      if i <? j then
        v <- rd OutOfBounds st j ;; out <- wr out i v ;;
        w <- rd OutOfBounds st i ;; wr out j w
      else Ok out
    else Ok out) st.

Definition applyCCX (st : state) (n : Z) (c1 c2 target : jsnum) : result state :=
  if negb (valid3 n c1 c2 target) then Ok st else
  let size := shl32 1 n in
  let m1 := shl32 1 (jsint c1) in
  let m2 := shl32 1 (jsint c2) in
  let mt := shl32 1 (jsint target) in
  for_loop size (fun i out =>
    if negb (Z.land i m1 =? 0) && negb (Z.land i m2 =? 0)
       && (Z.land i mt =? 0) then
      let j := Z.lor i mt in
      v <- rd OutOfBounds st j ;; out <- wr out i v ;;
      w <- rd OutOfBounds st i ;; wr out j w
    else Ok out) st.

Definition applyCSWAP (st : state) (n : Z) (control q0 q1 : jsnum) : result state :=
  if negb (valid3 n control q0 q1) then Ok st else
  if jsint q0 =? jsint q1 then Ok st else
  let size := shl32 1 n in
  let cm := shl32 1 (jsint control) in
  let a := shl32 1 (jsint q0) in
  let b := shl32 1 (jsint q1) in
  for_loop size (fun i out =>
    if Z.land i cm =? 0 then Ok out else
    let ia := negb (Z.land i a =? 0) in
    let ib := negb (Z.land i b =? 0) in
    if negb (Bool.eqb ia ib) then
      let j := Z.lxor i (Z.lor a b) in
      if i <? j then
        v <- rd OutOfBounds st j ;; out <- wr out i v ;;
        w <- rd OutOfBounds st i ;; wr out j w
      else Ok out
    else Ok out) st.

(** ** The intermediate representation

    An operation as the simulator reads it: [type] and [ref] (the empty
    string when missing), [targets] after [Number(...)] ([None] when the
    field is missing or not an array), the two parameters the simulator
    looks at and the scheduling key. *)
Record Op : Type := mkOp {
  type : string;
  ref : string;
  targets : option (list jsnum);
  theta : option R;      (* params.theta *)
  expect : option Z;     (* params.expect *)
  tick : option Z
}.

Record IR : Type := mkIR {
  qubits : option Z;     (* ir.circuit.qubits *)
  ops : list Op          (* ir.circuit.ops *)
}.

(** ** Sorting by tick

    [ops.slice().sort((a,b) => (a.tick||0) - (b.tick||0))]:
    [Array.prototype.sort] is stable, so the sorted array is the one a
    stable insertion sort builds. *)
Definition tickOf (o : Op) : Z :=
  match tick o with Some t => t | None => 0 end.

Fixpoint insert_op (x : Op) (l : list Op) : list Op :=
  match l with
  | [] => [x]
  | y :: l' => if tickOf y <? tickOf x then y :: insert_op x l'
               else x :: y :: l'
  end.

Definition sort_ops (l : list Op) : list Op := fold_right insert_op [] l.

(** ** Gate dispatch *)

Definition upper_ascii (c : ascii) : ascii :=
  let k := nat_of_ascii c in
  if (Nat.leb 97 k && Nat.leb k 122)%bool then ascii_of_nat (k - 32) else c.

Fixpoint toUpperCase (s : string) : string :=
  match s with
  | EmptyString => EmptyString
  | String c s' => String (upper_ascii c) (toUpperCase s')
  end.

Fixpoint slice (k : nat) (s : string) : string :=
  match k, s with
  | O, _ => s
  | Datatypes.S k', String _ s' => slice k' s'
  | Datatypes.S _, EmptyString => EmptyString
  end.

Definition refNorm (r : string) : string :=
  let u := toUpperCase r in
  if String.prefix "GATE." u then slice 5 u else u.

(** [t[k]] of [(op.targets || []).map(Number)]. *)
Definition tget (o : Op) (k : nat) : jsnum :=
  match targets o with
  | Some t => nth k t JOther
  | None => JOther
  end.

Definition thetaOf (o : Op) : R :=
  match theta o with Some x => x | None => 0%R end.

Definition is_gate (o : Op) : bool := (type o =? "gate")%string.

(** One turn of the evolution loop: the statevector and the
    entangled-likely flag. *)
Definition step (n : Z) (o : Op) (s : state * bool) : result (state * bool) :=
  let '(psi, ent) := s in
  if negb (is_gate o) then Ok (psi, ent) else
  let r := refNorm (ref o) in
  let t := tget o in
  let one (M : Mat2) := psi' <- apply1 psi n (t 0%nat) M ;; Ok (psi', ent) in
  let multi (k : result state) := psi' <- k ;; Ok (psi', true) in
  if (r =? "X")%string then one Mx
  else if (r =? "Y")%string then one My
  else if (r =? "Z")%string then one Mz
  else if (r =? "H")%string then one Mh
  else if (r =? "S")%string then one Ms
  else if (r =? "T")%string then one Mt
  else if (r =? "RX")%string then one (Mrx (thetaOf o))
  else if (r =? "RY")%string then one (Mry (thetaOf o))
  else if (r =? "RZ")%string then one (Mrz (thetaOf o))
  else if (r =? "CX")%string then multi (applyCX psi n (t 0%nat) (t 1%nat))
  else if (r =? "CY")%string then multi (applyCY psi n (t 0%nat) (t 1%nat))
  else if (r =? "CZ")%string then multi (applyCZ psi n (t 0%nat) (t 1%nat))
  else if (r =? "SWAP")%string then multi (applySWAP psi n (t 0%nat) (t 1%nat))
  else if ((r =? "CCX") || (r =? "CCNOT"))%string
       then multi (applyCCX psi n (t 0%nat) (t 1%nat) (t 2%nat))
  else if (r =? "CSWAP")%string
       then multi (applyCSWAP psi n (t 0%nat) (t 1%nat) (t 2%nat))
  else Ok (psi, ent).

Fixpoint evolve (n : Z) (l : list Op) (s : state * bool) : result (state * bool) :=
  match l with
  | [] => Ok s
  | o :: l' => s' <- step n o s ;; evolve n l' s'
  end.

(** [new Array(N).fill(null).map((_,i) => i===0 ? C(1,0) : C(0,0))] *)
Definition init_state (N : Z) : result state :=
  if N <? 0 then Throw RangeError
  else Ok (map (fun i => if Nat.eqb i 0 then C 1 0 else C 0 0)
               (seq 0 (Z.to_nat N))).

(** The first half of [simulateCircuit]: the qubit count clamped at zero,
    the initial state and the evolution loop over the sorted operations. *)
Definition qubitsOf (ir : IR) : Z :=
  Z.max (match qubits ir with Some q => q | None => 0 end) 0.

Definition evolveCircuit (ir : IR) : result (state * bool) :=
  let n := qubitsOf ir in
  let N := shl32 1 n in
  let sorted := sort_ops (ops ir) in
  psi <- init_state N ;;
  evolve n sorted (psi, false).

(** ** Post-selection *)

Definition norm2 (a : Cx) : R := (re a * re a + im a * im a)%R.

(** The sum of the squared magnitudes of a statevector. *)
Definition total (l : state) : R :=
  fold_right (fun a s => (norm2 a + s)%R) 0%R l.

(** A 2x2 matrix whose application to a pair of amplitudes preserves the
    sum of their squared magnitudes. *)
Definition unitary (M : Mat2) : Prop :=
  forall a0 a1 : Cx,
    (norm2 (cadd (cmul (m00 M) a0) (cmul (m01 M) a1))
     + norm2 (cadd (cmul (m10 M) a0) (cmul (m11 M) a1))
     = norm2 a0 + norm2 a1)%R.

(** A kernel call that returns a state of the same length and the same
    squared norm. *)
Definition preserves (st : state) (r : result state) : Prop :=
  exists out, r = Ok out /\ List.length out = List.length st
              /\ total out = total st.

Definition postSelectByBit (psi : state) (n : Z) (bit : jsnum) (expect : Z)
  : result (state * option R) :=
  match valid1 n bit with
  | None => Ok (psi, None)
  | Some bit =>
      let mask := shl32 1 bit in
      r <- for_loop (Z.of_nat (List.length psi)) (fun i s =>
             let '(psi, keep) := s in
             let v := if Z.land i mask =? 0 then 0 else 1 in
             if negb (v =? expect) then
               psi <- wr psi i (C 0 0) ;; Ok (psi, keep)
             else
               a <- rd TypeError psi i ;; Ok (psi, (keep + norm2 a)%R))
           (psi, 0%R) ;;
      let '(psi, keep) := r in
      if Rle_dec keep 0 then Ok (psi, Some 0%R) else
      let norm := (1 / sqrt keep)%R in
      psi <- for_loop (Z.of_nat (List.length psi)) (fun i psi =>
               a <- rd TypeError psi i ;;
               wr psi i (C (re a * norm) (im a * norm))) psi ;;
      Ok (psi, Some keep)
  end.

Definition is_postselect (o : Op) : bool :=
  ((type o =? "note") && (ref o =? "postselect"))%string.

Definition expectOf (o : Op) : Z :=
  match expect o with
  | Some v => if v =? 0 then 0 else 1
  | None => 1
  end.

(** The post-selection step of [simulateCircuit], on the evolved state. *)
Definition postSelect (l : list Op) (n : Z) (psi : state)
  : result (state * option R) :=
  match find is_postselect l with
  | Some postNote =>
      match targets postNote with
      | Some (t0 :: _) => postSelectByBit psi n t0 (expectOf postNote)
      | _ => Ok (psi, None)
      end
  | None => Ok (psi, None)
  end.

(** ** Sampling *)

(** Prefix sums, normalised by the total when it is positive. *)
Fixpoint prefix_sums (s : R) (probs : list R) : list R * R :=
  match probs with
  | [] => ([], s)
  | p :: l =>
      let s' := (s + p)%R in
      let '(c, tot) := prefix_sums s' l in (s' :: c, tot)
  end.

Definition cdfFromProbs (probs : list R) : list R :=
  let '(cdf, s) := prefix_sums 0%R probs in
  if Rlt_dec 0 s then map (fun c => (c / s)%R) cdf else cdf.

(** [cdf[mid] < r]; a comparison with [undefined] is false. *)
Definition cdf_lt (cdf : list R) (mid : Z) (r : R) : bool :=
  match aget cdf mid with
  | Some c => if Rlt_dec c r then true else false
  | None => false
  end.

(** The [while (lo < hi)] loop of [sampleIdx]. The bounds are indices of an
    array, below 2^30 in [simulateCircuit]: [(lo + hi) >> 1] is a plain
    halving. *)
Equations? sampleLoop (cdf : list R) (r : R) (lo hi : Z) : Z
  by wf (Z.to_nat (hi - lo)) lt :=
  sampleLoop cdf r lo hi with Z_lt_dec lo hi => {
    | right _ => lo
    | left _ with cdf_lt cdf (Z.shiftr (lo + hi) 1) r => {
        | true => sampleLoop cdf r (Z.shiftr (lo + hi) 1 + 1) hi
        | false => sampleLoop cdf r lo (Z.shiftr (lo + hi) 1) } }.
Proof.
  all: rewrite Z.shiftr_div_pow2 by lia; change (2 ^ 1) with 2;
    pose proof (Z.div_mod (lo + hi) 2 ltac:(lia));
    pose proof (Z.mod_pos_bound (lo + hi) 2 ltac:(lia)); lia.
Qed.

Definition sampleIdx (cdf : list R) (r : R) : Z :=
  sampleLoop cdf r 0 (Z.of_nat (List.length cdf) - 1).

(** ** The random source *)

(** [a += 0x6D2B79F5] is an addition of JavaScript numbers, not of 32-bit
    integers: the counter grows, exactly up to 2^53 and rounded to 53
    significant bits (to nearest, ties to even) beyond. *)
Definition round53 (z : Z) : Z :=
  let m := Z.abs z in
  if m <? 2 ^ 53 then z else
  let e := Z.log2 m - 52 in
  let q := m / 2 ^ e in
  let r := m mod 2 ^ e in
  let half := 2 ^ (e - 1) in
  let q' := if r <? half then q
            else if half <? r then q + 1
            else if Z.even q then q else q + 1 in
  Z.sgn z * (q' * 2 ^ e).

Definition mulberry32 (a : Z) : R * Z :=
  let a := round53 (a + 1831565813) in       (* 0x6D2B79F5 *)
  let t := a in
  let t := imul (xor32 t (shru32 t 15)) (or32 t 1) in
  let t := xor32 t (t + imul (xor32 t (shru32 t 7)) (or32 t 61)) in
  ((IZR (toUint32 (xor32 t (shru32 t 14))) / 4294967296)%R, a).

(** The generator of one call: the seeded closure with its counter, or
    [Math.random] with the number of values already drawn. *)
Inductive rng : Type :=
| Seeded (a : Z)
| Unseeded (k : nat).

Definition mkRNG (s : option Z) : rng :=
  match s with
  | None => Unseeded 0
  | Some s => Seeded s
  end.

(** ** Readout noise *)

Record Noise : Type := mkNoise {
  ntype : string;        (* noise.type, empty when missing *)
  p : option R;
  prob : option R;
  gamma : option R;
  g : option R
}.

Definition orElse (a b : option R) : option R :=
  match a with Some _ => a | None => b end.

Definition numOr0 (a : option R) : R :=
  match a with Some x => x | None => 0%R end.

Definition Rltb (x y : R) : bool := if Rlt_dec x y then true else false.

(** ** Counts: a [Map] keeps its keys in insertion order *)

Definition counts_t : Type := list (string * Z).

Fixpoint counts_get (m : counts_t) (k : string) : option Z :=
  match m with
  | [] => None
  | (k', v) :: m' => if (k' =? k)%string then Some v else counts_get m' k
  end.

Fixpoint counts_set (m : counts_t) (k : string) (v : Z) : counts_t :=
  match m with
  | [] => [(k, v)]
  | (k', v') :: m' => if (k' =? k)%string then (k, v) :: m'
                      else (k', v') :: counts_set m' k v
  end.

(** [idx.toString(2).padStart(n, "0")] *)
Fixpoint pos_bits (x : positive) : string :=
  match x with
  | xH => "1"
  | xO x' => pos_bits x' ++ "0"
  | xI x' => pos_bits x' ++ "1"
  end.

Definition toString2 (z : Z) : string :=
  match z with
  | Z0 => "0"
  | Zpos x => pos_bits x
  | Zneg x => "-" ++ pos_bits x
  end.

Fixpoint zeros (k : nat) : string :=
  match k with
  | O => EmptyString
  | Datatypes.S k' => String "0" (zeros k')
  end.

Definition padStart (n : Z) (s : string) : string :=
  (zeros (Z.to_nat n - String.length s) ++ s)%string.

Record SimResult : Type := mkResult {
  r_qubits : Z;
  r_ops : Z;
  probs : list R;
  amps : state;
  counts : option counts_t;
  entangledLikely : bool;
  postSelectProb : option R
}.

Record Opts : Type := mkOpts {
  shots : option Z;
  seed : option Z;       (* a finite integer seed, or none *)
  noise : option Noise
}.

Section Simulator.

(** The values [Math.random()] returns, in the order of the calls. *)
Variable mathRandom : nat -> R.

Definition rand (gen : rng) : R * rng :=
  match gen with
  | Seeded a => let '(r, a') := mulberry32 a in (r, Seeded a')
  | Unseeded k => (mathRandom k, Unseeded (Datatypes.S k))
  end.

(** The loop of [applyReadoutNoise] over the characters of [bits]. *)
Fixpoint noiseLoop (arr : string) (nz : Noise) (gen : rng) : string * rng :=
  match arr with
  | EmptyString => (EmptyString, gen)
  | String c rest =>
      let b := Ascii.eqb c "1" in
      let '(c', gen') :=
        if ((ntype nz =? "DEPOLARIZING") || (ntype nz =? "depolarizing"))%string
        then
          let pr := numOr0 (orElse (p nz) (prob nz)) in
          let '(r, gen1) := rand gen in
          (if Rltb r pr then (if b then "0" else "1")%char else c, gen1)
        else if ((ntype nz =? "AMP-DAMP") || (ntype nz =? "amp-damp"))%string
        then
          let ga := numOr0 (orElse (gamma nz) (g nz)) in
          if b then
            let '(r, gen1) := rand gen in
            (if Rltb r ga then "0"%char else c, gen1)
          else (c, gen)
        else (c, gen) in
      let '(rest', gen'') := noiseLoop rest nz gen' in
      (String c' rest', gen'')
  end.

Definition applyReadoutNoise (bits : string) (nz : Noise) (gen : rng)
  : string * rng :=
  if (ntype nz =? "")%string then (bits, gen) else noiseLoop bits nz gen.

(** The shots loop: one sample, its noise, one more count. *)
Definition shot (n : Z) (nz : option Noise) (cdf : list R)
  (s : counts_t * rng) : counts_t * rng :=
  let '(cnt, gen) := s in
  let '(r, gen) := rand gen in
  let idx := sampleIdx cdf r in
  let bits := padStart n (toString2 idx) in
  let '(bits, gen) :=
    match nz with
    | Some nz => if (ntype nz =? "")%string then (bits, gen)
                 else applyReadoutNoise bits nz gen
    | None => (bits, gen)
    end in
  let c := match counts_get cnt bits with Some v => v | None => 0 end in
  (counts_set cnt bits (c + 1), gen).

Definition simulateCircuit (ir : IR) (opts : Opts) : result SimResult :=
  let nshots := toInt32 (Z.max 0 (match shots opts with Some s => s | None => 0 end)) in
  let nz := noise opts in
  let sd := match seed opts with Some s => Some (toInt32 s) | None => None end in
  let gen := mkRNG sd in
  let n := qubitsOf ir in
  let sorted := sort_ops (ops ir) in
  ev <- evolveCircuit ir ;;
  let '(psi, ent) := ev in
  ps <- postSelect (ops ir) n psi ;;
  let '(psi, postSelectProb) := ps in
  let probs := map norm2 psi in
  cnt <- (if 0 <? nshots then
            let cdf := cdfFromProbs probs in
            r <- for_loop nshots (fun _ s => Ok (shot n nz cdf s)) ([], gen) ;;
            Ok (Some (fst r))
          else Ok None) ;;
  Ok (mkResult n (Z.of_nat (List.length (filter is_gate sorted)))
        probs psi cnt ent postSelectProb).

End Simulator.

(** * The numeric part in double precision

    The amplitudes of the program are IEEE binary64 numbers. The module
    [Double] is the evolution, the post-selection and the probabilities of
    [simulateCircuit] once more, with the arithmetic of the program:
    [PrimFloat]'s correctly rounded [+], [-], [*], [/] and square root.
    Dispatch, target checks, masks and loops are the definitions above.
    [Math.cos] and [Math.sin], which the language leaves to the
    implementation, and the double that a real angle stands for are
    parameters. *)
Module Double.

Record Cx : Type := C { re : float; im : float }.

Definition cadd (a b : Cx) : Cx := C (re a + re b) (im a + im b).
Definition cmul (a b : Cx) : Cx :=
  C (re a * re b - im a * im b) (re a * im b + im a * re b).

Record Mat2 : Type := M2 { m00 : Cx; m01 : Cx; m10 : Cx; m11 : Cx }.

Definition ONE : Cx := C 1 0.
Definition ZERO : Cx := C 0 0.
(** [Math.SQRT2] and [Math.SQRT1_2]: 1.4142135623730951 and
    0.7071067811865476. *)
Definition SQRT2 : float := 0x1.6a09e667f3bcdp+0.
Definition SQRT1_2 : float := 0x1.6a09e667f3bcdp-1.

Definition Mx : Mat2 := M2 ZERO ONE ONE ZERO.
Definition My : Mat2 := M2 ZERO (C 0 (-1)) (C 0 1) ZERO.
Definition Mz : Mat2 := M2 ONE ZERO ZERO (C (-1) 0).
Definition Mh : Mat2 :=
  let s := (1 / SQRT2)%float in M2 (C s 0) (C s 0) (C s 0) (C (- s) 0).
Definition Ms : Mat2 := M2 ONE ZERO ZERO (C 0 1).
Definition Mt : Mat2 := M2 ONE ZERO ZERO (C SQRT1_2 SQRT1_2).

Definition state : Type := list Cx.

Definition rd (e : error) (a : state) (i : Z) : result Cx :=
  match aget a i with
  | Some x => Ok x
  | None => Throw e
  end.

Definition wr (a : state) (i : Z) (v : Cx) : result state :=
  if (0 <=? i) && (i <? Z.of_nat (List.length a))
  then Ok (upd (Z.to_nat i) v a)
  else Throw OutOfBounds.

Definition apply1 (st : state) (n : Z) (q : jsnum) (M : Mat2) : result state :=
  match valid1 n q with
  | None => Ok st
  | Some q =>
      let size := shl32 1 n in
      let mask := shl32 1 q in
      for_loop size (fun i out =>
        if Z.land i mask =? 0 then
          let j := Z.lor i mask in
          a0 <- rd TypeError st i ;;
          a1 <- rd TypeError st j ;;
          let a0p := cadd (cmul (m00 M) a0) (cmul (m01 M) a1) in
          let a1p := cadd (cmul (m10 M) a0) (cmul (m11 M) a1) in
          out <- wr out i a0p ;; wr out j a1p
        else Ok out) st
  end.

Definition applyCX (st : state) (n : Z) (control target : jsnum) : result state :=
  if negb (valid2 n control target) then Ok st else
  let size := shl32 1 n in
  let cm := shl32 1 (jsint control) in
  let tm := shl32 1 (jsint target) in
  for_loop size (fun i out =>
    if negb (Z.land i cm =? 0) && (Z.land i tm =? 0) then
      let j := Z.lor i tm in
      v <- rd OutOfBounds st j ;; out <- wr out i v ;;
      w <- rd OutOfBounds st i ;; wr out j w
    else Ok out) st.

Definition applyCY (st : state) (n : Z) (control target : jsnum) : result state :=
  if negb (valid2 n control target) then Ok st else
  let size := shl32 1 n in
  let cm := shl32 1 (jsint control) in
  let tm := shl32 1 (jsint target) in
  for_loop size (fun i out =>
    if negb (Z.land i cm =? 0) && (Z.land i tm =? 0) then
      let j := Z.lor i tm in
      a0 <- rd TypeError st i ;;
      a1 <- rd TypeError st j ;;
      out <- wr out i (cadd (cmul (m00 My) a0) (cmul (m01 My) a1)) ;;
      wr out j (cadd (cmul (m10 My) a0) (cmul (m11 My) a1))
    else Ok out) st.

Definition applyCZ (st : state) (n : Z) (control target : jsnum) : result state :=
  if negb (valid2 n control target) then Ok st else
  let size := shl32 1 n in
  let cm := shl32 1 (jsint control) in
  let tm := shl32 1 (jsint target) in
  let both := Z.lor cm tm in
  for_loop size (fun i out =>
    if Z.land i both =? both then
      a <- rd TypeError out i ;; wr out i (C (- re a) (- im a))
    else Ok out) st.

Definition applySWAP (st : state) (n : Z) (q0 q1 : jsnum) : result state :=
  if negb (valid2 n q0 q1) then Ok st else
  if jsint q0 =? jsint q1 then Ok st else
  let '(a, b) := if jsint q0 <? jsint q1 then (jsint q0, jsint q1)
                 else (jsint q1, jsint q0) in
  let size := shl32 1 n in
  let am := shl32 1 a in
  let bm := shl32 1 b in
  for_loop size (fun i out =>
    let ia := negb (Z.land i am =? 0) in
    let ib := negb (Z.land i bm =? 0) in
    if negb (Bool.eqb ia ib) then
      let j := Z.lxor i (Z.lor am bm) in
      if i <? j then
        v <- rd OutOfBounds st j ;; out <- wr out i v ;;
        w <- rd OutOfBounds st i ;; wr out j w
      else Ok out
    else Ok out) st.

Definition applyCCX (st : state) (n : Z) (c1 c2 target : jsnum) : result state :=
  if negb (valid3 n c1 c2 target) then Ok st else
  let size := shl32 1 n in
  let m1 := shl32 1 (jsint c1) in
  let m2 := shl32 1 (jsint c2) in
  let mt := shl32 1 (jsint target) in
  for_loop size (fun i out =>
    if negb (Z.land i m1 =? 0) && negb (Z.land i m2 =? 0)
       && (Z.land i mt =? 0) then
      let j := Z.lor i mt in
      v <- rd OutOfBounds st j ;; out <- wr out i v ;;
      w <- rd OutOfBounds st i ;; wr out j w
    else Ok out) st.

Definition applyCSWAP (st : state) (n : Z) (control q0 q1 : jsnum) : result state :=
  if negb (valid3 n control q0 q1) then Ok st else
  if jsint q0 =? jsint q1 then Ok st else
  let size := shl32 1 n in
  let cm := shl32 1 (jsint control) in
  let a := shl32 1 (jsint q0) in
  let b := shl32 1 (jsint q1) in
  for_loop size (fun i out =>
    if Z.land i cm =? 0 then Ok out else
    let ia := negb (Z.land i a =? 0) in
    let ib := negb (Z.land i b =? 0) in
    if negb (Bool.eqb ia ib) then
      let j := Z.lxor i (Z.lor a b) in
      if i <? j then
        v <- rd OutOfBounds st j ;; out <- wr out i v ;;
        w <- rd OutOfBounds st i ;; wr out j w
      else Ok out
    else Ok out) st.

(** [a.re*a.re + a.im*a.im] *)
Definition norm2 (a : Cx) : float := (re a * re a + im a * im a)%float.

(** [s += probs[i]] from left to right, as [cdfFromProbs] sums. *)
Definition sum (l : list float) : float :=
  fold_left (fun s x => (s + x)%float) l 0%float.

Definition postSelectByBit (psi : state) (n : Z) (bit : jsnum) (expect : Z)
  : result (state * option float) :=
  match valid1 n bit with
  | None => Ok (psi, None)
  | Some bit =>
      let mask := shl32 1 bit in
      r <- for_loop (Z.of_nat (List.length psi)) (fun i s =>
             let '(psi, keep) := s in
             let v := if Z.land i mask =? 0 then 0 else 1 in
             if negb (v =? expect) then
               psi <- wr psi i (C 0 0) ;; Ok (psi, keep)
             else
               a <- rd TypeError psi i ;; Ok (psi, (keep + norm2 a)%float))
           (psi, 0%float) ;;
      let '(psi, keep) := r in
      if (keep <=? 0)%float then Ok (psi, Some 0%float) else
      let norm := (1 / PrimFloat.sqrt keep)%float in
      psi <- for_loop (Z.of_nat (List.length psi)) (fun i psi =>
               a <- rd TypeError psi i ;;
               wr psi i (C (re a * norm) (im a * norm))) psi ;;
      Ok (psi, Some keep)
  end.

Definition postSelect (l : list Op) (n : Z) (psi : state)
  : result (state * option float) :=
  match find is_postselect l with
  | Some postNote =>
      match targets postNote with
      | Some (t0 :: _) => postSelectByBit psi n t0 (expectOf postNote)
      | _ => Ok (psi, None)
      end
  | None => Ok (psi, None)
  end.

Definition init_state (N : Z) : result state :=
  if N <? 0 then Throw RangeError
  else Ok (map (fun i => if Nat.eqb i 0 then C 1 0 else C 0 0)
               (seq 0 (Z.to_nat N))).

(** The fields of the result that do not depend on the shots. *)
Record Outcome : Type := mkOutcome {
  probs : list float;
  amps : state;
  entangledLikely : bool;
  postSelectProb : option float
}.

Section Evolution.

(** [Math.cos], [Math.sin], and [Number(op.params?.theta || 0)] as the
    double it is. *)
Variables Math_cos Math_sin : float -> float.
Variable thetaD : Op -> float.

Definition Mrx (theta : float) : Mat2 :=
  let c := Math_cos (theta / 2) in
  let s := Math_sin (theta / 2) in
  M2 (C c 0) (C 0 (- s)) (C 0 (- s)) (C c 0).
Definition Mry (theta : float) : Mat2 :=
  let c := Math_cos (theta / 2) in
  let s := Math_sin (theta / 2) in
  M2 (C c 0) (C (- s) 0) (C s 0) (C c 0).
Definition Mrz (theta : float) : Mat2 :=
  let p := (theta / 2)%float in
  M2 (C (Math_cos (- p)) (Math_sin (- p))) ZERO ZERO (C (Math_cos p) (Math_sin p)).

Definition step (n : Z) (o : Op) (s : state * bool) : result (state * bool) :=
  let '(psi, ent) := s in
  if negb (is_gate o) then Ok (psi, ent) else
  let r := refNorm (ref o) in
  let t := tget o in
  let one (M : Mat2) := psi' <- apply1 psi n (t 0%nat) M ;; Ok (psi', ent) in
  let multi (k : result state) := psi' <- k ;; Ok (psi', true) in
  if (r =? "X")%string then one Mx
  else if (r =? "Y")%string then one My
  else if (r =? "Z")%string then one Mz
  else if (r =? "H")%string then one Mh
  else if (r =? "S")%string then one Ms
  else if (r =? "T")%string then one Mt
  else if (r =? "RX")%string then one (Mrx (thetaD o))
  else if (r =? "RY")%string then one (Mry (thetaD o))
  else if (r =? "RZ")%string then one (Mrz (thetaD o))
  else if (r =? "CX")%string then multi (applyCX psi n (t 0%nat) (t 1%nat))
  else if (r =? "CY")%string then multi (applyCY psi n (t 0%nat) (t 1%nat))
  else if (r =? "CZ")%string then multi (applyCZ psi n (t 0%nat) (t 1%nat))
  else if (r =? "SWAP")%string then multi (applySWAP psi n (t 0%nat) (t 1%nat))
  else if ((r =? "CCX") || (r =? "CCNOT"))%string
       then multi (applyCCX psi n (t 0%nat) (t 1%nat) (t 2%nat))
  else if (r =? "CSWAP")%string
       then multi (applyCSWAP psi n (t 0%nat) (t 1%nat) (t 2%nat))
  else Ok (psi, ent).

Fixpoint evolve (n : Z) (l : list Op) (s : state * bool) : result (state * bool) :=
  match l with
  | [] => Ok s
  | o :: l' => s' <- step n o s ;; evolve n l' s'
  end.

Definition evolveCircuit (ir : IR) : result (state * bool) :=
  let n := qubitsOf ir in
  let N := shl32 1 n in
  let sorted := sort_ops (ops ir) in
  psi <- init_state N ;;
  evolve n sorted (psi, false).

(** [simulateCircuit] up to the probabilities. *)
Definition simulate (ir : IR) : result Outcome :=
  ev <- evolveCircuit ir ;;
  let '(psi, ent) := ev in
  ps <- postSelect (ops ir) (qubitsOf ir) psi ;;
  let '(psi, pp) := ps in
  Ok (mkOutcome (map norm2 psi) psi ent pp).

End Evolution.

End Double.

(** * The builder's text helper (builder.js)

    [escapeHtml] of the builder module prepares the messages of the linter
    for insertion into the page: a global regular-expression replace of
    the five characters ampersand, less-than, greater-than, double quote
    and single quote by their entities, on a string argument. *)

(** The double quote, character 34. *)
Definition dquote : ascii := "034"%char.

(** The replacement of one character. *)
Definition escape_char (c : ascii) : string :=
  if Ascii.eqb c "&" then "&amp;"
  else if Ascii.eqb c "<" then "&lt;"
  else if Ascii.eqb c ">" then "&gt;"
  else if Ascii.eqb c dquote then "&quot;"
  else if Ascii.eqb c "'" then "&#39;"
  else String c EmptyString.

Fixpoint escapeHtml (s : string) : string :=
  match s with
  | EmptyString => EmptyString
  | String c s' => escape_char c ++ escapeHtml s'
  end.

(** The characters the regular expression matches. *)
Definition html_special (c : ascii) : bool :=
  (Ascii.eqb c "&" || Ascii.eqb c "<" || Ascii.eqb c ">"
   || Ascii.eqb c dquote || Ascii.eqb c "'")%bool.

(** The characters that open or close markup or an attribute value. *)
Definition html_delimiter (c : ascii) : bool :=
  (Ascii.eqb c "<" || Ascii.eqb c ">" || Ascii.eqb c dquote
   || Ascii.eqb c "'")%bool.

Fixpoint string_forallb (f : ascii -> bool) (s : string) : bool :=
  match s with
  | EmptyString => true
  | String c s' => f c && string_forallb f s'
  end.

(** * Vocabulary of the statements *)

(** ** Targets *)

(** A target inside the register: an integer in [0, n). *)
Definition in_range (n : Z) (q : jsnum) : Prop :=
  exists z, q = JInt z /\ 0 <= z < n.

(** Targets a kernel accepts: all inside the register, pairwise distinct. *)
Definition well_targeted (n : Z) (qs : list jsnum) : Prop :=
  Forall (in_range n) qs /\ NoDup qs.

(** ** Dispatch *)

(** The normalised references the dispatch has a case for. *)
Definition supported (r : string) : bool :=
  ((r =? "X") || (r =? "Y") || (r =? "Z") || (r =? "H") || (r =? "S")
   || (r =? "T") || (r =? "RX") || (r =? "RY") || (r =? "RZ")
   || (r =? "CX") || (r =? "CY") || (r =? "CZ") || (r =? "SWAP")
   || (r =? "CCX") || (r =? "CCNOT") || (r =? "CSWAP"))%string%bool.

(** The normalised references of the 2- and 3-qubit kernels. *)
Definition is_multi (r : string) : bool :=
  ((r =? "CX") || (r =? "CY") || (r =? "CZ") || (r =? "SWAP")
   || (r =? "CCX") || (r =? "CCNOT") || (r =? "CSWAP"))%string%bool.

(** An operation dispatched to a 2- or 3-qubit kernel. *)
Definition multi_gate (o : Op) : bool :=
  is_gate o && is_multi (refNorm (ref o)).

(** An operation dispatched to some kernel. *)
Definition known_gate (o : Op) : bool :=
  is_gate o && supported (refNorm (ref o)).

Definition le_tick (a b : Op) : Prop := tickOf a <= tickOf b.

(** A result with another operation count. *)
Definition with_ops (k : Z) (r : SimResult) : SimResult :=
  mkResult (r_qubits r) k (probs r) (amps r) (counts r)
    (entangledLikely r) (postSelectProb r).


(** ** Spellings of a gate reference

    References are strings of ASCII characters. Two characters are the
    same letter when they are equal or one is an upper-case letter (codes
    65 to 90) and the other its lower-case form (32 above). *)
Definition case_pair (c1 c2 : ascii) : Prop :=
  (65 <= nat_of_ascii c1 <= 90)%nat
  /\ nat_of_ascii c2 = (nat_of_ascii c1 + 32)%nat.

Definition same_letter (c1 c2 : ascii) : Prop :=
  c1 = c2 \/ case_pair c1 c2 \/ case_pair c2 c1.

Inductive case_variant : string -> string -> Prop :=
| cv_nil : case_variant EmptyString EmptyString
| cv_cons c1 c2 s1 s2 :
    same_letter c1 c2 -> case_variant s1 s2 ->
    case_variant (String c1 s1) (String c2 s2).

(** A bare name: no prefix of it spells "gate." in any case. *)
Definition bare (r : string) : Prop :=
  forall p s, r = (p ++ s)%string -> ~ case_variant p "gate.".

(** The spellings of one gate: case variants, and a bare name with its
    namespaced form. *)
Inductive same_gate : string -> string -> Prop :=
| sg_case r1 r2 : case_variant r1 r2 -> same_gate r1 r2
| sg_ns r : bare r -> same_gate r ("gate." ++ r)
| sg_sym r1 r2 : same_gate r1 r2 -> same_gate r2 r1
| sg_trans r1 r2 r3 : same_gate r1 r2 -> same_gate r2 r3 -> same_gate r1 r3.

Definition with_ref (o : Op) (r : string) : Op :=
  mkOp (type o) r (targets o) (theta o) (expect o) (tick o).

(** The same operation, or the same gate operation under another spelling
    of its reference. *)
Definition op_variant (o1 o2 : Op) : Prop :=
  o2 = o1
  \/ (is_gate o1 = true /\ exists r, same_gate (ref o1) r /\ o2 = with_ref o1 r).

(** ** Probability mass of a bit value *)

(** The value of bit [z] of a basis index, as 0 or 1. *)
Definition bitval (i z : Z) : Z := if Z.testbit i z then 1 else 0.

(** The projection of post-selection: the amplitudes from index [i] on,
    zeroed where the index fails the test. *)
Fixpoint projectBy (keepb : Z -> bool) (i : Z) (l : state) : state :=
  match l with
  | [] => []
  | a :: l' => (if keepb i then a else C 0 0) :: projectBy keepb (i + 1) l'
  end.

(** The probability mass of the basis states whose bit [z] is [v]. *)
Definition mass (psi : state) (z v : Z) : R :=
  total (projectBy (fun i => bitval i z =? v) 0 psi).

(** ** Circuits of the examples *)

Definition opX : Op := mkOp "gate" "X" (Some [JInt 0]) None None (Some 0).
Definition opH : Op := mkOp "gate" "H" (Some [JInt 0]) None None (Some 0).
Definition opCX : Op := mkOp "gate" "CX" (Some [JInt 0; JInt 1]) None None (Some 1).

(** The Bell circuit: H on qubit 0, then CX with control 0 and target 1,
    listed in tick order and against it. *)
Definition bell : IR := mkIR (Some 2) [opH; opCX].
Definition bell_unsorted : IR := mkIR (Some 2) [opCX; opH].

Definition bell_state : state :=
  [C (1 / SQRT2) 0; C 0 0; C 0 0; C (1 / SQRT2) 0].

(** Two postselect notes on qubit 0: one expecting 1 at tick 5, one
    expecting 0 at tick 1. *)
Definition note1 : Op :=
  mkOp "note" "postselect" (Some [JInt 0]) None (Some 1) (Some 5).
Definition note0 : Op :=
  mkOp "note" "postselect" (Some [JInt 0]) None (Some 0) (Some 1).

(** A gate the dispatch does not know. *)
Definition opFoo : Op := mkOp "gate" "gate.foo" (Some [JInt 0]) None None (Some 0).

(** ** What the kernels compute, amplitude by amplitude *)

(** A function of two amplitudes on two array reads. *)
Definition on_pair (f : Cx -> Cx -> Cx) (x y : option Cx) : option Cx :=
  match x, y with
  | Some a, Some b => Some (f a b)
  | _, _ => None
  end.

(** The two rows of a matrix applied to a pair of amplitudes. *)
Definition row0 (M : Mat2) (a0 a1 : Cx) : Cx :=
  cadd (cmul (m00 M) a0) (cmul (m01 M) a1).
Definition row1 (M : Mat2) (a0 a1 : Cx) : Cx :=
  cadd (cmul (m10 M) a0) (cmul (m11 M) a1).

(** The amplitude at index [k] after M on qubit [z]: the pair of [k] is
    [k] with bit [z] cleared and [k] with bit [z] set. *)
Definition apply1_at (M : Mat2) (z : Z) (st : state) (k : Z) : option Cx :=
  if Z.testbit k z
  then on_pair (row1 M) (aget st (k - 2 ^ z)) (aget st k)
  else on_pair (row0 M) (aget st k) (aget st (k + 2 ^ z)).

(** The index whose amplitude lands at [k]: bit [t] flipped where the
    control bits are set, bits [a] and [b] exchanged. *)
Definition cx_src (c t k : Z) : Z :=
  if Z.testbit k c then Z.lxor k (2 ^ t) else k.
Definition ccx_src (c1 c2 t k : Z) : Z :=
  if Z.testbit k c1 && Z.testbit k c2 then Z.lxor k (2 ^ t) else k.
Definition swap_src (a b k : Z) : Z :=
  if xorb (Z.testbit k a) (Z.testbit k b)
  then Z.lxor k (Z.lor (2 ^ a) (2 ^ b)) else k.
Definition cswap_src (c a b k : Z) : Z :=
  if Z.testbit k c then swap_src a b k else k.

Definition cneg (a : Cx) : Cx := C (- re a) (- im a).

(** ** Products of gates *)

(** The matrix of [M] followed by [N] on the same qubit. *)
Definition mmul (N M : Mat2) : Mat2 :=
  M2 (cadd (cmul (m00 N) (m00 M)) (cmul (m01 N) (m10 M)))
     (cadd (cmul (m00 N) (m01 M)) (cmul (m01 N) (m11 M)))
     (cadd (cmul (m10 N) (m00 M)) (cmul (m11 N) (m10 M)))
     (cadd (cmul (m10 N) (m01 M)) (cmul (m11 N) (m11 M))).

Definition Mid : Mat2 := M2 ONE ZERO ZERO ONE.

(** The normalised references of the gates that undo themselves. *)
Definition self_inverse (r : string) : bool :=
  ((r =? "X") || (r =? "Y") || (r =? "Z") || (r =? "H")
   || (r =? "CX") || (r =? "CY") || (r =? "CZ") || (r =? "SWAP")
   || (r =? "CCX") || (r =? "CCNOT") || (r =? "CSWAP"))%string%bool.

(** A kernel call that, run twice, gives the state back. *)
Definition undoes_itself (K : state -> result state) (st : state) : Prop :=
  exists s1, K st = Ok s1 /\ List.length s1 = List.length st /\ K s1 = Ok st.

(** The kernel call an operation is dispatched to; the state is returned
    as it is by an operation that is no gate or has no case. *)
Definition kernel (n : Z) (o : Op) (psi : state) : result state :=
  if negb (is_gate o) then Ok psi else
  let r := refNorm (ref o) in
  let t := tget o in
  if (r =? "X")%string then apply1 psi n (t 0%nat) Mx
  else if (r =? "Y")%string then apply1 psi n (t 0%nat) My
  else if (r =? "Z")%string then apply1 psi n (t 0%nat) Mz
  else if (r =? "H")%string then apply1 psi n (t 0%nat) Mh
  else if (r =? "S")%string then apply1 psi n (t 0%nat) Ms
  else if (r =? "T")%string then apply1 psi n (t 0%nat) Mt
  else if (r =? "RX")%string then apply1 psi n (t 0%nat) (Mrx (thetaOf o))
  else if (r =? "RY")%string then apply1 psi n (t 0%nat) (Mry (thetaOf o))
  else if (r =? "RZ")%string then apply1 psi n (t 0%nat) (Mrz (thetaOf o))
  else if (r =? "CX")%string then applyCX psi n (t 0%nat) (t 1%nat)
  else if (r =? "CY")%string then applyCY psi n (t 0%nat) (t 1%nat)
  else if (r =? "CZ")%string then applyCZ psi n (t 0%nat) (t 1%nat)
  else if (r =? "SWAP")%string then applySWAP psi n (t 0%nat) (t 1%nat)
  else if ((r =? "CCX") || (r =? "CCNOT"))%string
       then applyCCX psi n (t 0%nat) (t 1%nat) (t 2%nat)
  else if (r =? "CSWAP")%string
       then applyCSWAP psi n (t 0%nat) (t 1%nat) (t 2%nat)
  else Ok psi.

(** ** Sums *)

(** The sum of a list of probabilities. *)
Definition sumR (l : list R) : R := fold_right Rplus 0%R l.

(** An amplitude multiplied by a real factor. *)
Definition cscale (c : R) (a : Cx) : Cx := C (re a * c) (im a * c).

(** ** Cumulative distributions *)

(** An array whose entries never decrease from left to right. *)
Definition nondecreasing (l : list R) : Prop :=
  forall i j a b, 0 <= i <= j ->
    aget l i = Some a -> aget l j = Some b -> (a <= b)%R.

(** [probs[0] + ... + probs[k]]. *)
Definition partial_sum (l : list R) (k : Z) : R :=
  sumR (firstn (Z.to_nat k + 1) l).

(** ** Bit strings and readout noise *)

Definition is_bit (c : ascii) : bool := (Ascii.eqb c "0" || Ascii.eqb c "1")%bool.

(** A string of the characters 0 and 1. *)
Fixpoint bit_string (s : string) : bool :=
  match s with
  | EmptyString => true
  | String c s' => is_bit c && bit_string s'
  end.

(** The two noise types the readout step acts on. *)
Definition is_depol (nz : Noise) : bool :=
  ((ntype nz =? "DEPOLARIZING") || (ntype nz =? "depolarizing"))%string.
Definition is_ampdamp (nz : Noise) : bool :=
  ((ntype nz =? "AMP-DAMP") || (ntype nz =? "amp-damp"))%string.

(** [t] is [s] with some of its 1s turned into 0s. *)
Fixpoint lowered (s t : string) : Prop :=
  match s, t with
  | EmptyString, EmptyString => True
  | String c s', String d t' =>
      (d = c \/ (c = "1"%char /\ d = "0"%char)) /\ lowered s' t'
  | _, _ => False
  end.

(** Every character flipped as the depolarizing branch flips it, and every
    1 lowered as the damping branch lowers it. *)
Fixpoint flipped (s : string) : string :=
  match s with
  | EmptyString => EmptyString
  | String c s' => String (if Ascii.eqb c "1" then "0" else "1")%char (flipped s')
  end.
Fixpoint damped (s : string) : string :=
  match s with
  | EmptyString => EmptyString
  | String c s' => String (if Ascii.eqb c "1" then "0"%char else c) (damped s')
  end.

Fixpoint count_ones (s : string) : nat :=
  match s with
  | EmptyString => O
  | String c s' => ((if Ascii.eqb c "1" then 1 else 0) + count_ones s')%nat
  end.

(** The generator after [k] more draws of [Math.random]. *)
Definition draws_of (gen gen' : rng) : option nat :=
  match gen, gen' with
  | Unseeded a, Unseeded b => Some (b - a)%nat
  | _, _ => None
  end.

(** ** Counts *)

(** The number of shots the loop runs: [Math.max(0, Number(shots)) | 0]. *)
Definition nshotsOf (opts : Opts) : Z :=
  toInt32 (Z.max 0 (match shots opts with Some s => s | None => 0 end)).

(** The sum of the counts of a map. *)
Definition counted (m : counts_t) : Z :=
  fold_right (fun kv s => snd kv + s) 0 m.

(** A key of the counts of an [n]-qubit circuit: [n] characters 0 or 1
    (one character for a circuit without qubits). *)
Definition key_ok (n : Z) (k : string) : Prop :=
  bit_string k = true /\ String.length k = Z.to_nat (Z.max n 1).

(** ** Operations the simulation looks at *)

(** A gate, or a post-selection note. *)
Definition relevant (o : Op) : bool := is_gate o || is_postselect o.

(** The probabilities of the state |0...0> on [N] basis states. *)
Definition ground (N : Z) : list R :=
  map (fun i => if Nat.eqb i 0 then 1%R else 0%R) (seq 0 (Z.to_nat N)).

(** The normalised references of the three rotations. *)
Definition is_rotation (r : string) : bool :=
  ((r =? "RX") || (r =? "RY") || (r =? "RZ"))%string.

(** ** A Hadamard on every qubit *)

Definition opHon (z : Z) : Op := mkOp "gate" "H" (Some [JInt z]) None None None.

(** H on the qubits 0, 1, ..., m - 1, in this order. *)
Definition hadamards (m : nat) : list Op :=
  map (fun z => opHon (Z.of_nat z)) (seq 0 m).

(** The amplitude at index [k] after H on the qubits below [m], from
    |0...0>. *)
Definition half_way (m : nat) (k : Z) : Cx :=
  if k <? 2 ^ Z.of_nat m then C ((1 / SQRT2) ^ m) 0 else C 0 0.

(** * Properties *)

(** ** Loops *)

Lemma for_from_inv {S : Type} (P : Z -> S -> Prop) (body : Z -> S -> result S) :
  forall (k : nat) (i : Z) (s : S),
    P i s ->
    (forall j t, i <= j < i + Z.of_nat k -> P j t ->
                 exists t', body j t = Ok t' /\ P (j + 1) t') ->
    exists s', for_from k i body s = Ok s' /\ P (i + Z.of_nat k) s'.
Proof.
  induction k as [|k IH]; intros i s Hs Hstep.
  - exists s. split; [reflexivity|]. now replace (i + Z.of_nat 0) with i by lia.
  - destruct (Hstep i s ltac:(lia) Hs) as (t & Hb & Ht).
    destruct (IH (i + 1) t Ht) as (s' & Hf & Hs').
    + intros j u Hj Hu. apply Hstep; [lia|assumption].
    + exists s'. split.
      * cbn [for_from]. rewrite Hb. exact Hf.
      * now replace (i + Z.of_nat (Datatypes.S k)) with (i + 1 + Z.of_nat k) by lia.
Qed.

Lemma for_loop_inv {S : Type} (P : Z -> S -> Prop) (body : Z -> S -> result S)
  (size : Z) (s : S) :
  0 <= size ->
  P 0 s ->
  (forall j t, 0 <= j < size -> P j t ->
               exists t', body j t = Ok t' /\ P (j + 1) t') ->
  exists s', for_loop size body s = Ok s' /\ P size s'.
Proof.
  intros Hsz H0 Hstep. unfold for_loop.
  destruct (for_from_inv P body (Z.to_nat size) 0 s H0) as (s' & Hf & Hs').
  - intros j t Hj. apply Hstep. lia.
  - exists s'. split; [exact Hf|]. now rewrite Z2Nat.id in Hs' by lia.
Qed.

(** ** Arrays *)

Lemma length_upd {A : Type} (k : nat) (v : A) (a : list A) :
  List.length (upd k v a) = List.length a.
Proof.
  revert k. induction a as [|x a IH]; intros [|k]; cbn; try reflexivity.
  now rewrite IH.
Qed.

Lemma nth_error_upd_eq {A : Type} (k : nat) (v : A) (a : list A) :
  (k < List.length a)%nat -> nth_error (upd k v a) k = Some v.
Proof.
  revert k. induction a as [|x a IH]; intros [|k] H; cbn in *; try lia.
  - reflexivity.
  - apply IH. lia.
Qed.

Lemma nth_error_upd_ne {A : Type} (k k' : nat) (v : A) (a : list A) :
  k <> k' -> nth_error (upd k v a) k' = nth_error a k'.
Proof.
  revert k k'. induction a as [|x a IH]; intros [|k] [|k'] H; cbn;
    try reflexivity; try congruence.
  apply IH. congruence.
Qed.

Lemma aget_Some_lt {A : Type} (a : list A) (i : Z) (x : A) :
  aget a i = Some x -> 0 <= i < Z.of_nat (List.length a).
Proof.
  unfold aget. destruct (Z.ltb_spec i 0) as [Hi|Hi]; [discriminate|].
  intros Hx. assert (Hn : nth_error a (Z.to_nat i) <> None) by congruence.
  apply nth_error_Some in Hn. lia.
Qed.

Lemma aget_lt_Some {A : Type} (a : list A) (i : Z) :
  0 <= i < Z.of_nat (List.length a) -> exists x, aget a i = Some x.
Proof.
  intros H. unfold aget. destruct (Z.ltb_spec i 0); [lia|].
  destruct (nth_error a (Z.to_nat i)) eqn:E; [eauto|].
  apply nth_error_None in E. lia.
Qed.

Lemma aget_upd_ne {A : Type} (a : list A) (i j : Z) (v : A) :
  0 <= i -> i <> j -> aget (upd (Z.to_nat i) v a) j = aget a j.
Proof.
  intros Hi H. unfold aget. destruct (Z.ltb_spec j 0); [reflexivity|].
  apply nth_error_upd_ne. lia.
Qed.

Lemma wr_ok (a : state) (i : Z) (v : Cx) :
  0 <= i < Z.of_nat (List.length a) -> wr a i v = Ok (upd (Z.to_nat i) v a).
Proof.
  intros H. unfold wr.
  destruct (Z.leb_spec 0 i); [|lia]. destruct (Z.ltb_spec i (Z.of_nat (List.length a))); [|lia].
  reflexivity.
Qed.

Lemma rd_ok (e : error) (a : state) (i : Z) (x : Cx) :
  aget a i = Some x -> rd e a i = Ok x.
Proof. intros H. unfold rd. now rewrite H. Qed.

(** ** The squared norm of a statevector *)

Lemma total_upd (k : nat) (v x : Cx) (a : state) :
  nth_error a k = Some x ->
  total (upd k v a) = (total a - norm2 x + norm2 v)%R.
Proof.
  revert k. induction a as [|y a IH]; intros [|k] H; cbn [upd nth_error] in *;
    try discriminate.
  - injection H as ->. unfold total. cbn [fold_right]. lra.
  - specialize (IH _ H). unfold total in *. cbn [fold_right]. rewrite IH. lra.
Qed.

Lemma total_aset (a : state) (i : Z) (v x : Cx) :
  aget a i = Some x ->
  total (upd (Z.to_nat i) v a) = (total a - norm2 x + norm2 v)%R.
Proof.
  unfold aget. destruct (Z.ltb_spec i 0); [discriminate|]. apply total_upd.
Qed.

Lemma norm2_nonneg (a : Cx) : (0 <= norm2 a)%R.
Proof. unfold norm2. nra. Qed.

Lemma total_nonneg (l : state) : (0 <= total l)%R.
Proof.
  induction l as [|a l IH]; unfold total in *; cbn [fold_right]; [lra|].
  pose proof (norm2_nonneg a). lra.
Qed.

(** ** Loops that rewrite disjoint pairs of amplitudes

    All the kernels but CZ run the same kind of loop: at each selected
    index [i] the amplitudes at [i] and at its partner are replaced by two
    amplitudes computed from the input state. When the pairs are disjoint
    and the replacement preserves the sum of the two squared magnitudes,
    the loop runs to its end and preserves the squared norm. *)
Section PairLoop.

Variables (st : state) (size : Z) (sel : Z -> bool) (partner : Z -> Z).
Variables (f0 f1 : Cx -> Cx -> Cx) (body : Z -> state -> result state).

Hypothesis Hsize : size = Z.of_nat (List.length st).
Hypothesis Hsel : forall i out a0 a1,
  sel i = true -> aget st i = Some a0 -> aget st (partner i) = Some a1 ->
  body i out = (o1 <- wr out i (f0 a0 a1) ;; wr o1 (partner i) (f1 a0 a1)).
Hypothesis Hnsel : forall i out, sel i = false -> body i out = Ok out.
Hypothesis Hrange : forall i,
  0 <= i < size -> sel i = true -> i < partner i < size.
Hypothesis Hinj : forall i i',
  0 <= i < size -> 0 <= i' < size -> sel i = true -> sel i' = true ->
  partner i = partner i' -> i = i'.
Hypothesis Hpart : forall i,
  0 <= i < size -> sel i = true -> sel (partner i) = false.
Hypothesis Hunit : forall a0 a1,
  (norm2 (f0 a0 a1) + norm2 (f1 a0 a1) = norm2 a0 + norm2 a1)%R.

Let untouched (m : Z) (out : state) : Prop :=
  forall k, m <= k ->
    (forall i', 0 <= i' < m -> sel i' = true -> partner i' <> k) ->
    aget out k = aget st k.

Lemma pair_loop_norm :
  exists out, for_loop size body st = Ok out
              /\ List.length out = List.length st /\ total out = total st.
Proof.
  destruct (for_loop_inv
    (fun m out => List.length out = List.length st /\ total out = total st
                  /\ untouched m out) body size st) as (out & Hl & Hlen & Htot & _).
  - lia.
  - repeat split.
  - intros j out Hj (Hlen & Htot & Hun).
    destruct (sel j) eqn:Ej.
    + pose proof (Hrange j Hj Ej) as Hpj.
      destruct (aget_lt_Some st j ltac:(lia)) as (a0 & Ha0).
      destruct (aget_lt_Some st (partner j) ltac:(lia)) as (a1 & Ha1).
      assert (Hoj : aget out j = Some a0).
      { rewrite <- Ha0. apply Hun; [lia|]. intros i' Hi' Ei' Heq.
        pose proof (Hpart i' ltac:(lia) Ei') as Hc. rewrite Heq in Hc. congruence. }
      assert (Hop : aget out (partner j) = Some a1).
      { rewrite <- Ha1. apply Hun; [lia|]. intros i' Hi' Ei' Heq.
        pose proof (Hinj i' j ltac:(lia) Hj Ei' Ej Heq). lia. }
      rewrite (Hsel j out a0 a1 Ej Ha0 Ha1).
      rewrite (wr_ok out j) by lia. cbn [bind].
      rewrite wr_ok by (rewrite length_upd; lia).
      eexists. split; [reflexivity|]. split; [|split].
      * now rewrite !length_upd.
      * rewrite (total_aset _ _ _ a1), (total_aset _ _ _ a0); try assumption.
        -- pose proof (Hunit a0 a1). lra.
        -- rewrite aget_upd_ne by lia. assumption.
      * intros k Hk Hno.
        assert (k <> partner j) by (intro; subst k; apply (Hno j); [lia|assumption|reflexivity]).
        rewrite !aget_upd_ne by lia.
        apply Hun; [lia|]. intros i' Hi'. apply Hno. lia.
    + rewrite (Hnsel j out Ej). exists out. split; [reflexivity|].
      repeat split; try assumption.
      intros k Hk Hno. apply Hun; [lia|]. intros i' Hi'. apply Hno. lia.
  - exists out. auto.
Qed.

End PairLoop.

(** ** Bits of indices and masks *)

Lemma toInt32_small (x : Z) : - 2 ^ 31 <= x < 2 ^ 31 -> toInt32 x = x.
Proof. intros H. unfold toInt32. rewrite Z.mod_small; lia. Qed.

Lemma shl32_small (k : Z) : 0 <= k <= 30 -> shl32 1 k = 2 ^ k.
Proof.
  intros H. unfold shl32. rewrite (toInt32_small 1) by lia.
  rewrite Z.mod_small by lia. rewrite Z.shiftl_1_l.
  apply toInt32_small.
  assert (2 ^ k <= 2 ^ 30) by (apply Z.pow_le_mono_r; lia).
  assert (0 < 2 ^ k) by (apply Z.pow_pos_nonneg; lia). lia.
Qed.

Lemma land_pow2_eqb (i q : Z) :
  0 <= q -> (Z.land i (2 ^ q) =? 0) = negb (Z.testbit i q).
Proof.
  intros Hq. destruct (Z.testbit i q) eqn:E; cbn [negb].
  - apply Z.eqb_neq. intros H.
    assert (Hb : Z.testbit (Z.land i (2 ^ q)) q = true)
      by (rewrite Z.land_spec, E, Z.pow2_bits_true; auto).
    rewrite H, Z.bits_0 in Hb. discriminate.
  - apply Z.eqb_eq. apply Z.bits_inj'. intros k Hk.
    rewrite Z.land_spec, Z.bits_0. destruct (Z.eq_dec k q) as [->|Hne].
    + now rewrite E.
    + rewrite Z.pow2_bits_false by lia. apply andb_false_r.
Qed.

Lemma lt_pow2_bits (x n : Z) :
  0 <= x -> 0 <= n ->
  (x < 2 ^ n <-> forall k, n <= k -> Z.testbit x k = false).
Proof.
  intros Hx Hn. split.
  - intros Hlt k Hk. rewrite <- (Z.mod_small x (2 ^ n)) by lia.
    apply Z.mod_pow2_bits_high. lia.
  - intros Hb. destruct (Z.eq_dec x 0) as [->|Hne].
    + apply Z.pow_pos_nonneg; lia.
    + apply Z.log2_lt_pow2; [lia|].
      destruct (Z_lt_le_dec (Z.log2 x) n) as [|Hge]; [assumption|].
      specialize (Hb _ Hge). rewrite Z.bit_log2 in Hb by lia. discriminate.
Qed.

Lemma setbit_range (i q n : Z) :
  0 <= q < n -> 0 <= i < 2 ^ n -> 0 <= Z.lor i (2 ^ q) < 2 ^ n.
Proof.
  intros Hq Hi.
  assert (H0 : 0 <= Z.lor i (2 ^ q)).
  { apply Z.lor_nonneg. split; [lia|]. apply Z.pow_nonneg. lia. }
  split; [assumption|]. apply lt_pow2_bits; try lia.
  intros k Hk. rewrite Z.lor_spec, Z.pow2_bits_false by lia.
  rewrite orb_false_r. apply (proj1 (lt_pow2_bits i n ltac:(lia) ltac:(lia))); lia.
Qed.

Lemma setbit_add (i q : Z) :
  0 <= q -> Z.testbit i q = false -> Z.lor i (2 ^ q) = i + 2 ^ q.
Proof.
  intros Hq Hb.
  assert (Hl : Z.land i (2 ^ q) = 0).
  { apply Z.eqb_eq. rewrite land_pow2_eqb, Hb by lia. reflexivity. }
  rewrite <- Z.lxor_lor by assumption. symmetry. now apply Z.add_nocarry_lxor.
Qed.

Lemma testbit_setbit (i q k : Z) :
  0 <= q -> 0 <= k ->
  Z.testbit (Z.lor i (2 ^ q)) k = (Z.testbit i k || (k =? q))%bool.
Proof.
  intros Hq Hk. rewrite Z.lor_spec. f_equal.
  destruct (Z.eqb_spec k q) as [->|Hne].
  - apply Z.pow2_bits_true. lia.
  - apply Z.pow2_bits_false. lia.
Qed.

Lemma lxor_range (i a b n : Z) :
  0 <= a < n -> 0 <= b < n -> 0 <= i < 2 ^ n ->
  0 <= Z.lxor i (Z.lor (2 ^ a) (2 ^ b)) < 2 ^ n.
Proof.
  intros Ha Hb Hi.
  assert (Hm : 0 <= Z.lor (2 ^ a) (2 ^ b)).
  { apply Z.lor_nonneg. split; apply Z.pow_nonneg; lia. }
  assert (H0 : 0 <= Z.lxor i (Z.lor (2 ^ a) (2 ^ b))).
  { apply Z.lxor_nonneg. split; intros; lia. }
  split; [assumption|]. apply lt_pow2_bits; try lia.
  intros k Hk. rewrite Z.lxor_spec, Z.lor_spec, !Z.pow2_bits_false by lia.
  rewrite (proj1 (lt_pow2_bits i n ltac:(lia) ltac:(lia))) by lia. reflexivity.
Qed.

Lemma lxor_cancel (i i' m : Z) : Z.lxor i m = Z.lxor i' m -> i = i'.
Proof.
  intros H.
  rewrite <- (Z.lxor_0_r i), <- (Z.lxor_0_r i'), <- (Z.lxor_nilpotent m).
  now rewrite <- !Z.lxor_assoc, H.
Qed.

Lemma lxor_twice (i m : Z) : Z.lxor (Z.lxor i m) m = i.
Proof. now rewrite Z.lxor_assoc, Z.lxor_nilpotent, Z.lxor_0_r. Qed.

Lemma valid1_Some (n : Z) (q : jsnum) (z : Z) :
  valid1 n q = Some z -> q = JInt z /\ 0 <= z < n.
Proof.
  destruct q as [x|]; cbn; [|discriminate].
  destruct (Z.ltb_spec x 0); cbn; [discriminate|].
  destruct (Z.geb_spec x n); [discriminate|].
  intros [= ->]. split; [reflexivity|lia].
Qed.

Lemma valid2_true (n : Z) (a b : jsnum) :
  valid2 n a b = true ->
  exists x y, a = JInt x /\ b = JInt y /\ 0 <= x < n /\ 0 <= y < n /\ x <> y.
Proof.
  destruct a as [x|], b as [y|]; cbn; try discriminate.
  intros H. exists x, y.
  repeat (apply andb_prop in H; destruct H as [H ?]).
  apply negb_true_iff in H0. repeat split; lia.
Qed.

Lemma valid3_true (n : Z) (a b c : jsnum) :
  valid3 n a b c = true ->
  exists x y z, a = JInt x /\ b = JInt y /\ c = JInt z
    /\ 0 <= x < n /\ 0 <= y < n /\ 0 <= z < n /\ x <> y /\ x <> z /\ y <> z.
Proof.
  destruct a as [x|], b as [y|], c as [z|]; cbn; try discriminate.
  intros H. exists x, y, z.
  repeat (apply andb_prop in H; destruct H as [H ?]).
  repeat match goal with
         | H : negb _ = true |- _ => apply negb_true_iff in H
         end.
  repeat split; lia.
Qed.

(** ** The kernels preserve the squared norm *)

Lemma preserves_id (st : state) : preserves st (Ok st).
Proof. exists st. auto. Qed.

Section Kernels.

Variables (st : state) (n : Z).
Hypothesis Hn : 0 <= n <= 30.
Hypothesis Hlen : Z.of_nat (List.length st) = 2 ^ n.

(** Pairs [(i, i | 2^t)] over the indices whose bit [t] is clear and that
    pass a test on the control bits. *)
Lemma setbit_loop_norm (ctl : Z -> bool) (t : Z) (f0 f1 : Cx -> Cx -> Cx)
  (body : Z -> state -> result state) :
  0 <= t < n ->
  (forall i out a0 a1,
      (ctl i && (Z.land i (2 ^ t) =? 0))%bool = true ->
      aget st i = Some a0 -> aget st (Z.lor i (2 ^ t)) = Some a1 ->
      body i out = (o1 <- wr out i (f0 a0 a1) ;; wr o1 (Z.lor i (2 ^ t)) (f1 a0 a1))) ->
  (forall i out, (ctl i && (Z.land i (2 ^ t) =? 0))%bool = false ->
                 body i out = Ok out) ->
  (forall a0 a1, (norm2 (f0 a0 a1) + norm2 (f1 a0 a1) = norm2 a0 + norm2 a1)%R) ->
  preserves st (for_loop (2 ^ n) body st).
Proof.
  intros Ht Hsel Hnsel Hunit.
  apply (pair_loop_norm st (2 ^ n)
           (fun i => (ctl i && (Z.land i (2 ^ t) =? 0))%bool)
           (fun i => Z.lor i (2 ^ t)) f0 f1); try assumption.
  - lia.
  - intros i Hi Es. apply andb_prop in Es. destruct Es as [_ Es].
    rewrite land_pow2_eqb in Es by lia. apply negb_true_iff in Es.
    pose proof (setbit_range i t n ltac:(lia) Hi).
    rewrite setbit_add in * by (assumption || lia).
    assert (0 < 2 ^ t) by (apply Z.pow_pos_nonneg; lia). lia.
  - intros i i' Hi Hi' Es Es' Heq.
    apply andb_prop in Es, Es'. destruct Es as [_ Es], Es' as [_ Es'].
    rewrite land_pow2_eqb in Es, Es' by lia.
    apply negb_true_iff in Es, Es'.
    rewrite !setbit_add in Heq by (assumption || lia). lia.
  - intros i Hi Es. rewrite land_pow2_eqb by lia.
    rewrite testbit_setbit by lia.
    rewrite Z.eqb_refl, orb_true_r. apply andb_false_r.
Qed.

(** Pairs [(i, i ^ (2^a | 2^b))] with [i] the smaller of the two. *)
Lemma xor_loop_norm (ctl : Z -> bool) (a b : Z)
  (body : Z -> state -> result state) :
  0 <= a < n -> 0 <= b < n ->
  let m := Z.lor (2 ^ a) (2 ^ b) in
  (forall i out a0 a1,
      (ctl i && (i <? Z.lxor i m))%bool = true ->
      aget st i = Some a0 -> aget st (Z.lxor i m) = Some a1 ->
      body i out = (o1 <- wr out i a1 ;; wr o1 (Z.lxor i m) a0)) ->
  (forall i out, (ctl i && (i <? Z.lxor i m))%bool = false ->
                 body i out = Ok out) ->
  preserves st (for_loop (2 ^ n) body st).
Proof.
  intros Ha Hb m Hsel Hnsel.
  apply (pair_loop_norm st (2 ^ n)
           (fun i => (ctl i && (i <? Z.lxor i m))%bool)
           (fun i => Z.lxor i m) (fun _ a1 => a1) (fun a0 _ => a0));
    try assumption.
  - lia.
  - intros i Hi Es. apply andb_prop in Es. destruct Es as [_ Es].
    apply Z.ltb_lt in Es.
    pose proof (lxor_range i a b n Ha Hb Hi). fold m in H. lia.
  - intros i i' _ _ _ _ Heq. now apply lxor_cancel in Heq.
  - intros i Hi Es. apply andb_prop in Es. destruct Es as [_ Es].
    apply Z.ltb_lt in Es. rewrite lxor_twice.
    replace (Z.lxor i m <? i) with false by (symmetry; apply Z.ltb_ge; lia).
    apply andb_false_r.
  - intros a0 a1. lra.
Qed.

Ltac use_reads H0 H1 :=
  repeat (first [rewrite (rd_ok _ _ _ _ H0) | rewrite (rd_ok _ _ _ _ H1)];
          cbn [bind]);
  reflexivity.

Lemma apply1_norm (q : jsnum) (M : Mat2) :
  unitary M -> preserves st (apply1 st n q M).
Proof.
  intros HM. unfold apply1. destruct (valid1 n q) as [z|] eqn:Ev;
    [|apply preserves_id].
  apply valid1_Some in Ev. destruct Ev as [_ Hz].
  rewrite (shl32_small n), (shl32_small z) by lia.
  apply (setbit_loop_norm (fun _ => true) z
           (fun a0 a1 => cadd (cmul (m00 M) a0) (cmul (m01 M) a1))
           (fun a0 a1 => cadd (cmul (m10 M) a0) (cmul (m11 M) a1)));
    [lia| | |exact HM].
  - intros i out a0 a1 Es H0 H1. cbn [andb] in Es. rewrite Es. use_reads H0 H1.
  - intros i out Es. cbn [andb] in Es. now rewrite Es.
Qed.

Lemma applyCX_norm (control target : jsnum) :
  preserves st (applyCX st n control target).
Proof.
  unfold applyCX. destruct (valid2 n control target) eqn:Ev; cbn [negb];
    [|apply preserves_id].
  apply valid2_true in Ev. destruct Ev as (x & y & -> & -> & Hx & Hy & Hne).
  cbn [jsint]. rewrite (shl32_small n), (shl32_small x), (shl32_small y) by lia.
  apply (setbit_loop_norm (fun i => negb (Z.land i (2 ^ x) =? 0)) y
           (fun _ a1 => a1) (fun a0 _ => a0)); [lia| | |intros; lra].
  - intros i out a0 a1 Es H0 H1. rewrite Es. use_reads H0 H1.
  - intros i out Es. now rewrite Es.
Qed.

Lemma applyCY_norm (control target : jsnum) :
  unitary My -> preserves st (applyCY st n control target).
Proof.
  intros HM. unfold applyCY. destruct (valid2 n control target) eqn:Ev; cbn [negb];
    [|apply preserves_id].
  apply valid2_true in Ev. destruct Ev as (x & y & -> & -> & Hx & Hy & Hne).
  cbn [jsint]. rewrite (shl32_small n), (shl32_small x), (shl32_small y) by lia.
  apply (setbit_loop_norm (fun i => negb (Z.land i (2 ^ x) =? 0)) y
           (fun a0 a1 => cadd (cmul (m00 My) a0) (cmul (m01 My) a1))
           (fun a0 a1 => cadd (cmul (m10 My) a0) (cmul (m11 My) a1)));
    [lia| | |exact HM].
  - intros i out a0 a1 Es H0 H1. rewrite Es. use_reads H0 H1.
  - intros i out Es. now rewrite Es.
Qed.

Lemma applyCCX_norm (c1 c2 target : jsnum) :
  preserves st (applyCCX st n c1 c2 target).
Proof.
  unfold applyCCX. destruct (valid3 n c1 c2 target) eqn:Ev; cbn [negb];
    [|apply preserves_id].
  apply valid3_true in Ev.
  destruct Ev as (x & y & z & -> & -> & -> & Hx & Hy & Hz & _).
  cbn [jsint].
  rewrite (shl32_small n), (shl32_small x), (shl32_small y), (shl32_small z) by lia.
  apply (setbit_loop_norm
           (fun i => (negb (Z.land i (2 ^ x) =? 0) && negb (Z.land i (2 ^ y) =? 0))%bool)
           z (fun _ a1 => a1) (fun a0 _ => a0)); [lia| | |intros; lra].
  - intros i out a0 a1 Es H0 H1. rewrite Es. use_reads H0 H1.
  - intros i out Es. now rewrite Es.
Qed.

Lemma applyCZ_norm (control target : jsnum) :
  preserves st (applyCZ st n control target).
Proof.
  unfold applyCZ. destruct (valid2 n control target) eqn:Ev; cbn [negb];
    [|apply preserves_id].
  apply valid2_true in Ev. destruct Ev as (x & y & -> & -> & Hx & Hy & Hne).
  cbn [jsint]. rewrite (shl32_small n), (shl32_small x), (shl32_small y) by lia.
  destruct (for_loop_inv
    (fun _ out => List.length out = List.length st /\ total out = total st)
    (fun i out =>
       if Z.land i (Z.lor (2 ^ x) (2 ^ y)) =? Z.lor (2 ^ x) (2 ^ y)
       then a <- rd TypeError out i ;; wr out i (C (- re a) (- im a))
       else Ok out) (2 ^ n) st) as (out & Hl & Hlo & Hto).
  - lia.
  - auto.
  - intros j out Hj (Hlo & Hto).
    destruct (Z.land j (Z.lor (2 ^ x) (2 ^ y)) =? Z.lor (2 ^ x) (2 ^ y));
      [|exists out; auto].
    destruct (aget_lt_Some out j ltac:(lia)) as (a & Ha).
    rewrite (rd_ok _ _ _ _ Ha). cbn [bind]. rewrite wr_ok by lia.
    eexists. split; [reflexivity|]. split; [now rewrite length_upd|].
    rewrite (total_aset _ _ _ a Ha), Hto. unfold norm2. cbn [re im]. lra.
  - exists out. auto.
Qed.

Lemma applySWAP_norm (q0 q1 : jsnum) :
  preserves st (applySWAP st n q0 q1).
Proof.
  unfold applySWAP. destruct (valid2 n q0 q1) eqn:Ev; cbn [negb];
    [|apply preserves_id].
  apply valid2_true in Ev. destruct Ev as (x & y & -> & -> & Hx & Hy & Hne).
  cbn [jsint]. destruct (x =? y); [apply preserves_id|].
  assert (Hgen : forall a b, 0 <= a < n -> 0 <= b < n ->
    preserves st
      (for_loop (shl32 1 n) (fun i out =>
         let ia := negb (Z.land i (shl32 1 a) =? 0) in
         let ib := negb (Z.land i (shl32 1 b) =? 0) in
         if negb (Bool.eqb ia ib) then
           let j := Z.lxor i (Z.lor (shl32 1 a) (shl32 1 b)) in
           if i <? j then
             v <- rd OutOfBounds st j ;; out <- wr out i v ;;
             w <- rd OutOfBounds st i ;; wr out j w
           else Ok out
         else Ok out) st)).
  { intros a b Ha Hb.
    rewrite (shl32_small n), (shl32_small a), (shl32_small b) by lia.
    apply (xor_loop_norm
             (fun i => negb (Bool.eqb (negb (Z.land i (2 ^ a) =? 0))
                                      (negb (Z.land i (2 ^ b) =? 0)))) a b);
      try assumption.
    - intros i out a0 a1 Es H0 H1. cbv zeta. apply andb_prop in Es.
      destruct Es as [E1 E2]. rewrite E1, E2. use_reads H0 H1.
    - intros i out Es. cbv zeta. apply andb_false_iff in Es.
      destruct Es as [E|E]; rewrite E; [reflexivity|].
      now destruct (negb _). }
  destruct (x <? y); apply Hgen; assumption.
Qed.

Lemma applyCSWAP_norm (control q0 q1 : jsnum) :
  preserves st (applyCSWAP st n control q0 q1).
Proof.
  unfold applyCSWAP. destruct (valid3 n control q0 q1) eqn:Ev; cbn [negb];
    [|apply preserves_id].
  apply valid3_true in Ev.
  destruct Ev as (x & y & z & -> & -> & -> & Hx & Hy & Hz & _).
  cbn [jsint]. destruct (y =? z); [apply preserves_id|].
  rewrite (shl32_small n), (shl32_small x), (shl32_small y), (shl32_small z) by lia.
  apply (xor_loop_norm
           (fun i => (negb (Z.land i (2 ^ x) =? 0)
                      && negb (Bool.eqb (negb (Z.land i (2 ^ y) =? 0))
                                        (negb (Z.land i (2 ^ z) =? 0))))%bool) y z);
    try assumption.
  - intros i out a0 a1 Es H0 H1. cbv zeta. apply andb_prop in Es.
    destruct Es as [E1 E2]. apply andb_prop in E1. destruct E1 as [E0 E1].
    apply negb_true_iff in E0. rewrite E0, E1, E2. use_reads H0 H1.
  - intros i out Es. cbv zeta.
    destruct (Z.land i (2 ^ x) =? 0); [reflexivity|]. cbn [negb andb] in Es.
    apply andb_false_iff in Es.
    destruct Es as [E|E]; rewrite E; [reflexivity|].
    now destruct (negb _).
Qed.

End Kernels.

(** ** The gate matrices are unitary *)

Ltac unfold_unitary :=
  intros [x0 y0] [x1 y1]; unfold norm2, cadd, cmul;
  cbn [re im m00 m01 m10 m11 ONE ZERO].

Lemma unitary_Mx : unitary Mx.
Proof. unfold Mx. unfold_unitary. ring. Qed.

Lemma unitary_My : unitary My.
Proof. unfold My. unfold_unitary. ring. Qed.

Lemma unitary_Mz : unitary Mz.
Proof. unfold Mz. unfold_unitary. ring. Qed.

Lemma unitary_Ms : unitary Ms.
Proof. unfold Ms. unfold_unitary. ring. Qed.

Lemma inv_sqrt2_sqr : (1 / SQRT2 * (1 / SQRT2) = 1 / 2)%R.
Proof.
  unfold SQRT2. assert (H : (sqrt 2 * sqrt 2 = 2)%R) by (apply sqrt_def; lra).
  assert (H0 : (sqrt 2 <> 0)%R) by (intro E; rewrite E in H; lra).
  field_simplify_eq; [lra|assumption].
Qed.

Lemma sqrt1_2_sqr : (SQRT1_2 * SQRT1_2 = 1 / 2)%R.
Proof. unfold SQRT1_2. apply sqrt_def. lra. Qed.

Lemma unitary_Mh : unitary Mh.
Proof.
  unfold Mh. cbv zeta. pose proof inv_sqrt2_sqr as Hs.
  set (s := (1 / SQRT2)%R) in *. unfold_unitary.
  replace (_ + _)%R
    with (2 * (s * s) * (x0 * x0 + y0 * y0 + x1 * x1 + y1 * y1))%R by ring.
  rewrite Hs. field.
Qed.

Lemma unitary_Mt : unitary Mt.
Proof.
  unfold Mt. pose proof sqrt1_2_sqr as Hs.
  set (s := SQRT1_2) in *. unfold_unitary.
  replace (_ + _)%R
    with (x0 * x0 + y0 * y0 + 2 * (s * s) * (x1 * x1 + y1 * y1))%R by ring.
  rewrite Hs. field.
Qed.

Lemma cos_sin_sqr (x : R) : (cos x * cos x + sin x * sin x = 1)%R.
Proof. pose proof (sin2_cos2 x) as H. unfold Rsqr in H. lra. Qed.

Lemma unitary_Mrx (theta : R) : unitary (Mrx theta).
Proof.
  unfold Mrx. cbv zeta. pose proof (cos_sin_sqr (theta / 2)) as H.
  set (c := cos (theta / 2)) in *. set (s := sin (theta / 2)) in *.
  unfold_unitary.
  replace (_ + _)%R
    with ((c * c + s * s) * (x0 * x0 + y0 * y0 + x1 * x1 + y1 * y1))%R by ring.
  rewrite H. ring.
Qed.

Lemma unitary_Mry (theta : R) : unitary (Mry theta).
Proof.
  unfold Mry. cbv zeta. pose proof (cos_sin_sqr (theta / 2)) as H.
  set (c := cos (theta / 2)) in *. set (s := sin (theta / 2)) in *.
  unfold_unitary.
  replace (_ + _)%R
    with ((c * c + s * s) * (x0 * x0 + y0 * y0 + x1 * x1 + y1 * y1))%R by ring.
  rewrite H. ring.
Qed.

Lemma unitary_Mrz (theta : R) : unitary (Mrz theta).
Proof.
  unfold Mrz. cbv zeta. rewrite cos_neg, sin_neg.
  pose proof (cos_sin_sqr (theta / 2)) as H.
  set (c := cos (theta / 2)) in *. set (s := sin (theta / 2)) in *.
  unfold_unitary.
  replace (_ + _)%R
    with ((c * c + s * s) * (x0 * x0 + y0 * y0 + x1 * x1 + y1 * y1))%R by ring.
  rewrite H. ring.
Qed.

(** ** The evolution loop *)

Lemma step_norm (n : Z) (o : Op) (psi : state) (ent : bool) :
  0 <= n <= 30 -> Z.of_nat (List.length psi) = 2 ^ n ->
  exists psi' ent', step n o (psi, ent) = Ok (psi', ent')
    /\ List.length psi' = List.length psi /\ total psi' = total psi.
Proof.
  intros Hn Hlen.
  assert (Hid : exists psi' ent', Ok (psi, ent) = Ok (psi', ent')
            /\ List.length psi' = List.length psi /\ total psi' = total psi)
    by (exists psi, ent; auto).
  assert (Hone : forall M, unitary M ->
            exists psi' ent',
              (psi' <- apply1 psi n (tget o 0%nat) M ;; Ok (psi', ent)) = Ok (psi', ent')
              /\ List.length psi' = List.length psi /\ total psi' = total psi).
  { intros M HM. destruct (apply1_norm psi n Hn Hlen (tget o 0%nat) M HM)
      as (out & -> & ? & ?). exists out, ent. auto. }
  assert (Hmulti : forall k, preserves psi k ->
            exists psi' ent',
              (psi' <- k ;; Ok (psi', true)) = Ok (psi', ent')
              /\ List.length psi' = List.length psi /\ total psi' = total psi).
  { intros k (out & -> & ? & ?). exists out, true. auto. }
  unfold step. destruct (is_gate o); cbn [negb]; [|exact Hid].
  cbv zeta.
  repeat match goal with
         | |- context [if ?b then _ else _] => destruct b
         end;
    try exact Hid;
    try (apply Hone;
         first [apply unitary_Mx | apply unitary_My | apply unitary_Mz
               | apply unitary_Mh | apply unitary_Ms | apply unitary_Mt
               | apply unitary_Mrx | apply unitary_Mry | apply unitary_Mrz]);
    apply Hmulti;
    first [apply applyCX_norm | apply applyCY_norm | apply applyCZ_norm
          | apply applySWAP_norm | apply applyCCX_norm | apply applyCSWAP_norm];
    try assumption; apply unitary_My.
Qed.

Lemma evolve_norm (n : Z) (l : list Op) :
  0 <= n <= 30 ->
  forall (psi : state) (ent : bool),
    Z.of_nat (List.length psi) = 2 ^ n ->
    exists psi' ent', evolve n l (psi, ent) = Ok (psi', ent')
      /\ List.length psi' = List.length psi /\ total psi' = total psi.
Proof.
  intros Hn. induction l as [|o l IH]; intros psi ent Hlen.
  - exists psi, ent. auto.
  - destruct (step_norm n o psi ent Hn Hlen) as (p1 & e1 & Hs & Hl1 & Ht1).
    destruct (IH p1 e1 ltac:(congruence)) as (p2 & e2 & He & Hl2 & Ht2).
    exists p2, e2. cbn [evolve]. rewrite Hs. cbn [bind].
    repeat split; congruence.
Qed.

Lemma total_init (k : nat) :
  total (map (fun i => if Nat.eqb i 0 then C 1 0 else C 0 0) (seq 1 k)) = 0%R.
Proof.
  assert (H : forall s, (0 < s)%nat ->
    total (map (fun i => if Nat.eqb i 0 then C 1 0 else C 0 0) (seq s k)) = 0%R).
  { induction k as [|k IH]; intros s Hs; [reflexivity|].
    cbn [seq map]. destruct s; [lia|]. unfold total in *. cbn [fold_right Nat.eqb].
    rewrite IH by lia. unfold norm2. cbn [re im]. lra. }
  apply H. lia.
Qed.

Lemma init_state_norm (n : Z) :
  0 <= n <= 30 ->
  exists psi, init_state (shl32 1 n) = Ok psi
              /\ Z.of_nat (List.length psi) = 2 ^ n /\ total psi = 1%R.
Proof.
  intros Hn. rewrite shl32_small by lia. unfold init_state.
  assert (Hp : 0 < 2 ^ n) by (apply Z.pow_pos_nonneg; lia).
  destruct (Z.ltb_spec (2 ^ n) 0); [lia|].
  eexists. split; [reflexivity|]. split.
  - rewrite length_map, length_seq. lia.
  - destruct (Z.to_nat (2 ^ n)) as [|k] eqn:E; [lia|].
    cbn [seq map Nat.eqb]. unfold total. cbn [fold_right].
    fold (total (map (fun i => if Nat.eqb i 0 then C 1 0 else C 0 0) (seq 1 k))).
    rewrite total_init. unfold norm2. cbn [re im]. lra.
Qed.

Lemma qubitsOf_bounds (ir : IR) :
  qubitsOf ir <= 30 ->
  0 <= qubitsOf ir <= 30.
Proof. unfold qubitsOf. lia. Qed.

Lemma evolveCircuit_norm (ir : IR) :
  qubitsOf ir <= 30 ->
  exists psi ent, evolveCircuit ir = Ok (psi, ent)
    /\ Z.of_nat (List.length psi) = 2 ^ qubitsOf ir /\ total psi = 1%R.
Proof.
  intros Hq. apply qubitsOf_bounds in Hq. unfold evolveCircuit.
  destruct (init_state_norm _ Hq) as (psi0 & -> & Hl0 & Ht0). cbn [bind].
  destruct (evolve_norm (qubitsOf ir) (sort_ops (ops ir)) Hq psi0 false Hl0)
    as (psi & ent & -> & Hl & Ht).
  exists psi, ent. repeat split; congruence.
Qed.

(** ** The result of a simulation, from its parts *)

Lemma for_loop_pure {S : Type} (f : Z -> S -> S) (size : Z) (s : S) :
  exists s', for_loop size (fun i t => Ok (f i t)) s = Ok s'.
Proof.
  unfold for_loop. generalize 0. revert s.
  induction (Z.to_nat size) as [|k IH]; intros s i; cbn [for_from bind]; eauto.
Qed.

Lemma simulate_ok (mathRandom : nat -> R) (ir : IR) (opts : Opts)
  (psi psi' : state) (ent : bool) (pp : option R) :
  evolveCircuit ir = Ok (psi, ent) ->
  postSelect (ops ir) (qubitsOf ir) psi = Ok (psi', pp) ->
  exists cnt,
    simulateCircuit mathRandom ir opts
    = Ok (mkResult (qubitsOf ir)
            (Z.of_nat (List.length (filter is_gate (sort_ops (ops ir)))))
            (map norm2 psi') psi' cnt ent pp).
Proof.
  intros He Hp. unfold simulateCircuit. rewrite He. cbn [bind].
  rewrite Hp. cbn [bind].
  destruct (0 <? _).
  - match goal with
    | |- context [for_loop ?sz (fun _ s => Ok (?f s)) ?s0] =>
        destruct (for_loop_pure (fun _ s => f s) sz s0) as (s' & ->)
    end.
    cbn [bind]. eauto.
  - cbn [bind]. eauto.
Qed.

(** ** The embedding on small inputs *)

Ltac eval_reals :=
  cbv - [IZR sqrt Rplus Rmult Rminus Ropp Rdiv Rinv cos sin Rle_dec Rlt_dec
         SQRT2 SQRT1_2].

Ltac list_reals :=
  repeat match goal with
         | |- _ :: _ = _ :: _ => f_equal
         | |- C _ _ = C _ _ => f_equal
         end;
  try reflexivity; try ring.

(** A circuit without gates stays in the all-zero basis state. *)
Example evolve_no_gate :
  evolveCircuit (mkIR (Some 2) []) = Ok ([C 1 0; C 0 0; C 0 0; C 0 0], false).
Proof. eval_reals. reflexivity. Qed.

(** A missing or negative qubit count is clamped to zero: one amplitude. *)
Example evolve_negative_qubits :
  evolveCircuit (mkIR (Some (-3)) [opH]) = Ok ([C 1 0], false)
  /\ evolveCircuit (mkIR None []) = Ok ([C 1 0], false).
Proof. split; eval_reals; reflexivity. Qed.

(** X on qubit 0 of two qubits: amplitude 1 at basis index 1. *)
Example evolve_x :
  evolveCircuit (mkIR (Some 2) [opX])
  = Ok ([C 0 0; C 1 0; C 0 0; C 0 0], false).
Proof. eval_reals. do 2 f_equal. list_reals. Qed.

(** Toffoli on |011>, under three spellings of the references: the
    amplitude moves to basis index 7. *)
Example evolve_toffoli :
  evolveCircuit
    (mkIR (Some 3)
       [mkOp "gate" "x" (Some [JInt 0]) None None (Some 0);
        mkOp "gate" "gate.X" (Some [JInt 1]) None None (Some 0);
        mkOp "gate" "ccnot" (Some [JInt 0; JInt 1; JInt 2]) None None (Some 1)])
  = Ok ([C 0 0; C 0 0; C 0 0; C 0 0; C 0 0; C 0 0; C 0 0; C 1 0], true).
Proof. eval_reals. do 2 f_equal. list_reals. Qed.

(** Operations run in tick order: CX (tick 1) before X (tick 5), whatever
    the list order, so the control is still 0 when CX runs. *)
Example evolve_tick_order :
  evolveCircuit
    (mkIR (Some 2)
       [mkOp "gate" "X" (Some [JInt 0]) None None (Some 5);
        mkOp "gate" "CX" (Some [JInt 0; JInt 1]) None None (Some 1)])
  = Ok ([C 0 0; C 1 0; C 0 0; C 0 0], true).
Proof. eval_reals. do 2 f_equal. list_reals. Qed.

(** The first draw of the generator seeded with 1 is 2693262067 / 2^32,
    and its counter has moved by 0x6D2B79F5. *)
Example mulberry32_seed1 :
  mulberry32 1 = ((2693262067 / 4294967296)%R, 1831565814).
Proof.
  unfold mulberry32. cbv zeta.
  match goal with
  | |- ((IZR ?u / _)%R, ?a) = _ =>
      let u' := eval vm_compute in u in
      let a' := eval vm_compute in a in
      change u with u'; change a with a'
  end.
  reflexivity.
Qed.

(** Counts are keyed by the bitstring, most significant qubit first. *)
Example counts_keys :
  padStart 3 (toString2 5) = "101"%string
  /\ padStart 3 (toString2 1) = "001"%string
  /\ counts_set (counts_set (counts_set [] "01" 1) "10" 1) "01" 2
     = [("01"%string, 2); ("10"%string, 1)].
Proof. repeat split. Qed.

(** ** C1: the evolution loop preserves the squared norm *)

(** C1 (as amended). In exact arithmetic: for every circuit that declares
    at most 30 qubits (a negative or missing count is clamped to 0) and
    every operation list, valid or not, the evolution loop runs to its end
    and the statevector it produces, before any post-selection or sampling,
    has squared magnitudes summing to 1; and every turn of the loop,
    whatever the operation (any kernel, or a skipped, invalid or unknown
    operation), returns a state of the same squared norm. In double
    precision the sum is 1 up to rounding only, see [hadamard_in_doubles]. *)
Theorem C1_evolution_preserves_norm (ir : IR) :
  qubitsOf ir <= 30 ->
  (exists psi ent, evolveCircuit ir = Ok (psi, ent) /\ total psi = 1%R)
  /\ (forall (o : Op) (psi : state) (ent : bool),
        Z.of_nat (List.length psi) = 2 ^ qubitsOf ir ->
        exists psi' ent', step (qubitsOf ir) o (psi, ent) = Ok (psi', ent')
                          /\ total psi' = total psi).
Proof.
  intros Hq. split.
  - destruct (evolveCircuit_norm ir Hq) as (psi & ent & He & _ & Ht). eauto.
  - intros o psi ent Hlen.
    destruct (step_norm (qubitsOf ir) o psi ent (qubitsOf_bounds ir Hq) Hlen)
      as (psi' & ent' & Hs & _ & Ht).
    eauto.
Qed.

Lemma C1_evolution_preserves_norm_witness :
  2 <= 30
  /\ (exists psi ent, evolveCircuit bell = Ok (psi, ent) /\ total psi = 1%R).
Proof.
  split; [lia|]. apply (C1_evolution_preserves_norm bell). cbn. lia.
Defined.

(** Beyond 30 qubits the register is no vector of 2^n amplitudes: with 31
    qubits [1 << 31] is negative and [new Array(N)] throws; with 32 qubits
    [1 << 32] is 1, the state has one amplitude and H on qubit 0 reads
    [state[1]], which is [undefined]. *)
Example evolveCircuit_31 : evolveCircuit (mkIR (Some 31) []) = Throw RangeError.
Proof. vm_compute. reflexivity. Qed.

Example evolveCircuit_32 : evolveCircuit (mkIR (Some 32) [opH]) = Throw TypeError.
Proof. eval_reals. reflexivity. Qed.

(** C1 as stated, for every qubit count, fails: with 31 declared qubits
    [1 << 31] is negative and [new Array(N)] throws, so no statevector is
    produced at all. *)
Lemma C1_counterexample :
  ~ (forall ir : IR,
       exists psi ent, evolveCircuit ir = Ok (psi, ent) /\ total psi = 1%R).
Proof.
  intros H. destruct (H (mkIR (Some 31) [])) as (psi & ent & He & _).
  rewrite evolveCircuit_31 in He. discriminate.
Qed.

(** ** C2: the Bell state *)

Lemma evolve_bell : evolveCircuit bell = Ok (bell_state, true).
Proof.
  unfold bell_state. eval_reals. do 2 f_equal. list_reals.
Qed.

Lemma evolve_bell_unsorted : evolveCircuit bell_unsorted = Ok (bell_state, true).
Proof.
  unfold bell_state. eval_reals. do 2 f_equal. list_reals.
Qed.

Lemma bell_probs : map norm2 bell_state = [(1 / 2)%R; 0%R; 0%R; (1 / 2)%R].
Proof.
  unfold bell_state, norm2. cbn [map re im]. rewrite inv_sqrt2_sqr.
  list_reals.
Qed.

(** C2 (as amended). On the 2-qubit circuit made of H on qubit 0 (tick 0)
    and CX with control 0 and target 1 (tick 1), in either list order and
    for every option and random source, [simulateCircuit] returns
    [entangledLikely = true] and probabilities that are 0 at the basis
    indices 1 and 2 and, at the indices 0 and 3, 1/2 in exact arithmetic
    and 0.5 - 2^-53 (printed 0.4999999999999999) in the double precision
    the program computes in. *)
Theorem C2_bell_state (mathRandom : nat -> R) (opts : Opts)
  (Math_cos Math_sin : float -> float) (thetaD : Op -> float) :
  (exists r, simulateCircuit mathRandom bell opts = Ok r
             /\ probs r = [(1 / 2)%R; 0%R; 0%R; (1 / 2)%R]
             /\ entangledLikely r = true)
  /\ (exists r, simulateCircuit mathRandom bell_unsorted opts = Ok r
                /\ probs r = [(1 / 2)%R; 0%R; 0%R; (1 / 2)%R]
                /\ entangledLikely r = true)
  /\ (exists d, Double.simulate Math_cos Math_sin thetaD bell = Ok d
                /\ Double.probs d
                   = [0x1.ffffffffffffep-2%float; 0%float; 0%float;
                      0x1.ffffffffffffep-2%float]
                /\ Double.entangledLikely d = true)
  /\ (exists d, Double.simulate Math_cos Math_sin thetaD bell_unsorted = Ok d
                /\ Double.probs d
                   = [0x1.ffffffffffffep-2%float; 0%float; 0%float;
                      0x1.ffffffffffffep-2%float]
                /\ Double.entangledLikely d = true).
Proof.
  split; [|split; [|split]].
  - destruct (simulate_ok mathRandom bell opts bell_state bell_state true None
                evolve_bell eq_refl) as (cnt & ->).
    eexists. split; [reflexivity|]. cbn [probs entangledLikely].
    split; [apply bell_probs|reflexivity].
  - destruct (simulate_ok mathRandom bell_unsorted opts bell_state bell_state
                true None evolve_bell_unsorted eq_refl) as (cnt & ->).
    eexists. split; [reflexivity|]. cbn [probs entangledLikely].
    split; [apply bell_probs|reflexivity].
  - eexists. split; [vm_compute; reflexivity|]. split; reflexivity.
  - eexists. split; [vm_compute; reflexivity|]. split; reflexivity.
Qed.

(** C2 as stated, with probabilities equal to 1/2, fails of the program's
    own arithmetic: 1 / Math.SQRT2 is 0.7071067811865475 and its square is
    0.5 - 2^-53, the second double below 1/2. *)
Lemma C2_counterexample :
  ~ (forall d, Double.simulate (fun x => x) (fun x => x) (fun _ => 0%float) bell
               = Ok d ->
               nth_error (Double.probs d) 0 = Some 0.5%float).
Proof.
  intros H.
  assert (E : exists d,
             Double.simulate (fun x => x) (fun x => x) (fun _ => 0%float) bell
             = Ok d
             /\ nth_error (Double.probs d) 0 = Some 0x1.ffffffffffffep-2%float).
  { eexists. split; [vm_compute; reflexivity|reflexivity]. }
  destruct E as (d & Hd & Hp). rewrite (H d Hd) in Hp.
  pose proof (f_equal (fun o => match o with
                                | Some x => PrimFloat.ltb x 0.5%float
                                | None => false
                                end) Hp) as E.
  vm_compute in E. discriminate E.
Qed.

(** ** C4: invalid targets make a kernel a no-op *)

Lemma valid1_in_range (n : Z) (q : jsnum) :
  ~ in_range n q -> valid1 n q = None.
Proof.
  intros H. destruct (valid1 n q) as [z|] eqn:E; [|reflexivity].
  apply valid1_Some in E. destruct E as [-> Hz].
  exfalso. apply H. exists z. auto.
Qed.

Lemma valid2_well_targeted (n : Z) (a b : jsnum) :
  ~ well_targeted n [a; b] -> valid2 n a b = false.
Proof.
  intros H. destruct (valid2 n a b) eqn:E; [|reflexivity].
  apply valid2_true in E. destruct E as (x & y & -> & -> & Hx & Hy & Hne).
  exfalso. apply H. split.
  - repeat constructor; eexists; eauto.
  - repeat constructor; cbn; intuition congruence.
Qed.

Lemma valid3_well_targeted (n : Z) (a b c : jsnum) :
  ~ well_targeted n [a; b; c] -> valid3 n a b c = false.
Proof.
  intros H. destruct (valid3 n a b c) eqn:E; [|reflexivity].
  apply valid3_true in E.
  destruct E as (x & y & z & -> & -> & -> & Hx & Hy & Hz & Hxy & Hxz & Hyz).
  exfalso. apply H. split.
  - repeat constructor; eexists; eauto.
  - repeat constructor; cbn; intuition congruence.
Qed.

Lemma not_in_range_n (n : Z) : ~ in_range n (JInt n).
Proof. intros (z & [= <-] & Hz). lia. Qed.

(** C4. A kernel whose targets are not all integers of [0, n), or (2- and
    3-qubit kernels) not pairwise distinct, returns its input state itself
    and throws nothing, whatever the state and the declared size; so does
    every kernel with a target equal to n. *)
Theorem C4_invalid_targets_noop (st : state) (n : Z) :
  (forall q M, ~ in_range n q -> apply1 st n q M = Ok st)
  /\ (forall a b, ~ well_targeted n [a; b] ->
        applyCX st n a b = Ok st /\ applyCY st n a b = Ok st
        /\ applyCZ st n a b = Ok st /\ applySWAP st n a b = Ok st)
  /\ (forall a b c, ~ well_targeted n [a; b; c] ->
        applyCCX st n a b c = Ok st /\ applyCSWAP st n a b c = Ok st)
  /\ (forall M b c,
        apply1 st n (JInt n) M = Ok st
        /\ applyCX st n b (JInt n) = Ok st /\ applyCY st n b (JInt n) = Ok st
        /\ applyCZ st n b (JInt n) = Ok st /\ applySWAP st n b (JInt n) = Ok st
        /\ applyCCX st n b c (JInt n) = Ok st
        /\ applyCSWAP st n b c (JInt n) = Ok st).
Proof.
  assert (H1 : forall q M, ~ in_range n q -> apply1 st n q M = Ok st).
  { intros q M H. unfold apply1. now rewrite valid1_in_range. }
  assert (H2 : forall a b, ~ well_targeted n [a; b] ->
        applyCX st n a b = Ok st /\ applyCY st n a b = Ok st
        /\ applyCZ st n a b = Ok st /\ applySWAP st n a b = Ok st).
  { intros a b H. apply valid2_well_targeted in H.
    unfold applyCX, applyCY, applyCZ, applySWAP. rewrite H. cbn [negb]. auto. }
  assert (H3 : forall a b c, ~ well_targeted n [a; b; c] ->
        applyCCX st n a b c = Ok st /\ applyCSWAP st n a b c = Ok st).
  { intros a b c H. apply valid3_well_targeted in H.
    unfold applyCCX, applyCSWAP. rewrite H. cbn [negb]. auto. }
  assert (Hn2 : forall b, ~ well_targeted n [b; JInt n]).
  { intros b [Hf _]. inversion Hf as [|? ? _ Hf']. inversion Hf' as [|? ? Hn _].
    now apply not_in_range_n in Hn. }
  assert (Hn3 : forall b c, ~ well_targeted n [b; c; JInt n]).
  { intros b c [Hf _]. inversion Hf as [|? ? _ Hf']. inversion Hf' as [|? ? _ Hf''].
    inversion Hf'' as [|? ? Hn _]. now apply not_in_range_n in Hn. }
  split; [exact H1|]. split; [exact H2|]. split; [exact H3|].
  intros M b c. split; [apply H1, not_in_range_n|].
  destruct (H2 b (JInt n) (Hn2 b)) as (? & ? & ? & ?).
  destruct (H3 b c (JInt n) (Hn3 b c)) as (? & ?).
  repeat split; assumption.
Qed.

Lemma C4_invalid_targets_noop_witness :
  ~ in_range 1 (JInt 1)
  /\ apply1 [C 1 0; C 0 0] 1 (JInt 1) Mx = Ok [C 1 0; C 0 0].
Proof.
  split; [apply not_in_range_n|].
  apply (proj1 (C4_invalid_targets_noop [C 1 0; C 0 0] 1)).
  apply not_in_range_n.
Defined.

(** ** C6: sampling from an all-zero probability vector *)

Lemma prefix_sums_zero (l : list R) :
  Forall (fun x => x = 0%R) l -> prefix_sums 0%R l = (l, 0%R).
Proof.
  induction 1 as [|x l Hx _ IH]; [reflexivity|].
  cbn [prefix_sums]. subst x. rewrite Rplus_0_l, IH. reflexivity.
Qed.

Lemma cdf_zero (l : list R) :
  Forall (fun x => x = 0%R) l -> cdfFromProbs l = l.
Proof.
  intros H. unfold cdfFromProbs. rewrite (prefix_sums_zero l H).
  destruct (Rlt_dec 0 0); [lra|reflexivity].
Qed.

Lemma cdf_lt_zero (l : list R) (mid : Z) (r : R) :
  Forall (fun x => x = 0%R) l ->
  cdf_lt l mid r = if Rlt_dec 0 r
                   then (0 <=? mid) && (mid <? Z.of_nat (List.length l))
                   else false.
Proof.
  intros H. unfold cdf_lt. destruct (aget l mid) as [c|] eqn:E.
  - pose proof (aget_Some_lt _ _ _ E) as Hm.
    assert (c = 0%R).
    { unfold aget in E. destruct (mid <? 0); [discriminate|].
      apply nth_error_In in E. rewrite Forall_forall in H. now apply H. }
    subst c. destruct (Rlt_dec 0 r); [|reflexivity].
    symmetry. apply andb_true_intro. split; [apply Z.leb_le|apply Z.ltb_lt]; lia.
  - destruct (Rlt_dec 0 r); [|reflexivity].
    destruct (Z.leb_spec 0 mid); [|reflexivity]. cbn [andb].
    destruct (Z.ltb_spec mid (Z.of_nat (List.length l))); [|reflexivity].
    destruct (aget_lt_Some l mid ltac:(lia)) as (x & Hx). congruence.
Qed.

Lemma shiftr1_bounds (lo hi : Z) :
  lo < hi -> lo <= Z.shiftr (lo + hi) 1 < hi.
Proof.
  intros H. rewrite Z.shiftr_div_pow2 by lia. change (2 ^ 1) with 2.
  pose proof (Z.div_mod (lo + hi) 2 ltac:(lia)).
  pose proof (Z.mod_pos_bound (lo + hi) 2 ltac:(lia)). lia.
Qed.

Lemma sampleLoop_zero_pos (l : list R) (r : R) (lo hi : Z) :
  Forall (fun x => x = 0%R) l -> (0 < r)%R ->
  0 <= lo -> hi < Z.of_nat (List.length l) ->
  sampleLoop l r lo hi = Z.max lo hi.
Proof.
  intros Hz Hr. funelim (sampleLoop l r lo hi); intros Hlo Hhi.
  - lia.
  - match goal with Hlt : lo < hi |- _ => pose proof (shiftr1_bounds lo hi Hlt) end.
    match goal with
    | IH : _ -> _ -> _ -> _ -> sampleLoop _ _ _ _ = Z.max _ _ |- _ =>
        rewrite IH by (assumption || lia)
    end.
    lia.
  - exfalso.
    match goal with Hlt : lo < hi |- _ => pose proof (shiftr1_bounds lo hi Hlt) end.
    match goal with
    | Hc : cdf_lt _ _ _ = false |- _ =>
        rewrite (cdf_lt_zero _ _ _ Hz) in Hc;
        destruct (Rlt_dec 0 r); [|lra];
        apply andb_false_iff in Hc; destruct Hc as [Hc|Hc];
        [apply Z.leb_gt in Hc|apply Z.ltb_ge in Hc]; lia
    end.
Qed.

Lemma sampleLoop_zero_nonpos (l : list R) (r : R) (lo hi : Z) :
  Forall (fun x => x = 0%R) l -> (r <= 0)%R ->
  sampleLoop l r lo hi = lo.
Proof.
  intros Hz Hr. funelim (sampleLoop l r lo hi).
  - reflexivity.
  - exfalso.
    match goal with
    | Hc : cdf_lt _ _ _ = true |- _ =>
        rewrite (cdf_lt_zero _ _ _ Hz) in Hc;
        destruct (Rlt_dec 0 r); [lra|discriminate]
    end.
  - match goal with
    | IH : _ -> _ -> sampleLoop _ _ _ _ = _ |- _ => apply IH; assumption
    end.
Qed.

(** C6 (as amended). When every probability is 0 the cumulative
    distribution is all-zero; a draw with r = 0 resolves to index 0, and a
    draw with any r > 0, so any r of (0,1), resolves to the last index of
    the vector (index 0 only for a vector of at most one entry). *)
Theorem C6_zero_probs_sampling (probs : list R) (r : R) :
  Forall (fun x => x = 0%R) probs ->
  cdfFromProbs probs = probs
  /\ ((r <= 0)%R -> sampleIdx (cdfFromProbs probs) r = 0)
  /\ ((0 < r)%R ->
      sampleIdx (cdfFromProbs probs) r
      = Z.max 0 (Z.of_nat (List.length probs) - 1)).
Proof.
  intros Hz. rewrite (cdf_zero probs Hz). split; [reflexivity|]. split.
  - intros Hr. unfold sampleIdx. now apply sampleLoop_zero_nonpos.
  - intros Hr. unfold sampleIdx.
    apply sampleLoop_zero_pos; try assumption; lia.
Qed.

Lemma C6_zero_probs_sampling_witness :
  Forall (fun x => x = 0%R) [0%R; 0%R]
  /\ cdfFromProbs [0%R; 0%R] = [0%R; 0%R]
  /\ sampleIdx (cdfFromProbs [0%R; 0%R]) (1 / 2) = 1.
Proof.
  assert (Hz : Forall (fun x => x = 0%R) [0%R; 0%R]) by (repeat constructor).
  split; [exact Hz|].
  destruct (C6_zero_probs_sampling [0%R; 0%R] (1 / 2) Hz) as (Hc & _ & Hs).
  split; [exact Hc|]. apply Hs. lra.
Defined.

(** C6 as stated fails: on the all-zero vector of two entries the draw
    r = 1/2 resolves to index 1, not to index 0. *)
Lemma C6_counterexample :
  ~ (forall (probs : list R) (r : R),
       Forall (fun x => x = 0%R) probs -> (0 <= r < 1)%R ->
       sampleIdx (cdfFromProbs probs) r = 0).
Proof.
  intros H.
  assert (Hz : Forall (fun x => x = 0%R) [0%R; 0%R]) by (repeat constructor).
  specialize (H [0%R; 0%R] (1 / 2)%R Hz ltac:(lra)).
  rewrite (cdf_zero _ Hz) in H. unfold sampleIdx in H.
  rewrite (sampleLoop_zero_pos _ _ _ _ Hz) in H by (cbn; lra || lia).
  discriminate.
Qed.

(** ** Sorting by tick is stable and commutes with filtering *)

Lemma insert_front (x : Op) (l : list Op) :
  Forall (le_tick x) l -> insert_op x l = x :: l.
Proof.
  destruct l as [|y l]; [reflexivity|]. intros H. inversion H as [|? ? Hy _].
  cbn [insert_op]. unfold le_tick in Hy.
  destruct (Z.ltb_spec (tickOf y) (tickOf x)); [lia|reflexivity].
Qed.

Lemma insert_Forall (P : Op -> Prop) (x : Op) (l : list Op) :
  P x -> Forall P l -> Forall P (insert_op x l).
Proof.
  intros Hx. induction 1 as [|y l Hy Hl IH]; cbn [insert_op].
  - repeat constructor. assumption.
  - destruct (tickOf y <? tickOf x); repeat constructor; assumption.
Qed.

Lemma insert_sorted (x : Op) (l : list Op) :
  StronglySorted le_tick l -> StronglySorted le_tick (insert_op x l).
Proof.
  induction 1 as [|y l Hs IH Hy]; cbn [insert_op].
  - repeat constructor.
  - destruct (Z.ltb_spec (tickOf y) (tickOf x)).
    + constructor; [assumption|]. apply insert_Forall; [|assumption].
      unfold le_tick. lia.
    + constructor; [constructor; assumption|].
      constructor; [unfold le_tick; lia|].
      eapply Forall_impl; [|exact Hy]. unfold le_tick. intros; lia.
Qed.

Lemma sort_sorted (l : list Op) : StronglySorted le_tick (sort_ops l).
Proof.
  induction l as [|x l IH]; cbn; [constructor|]. now apply insert_sorted.
Qed.

Lemma filter_insert (f : Op -> bool) (x : Op) (l : list Op) :
  StronglySorted le_tick l ->
  filter f (insert_op x l)
  = if f x then insert_op x (filter f l) else filter f l.
Proof.
  induction 1 as [|y l Hs IH Hy]; cbn [insert_op filter].
  - destruct (f x); reflexivity.
  - destruct (Z.ltb_spec (tickOf y) (tickOf x)) as [Hlt|Hge].
    + cbn [filter]. rewrite IH. destruct (f x), (f y); cbn [insert_op]; try reflexivity.
      destruct (Z.ltb_spec (tickOf y) (tickOf x)); [reflexivity|lia].
    + cbn [filter]. destruct (f x); [|reflexivity].
      symmetry. apply insert_front.
      assert (Hall : Forall (le_tick x) (y :: l)).
      { constructor; [unfold le_tick; lia|].
        eapply Forall_impl; [|exact Hy]. unfold le_tick. intros; lia. }
      rewrite Forall_forall in *. intros z Hz.
      apply Hall. change (In z (filter f (y :: l))) in Hz.
      apply filter_In in Hz. tauto.
Qed.

Lemma filter_sort (f : Op -> bool) (l : list Op) :
  filter f (sort_ops l) = sort_ops (filter f l).
Proof.
  induction l as [|x l IH]; [reflexivity|].
  cbn [sort_ops fold_right filter]. fold (sort_ops l).
  rewrite filter_insert by apply sort_sorted. rewrite IH.
  destruct (f x); reflexivity.
Qed.

Lemma length_insert_op (x : Op) (l : list Op) :
  List.length (insert_op x l) = Datatypes.S (List.length l).
Proof.
  induction l as [|y l IH]; cbn [insert_op]; [reflexivity|].
  destruct (tickOf y <? tickOf x); cbn [List.length]; [now rewrite IH|reflexivity].
Qed.

Lemma length_sort (l : list Op) : List.length (sort_ops l) = List.length l.
Proof.
  induction l as [|x l IH]; [reflexivity|].
  cbn [sort_ops fold_right]. fold (sort_ops l).
  rewrite length_insert_op. cbn [List.length]. now rewrite IH.
Qed.

Lemma existsb_insert (f : Op -> bool) (x : Op) (l : list Op) :
  existsb f (insert_op x l) = (f x || existsb f l)%bool.
Proof.
  induction l as [|y l IH]; cbn [insert_op existsb]; [reflexivity|].
  destruct (tickOf y <? tickOf x); cbn [existsb]; [|reflexivity].
  rewrite IH. destruct (f x), (f y); reflexivity.
Qed.

Lemma existsb_sort (f : Op -> bool) (l : list Op) :
  existsb f (sort_ops l) = existsb f l.
Proof.
  induction l as [|x l IH]; [reflexivity|].
  cbn [sort_ops fold_right existsb]. fold (sort_ops l).
  now rewrite existsb_insert, IH.
Qed.

(** ** Operations the evolution loop passes over *)

Lemma step_skip (n : Z) (o : Op) (s : state * bool) :
  known_gate o = false -> step n o s = Ok s.
Proof.
  unfold known_gate, step. destruct s as [psi ent].
  destruct (is_gate o); cbn [negb andb]; [|reflexivity].
  unfold supported. intros H.
  repeat (apply orb_false_elim in H; destruct H as [H ?]).
  cbv zeta.
  repeat match goal with
         | E : (_ =? _)%string = false |- _ => rewrite E; clear E
         end.
  reflexivity.
Qed.

Lemma evolve_filter (n : Z) (l : list Op) :
  forall s, evolve n l s = evolve n (filter known_gate l) s.
Proof.
  induction l as [|o l IH]; intros s; [reflexivity|].
  cbn [evolve filter]. destruct (known_gate o) eqn:E.
  - cbn [evolve]. destruct (step n o s); cbn [bind]; [apply IH|reflexivity].
  - rewrite step_skip by assumption. cbn [bind]. apply IH.
Qed.

(** ** The entangled-likely flag *)

Lemma step_flag (n : Z) (o : Op) (psi psi' : state) (ent ent' : bool) :
  step n o (psi, ent) = Ok (psi', ent') ->
  ent' = (ent || multi_gate o)%bool.
Proof.
  unfold step, multi_gate. destruct (is_gate o); cbn [negb andb].
  2: { intros [= <- <-]. now rewrite orb_false_r. }
  cbv zeta. set (r := refNorm (ref o)). clearbody r.
  unfold is_multi.
  repeat match goal with
         | |- context [(r =? ?s)%string] =>
             destruct (String.eqb_spec r s) as [->|];
             [cbn [String.eqb Ascii.eqb Bool.eqb orb];
              match goal with
              | |- context [bind ?k _] => destruct k
              end; cbn [bind]; intros [= <- <-];
              rewrite ?orb_false_r, ?orb_true_r; reflexivity|]
         end.
  cbn [orb]. intros [= <- <-]. now rewrite orb_false_r.
Qed.

Lemma evolve_flag (n : Z) (l : list Op) :
  forall psi ent psi' ent',
    evolve n l (psi, ent) = Ok (psi', ent') ->
    ent' = (ent || existsb multi_gate l)%bool.
Proof.
  induction l as [|o l IH]; intros psi ent psi' ent'; cbn [evolve existsb].
  - intros [= <- <-]. now rewrite orb_false_r.
  - destruct (step n o (psi, ent)) as [[p1 e1]|e] eqn:Es; cbn [bind];
      [|discriminate].
    intros He. apply IH in He. apply step_flag in Es. subst.
    now rewrite orb_assoc.
Qed.

Lemma simulate_inv (mathRandom : nat -> R) (ir : IR) (opts : Opts)
  (r : SimResult) :
  simulateCircuit mathRandom ir opts = Ok r ->
  exists psi ent psi' pp cnt,
    evolveCircuit ir = Ok (psi, ent)
    /\ postSelect (ops ir) (qubitsOf ir) psi = Ok (psi', pp)
    /\ r = mkResult (qubitsOf ir)
             (Z.of_nat (List.length (filter is_gate (sort_ops (ops ir)))))
             (map norm2 psi') psi' cnt ent pp.
Proof.
  intros H.
  destruct (evolveCircuit ir) as [[psi ent]|e] eqn:He.
  2: { unfold simulateCircuit in H. rewrite He in H. discriminate. }
  destruct (postSelect (ops ir) (qubitsOf ir) psi) as [[psi' pp]|e] eqn:Hp.
  2: { unfold simulateCircuit in H. rewrite He in H. cbn [bind] in H.
       rewrite Hp in H. discriminate. }
  destruct (simulate_ok mathRandom ir opts psi psi' ent pp He Hp) as (cnt & Hs).
  rewrite Hs in H. injection H as <-. exists psi, ent, psi', pp, cnt. auto.
Qed.

(** ** Post-selection, element by element *)

Lemma aget_app_mid {A : Type} (pre suf : list A) (a : A) :
  aget (pre ++ a :: suf) (Z.of_nat (List.length pre)) = Some a.
Proof.
  unfold aget. destruct (Z.ltb_spec (Z.of_nat (List.length pre)) 0); [lia|].
  rewrite Nat2Z.id. rewrite nth_error_app2 by lia.
  now rewrite Nat.sub_diag.
Qed.

Lemma upd_app_mid {A : Type} (pre suf : list A) (a v : A) :
  upd (List.length pre) v (pre ++ a :: suf) = pre ++ v :: suf.
Proof. induction pre as [|x pre IH]; cbn; [reflexivity|]. now rewrite IH. Qed.

Lemma wr_app_mid (pre suf : state) (a v : Cx) :
  wr (pre ++ a :: suf) (Z.of_nat (List.length pre)) v = Ok (pre ++ v :: suf).
Proof.
  rewrite wr_ok.
  - now rewrite Nat2Z.id, upd_app_mid.
  - rewrite length_app. cbn [List.length]. lia.
Qed.

Lemma app_cons_assoc {A : Type} (pre suf : list A) (a : A) :
  pre ++ a :: suf = (pre ++ [a]) ++ suf.
Proof. now rewrite <- app_assoc. Qed.

Section PostSelectLoops.

Variables (keepb : Z -> bool).

Let body1 : Z -> state * R -> result (state * R) :=
  fun i s =>
    let '(psi, keep) := s in
    if negb (keepb i) then psi <- wr psi i (C 0 0) ;; Ok (psi, keep)
    else a <- rd TypeError psi i ;; Ok (psi, (keep + norm2 a)%R).

Lemma postselect_loop1 (suf : state) :
  forall (pre : state) (keep : R),
    for_from (List.length suf) (Z.of_nat (List.length pre)) body1
      (pre ++ suf, keep)
    = Ok (pre ++ projectBy keepb (Z.of_nat (List.length pre)) suf,
          (keep + total (projectBy keepb (Z.of_nat (List.length pre)) suf))%R).
Proof.
  induction suf as [|a suf IH]; intros pre keep.
  - cbn. do 2 f_equal. lra.
  - cbn [List.length for_from projectBy]. unfold body1 at 1.
    replace (Z.of_nat (List.length pre) + 1)
      with (Z.of_nat (List.length (pre ++ [a]))) by (rewrite length_app; cbn; lia).
    destruct (keepb (Z.of_nat (List.length pre))); cbn [negb].
    + rewrite (rd_ok _ _ _ _ (aget_app_mid pre suf a)). cbn [bind].
      rewrite (app_cons_assoc pre suf a), IH.
      rewrite <- !app_cons_assoc. do 2 f_equal.
      unfold total. cbn [fold_right]. ring.
    + rewrite wr_app_mid. cbn [bind].
      replace (Z.of_nat (List.length (pre ++ [a])))
        with (Z.of_nat (List.length (pre ++ [C 0 0])))
        by (rewrite !length_app; reflexivity).
      rewrite (app_cons_assoc pre suf (C 0 0)), IH.
      rewrite <- !app_cons_assoc. do 2 f_equal.
      unfold total. cbn [fold_right]. unfold norm2 at 2. cbn [re im]. ring.
Qed.

Variable norm : R.

Let body2 : Z -> state -> result state :=
  fun i psi => a <- rd TypeError psi i ;; wr psi i (C (re a * norm) (im a * norm)).

Lemma postselect_loop2 (suf : state) :
  forall pre : state,
    for_from (List.length suf) (Z.of_nat (List.length pre)) body2 (pre ++ suf)
    = Ok (pre ++ map (fun a => C (re a * norm) (im a * norm)) suf).
Proof.
  induction suf as [|a suf IH]; intros pre.
  - reflexivity.
  - cbn [List.length for_from map]. unfold body2 at 1.
    rewrite (rd_ok _ _ _ _ (aget_app_mid pre suf a)). cbn [bind].
    rewrite wr_app_mid. cbn [bind].
    replace (Z.of_nat (List.length pre) + 1)
      with (Z.of_nat (List.length (pre ++ [C (re a * norm) (im a * norm)])))
      by (rewrite length_app; cbn; lia).
    rewrite (app_cons_assoc pre suf), IH. now rewrite <- app_cons_assoc.
Qed.

End PostSelectLoops.

Lemma postSelectByBit_eq (psi : state) (n : Z) (bit : jsnum) (e z : Z) :
  valid1 n bit = Some z ->
  let keepb := fun i => (if Z.land i (shl32 1 z) =? 0 then 0 else 1) =? e in
  let P := projectBy keepb 0 psi in
  postSelectByBit psi n bit e
  = Ok (if Rle_dec (total P) 0 then (P, Some 0%R)
        else (map (fun a => C (re a * (1 / sqrt (total P)))
                               (im a * (1 / sqrt (total P)))) P,
              Some (total P))).
Proof.
  intros Hv keepb P. unfold postSelectByBit. rewrite Hv.
  unfold for_loop. rewrite Nat2Z.id.
  match goal with
  | |- context [for_from ?k ?i ?b (psi, 0%R)] =>
      assert (H1 : for_from k i b (psi, 0%R) = Ok (P, (0 + total P)%R))
        by exact (postselect_loop1 keepb psi [] 0%R)
  end.
  rewrite H1. cbn [bind]. rewrite Rplus_0_l.
  destruct (Rle_dec (total P) 0); [reflexivity|].
  rewrite Nat2Z.id.
  match goal with
  | |- context [for_from ?k ?i ?b P] =>
      assert (H2 : for_from k i b P
                   = Ok (map (fun a => C (re a * (1 / sqrt (total P)))
                                        (im a * (1 / sqrt (total P)))) P))
        by exact (postselect_loop2 (1 / sqrt (total P)) P [])
  end.
  rewrite H2. reflexivity.
Qed.

Lemma postSelectByBit_total (psi : state) (n : Z) (bit : jsnum) (e : Z) :
  exists psi' pp, postSelectByBit psi n bit e = Ok (psi', pp).
Proof.
  destruct (valid1 n bit) as [z|] eqn:Hv.
  - rewrite (postSelectByBit_eq psi n bit e z Hv). cbv zeta.
    destruct (Rle_dec _ 0); eauto.
  - unfold postSelectByBit. rewrite Hv. eauto.
Qed.

Lemma postSelect_total (l : list Op) (n : Z) (psi : state) :
  exists psi' pp, postSelect l n psi = Ok (psi', pp).
Proof.
  unfold postSelect. destruct (find is_postselect l) as [o|]; [|eauto].
  destruct (targets o) as [[|t0 ?]|]; eauto.
  apply postSelectByBit_total.
Qed.

Lemma simulate_total (mathRandom : nat -> R) (ir : IR) (opts : Opts) :
  qubitsOf ir <= 30 ->
  exists r, simulateCircuit mathRandom ir opts = Ok r.
Proof.
  intros Hq. destruct (evolveCircuit_norm ir Hq) as (psi & ent & He & _).
  destruct (postSelect_total (ops ir) (qubitsOf ir) psi) as (psi' & pp & Hp).
  destruct (simulate_ok mathRandom ir opts psi psi' ent pp He Hp) as (cnt & Hs).
  eauto.
Qed.

(** C7. [simulateCircuit] returns for every circuit of at most 30 qubits,
    and whenever it returns, [entangledLikely] is true exactly when some
    operation of kind gate is dispatched to a 2- or 3-qubit kernel (CX, CY,
    CZ, SWAP, CCX/CCNOT, CSWAP, under any accepted spelling, with valid
    targets or not): it is false for circuits holding only single-qubit
    gates, unrecognized gates, other kinds of operations or nothing. *)
Theorem C7_entangled_flag (mathRandom : nat -> R) (ir : IR) (opts : Opts) :
  (qubitsOf ir <= 30 ->
   exists r, simulateCircuit mathRandom ir opts = Ok r)
  /\ (forall r, simulateCircuit mathRandom ir opts = Ok r ->
                entangledLikely r = existsb multi_gate (ops ir)).
Proof.
  split; [apply simulate_total|].
  intros r H. apply simulate_inv in H.
  destruct H as (psi & ent & psi' & pp & cnt & He & _ & ->).
  cbn [entangledLikely]. unfold evolveCircuit in He.
  destruct (init_state _) as [psi0|]; cbn [bind] in He; [|discriminate].
  apply evolve_flag in He. now rewrite existsb_sort in He.
Qed.

Lemma C7_entangled_flag_witness :
  2 <= 30
  /\ exists r, simulateCircuit (fun _ => 0%R) bell (mkOpts None None None) = Ok r
               /\ entangledLikely r = true.
Proof.
  split; [lia|].
  destruct (C7_entangled_flag (fun _ => 0%R) bell (mkOpts None None None))
    as [Ht Hf].
  destruct (Ht ltac:(cbn; lia)) as (r & Hr).
  exists r. split; [exact Hr|]. rewrite (Hf r Hr). reflexivity.
Defined.

(** ** C3: a seeded simulation does not depend on [Math.random] *)

Section Determinism.

Variables ext1 ext2 : nat -> R.

Lemma rand_seeded (a : Z) :
  rand ext1 (Seeded a) = rand ext2 (Seeded a)
  /\ exists a', snd (rand ext1 (Seeded a)) = Seeded a'.
Proof.
  cbn [rand]. destruct (mulberry32 a) as [r a']. split; [reflexivity|].
  exists a'. reflexivity.
Qed.

Lemma noiseLoop_seeded (nz : Noise) (arr : string) :
  forall a,
    noiseLoop ext1 arr nz (Seeded a) = noiseLoop ext2 arr nz (Seeded a)
    /\ exists a', snd (noiseLoop ext1 arr nz (Seeded a)) = Seeded a'.
Proof.
  induction arr as [|c rest IH]; intros a.
  - cbn [noiseLoop]. split; [reflexivity|]. exists a. reflexivity.
  - cbn [noiseLoop rand].
    destruct (mulberry32 a) as [r a1].
    repeat match goal with
           | |- context [if ?b then _ else _] => destruct b
           end;
      match goal with
      | |- context [noiseLoop ext1 rest nz (Seeded ?x)] =>
          destruct (IH x) as (He & a' & Hs); rewrite <- He;
          destruct (noiseLoop ext1 rest nz (Seeded x)) as [rest' g'];
          cbn [snd] in *; split; [reflexivity|]; exists a'; exact Hs
      end.
Qed.

Lemma shot_seeded (n : Z) (nz : option Noise) (cdf : list R)
  (cnt : counts_t) (a : Z) :
  shot ext1 n nz cdf (cnt, Seeded a) = shot ext2 n nz cdf (cnt, Seeded a)
  /\ exists a', snd (shot ext1 n nz cdf (cnt, Seeded a)) = Seeded a'.
Proof.
  unfold shot. cbn [rand]. destruct (mulberry32 a) as [r a1].
  destruct nz as [nz|].
  - unfold applyReadoutNoise. destruct (ntype nz =? "")%string.
    + split; [reflexivity|]. exists a1. reflexivity.
    + match goal with
      | |- context [noiseLoop ext1 ?b nz (Seeded a1)] =>
          destruct (noiseLoop_seeded nz b a1) as (He & a' & Hs);
          rewrite <- He;
          destruct (noiseLoop ext1 b nz (Seeded a1)) as [bits' g']
      end.
      cbn [snd] in *. split; [reflexivity|]. exists a'. exact Hs.
  - split; [reflexivity|]. exists a1. reflexivity.
Qed.

Lemma shots_seeded (n : Z) (nz : option Noise) (cdf : list R) (k : nat) :
  forall (i : Z) (cnt : counts_t) (a : Z),
    for_from k i (fun _ s => Ok (shot ext1 n nz cdf s)) (cnt, Seeded a)
    = for_from k i (fun _ s => Ok (shot ext2 n nz cdf s)) (cnt, Seeded a).
Proof.
  induction k as [|k IH]; intros i cnt a; [reflexivity|].
  cbn [for_from bind].
  destruct (shot_seeded n nz cdf cnt a) as (He & a' & Hs). rewrite <- He.
  destruct (shot ext1 n nz cdf (cnt, Seeded a)) as [cnt' g'].
  cbn [snd] in Hs. subst g'. apply IH.
Qed.

Lemma simulate_seeded (ir : IR) (opts : Opts) (s : Z) :
  seed opts = Some s ->
  simulateCircuit ext1 ir opts = simulateCircuit ext2 ir opts.
Proof.
  intros Hs. unfold simulateCircuit. rewrite Hs. cbn [mkRNG].
  destruct (evolveCircuit ir) as [[psi ent]|e]; cbn [bind]; [|reflexivity].
  destruct (postSelect _ _ _) as [[psi' pp]|e]; cbn [bind]; [|reflexivity].
  destruct (0 <? _); [|reflexivity].
  unfold for_loop. rewrite shots_seeded. reflexivity.
Qed.

End Determinism.

Lemma simulate_counts (mathRandom : nat -> R) (ir : IR) (opts : Opts)
  (r : SimResult) :
  simulateCircuit mathRandom ir opts = Ok r ->
  0 < toInt32 (Z.max 0 (match shots opts with Some s => s | None => 0 end)) ->
  exists cnt, counts r = Some cnt.
Proof.
  unfold simulateCircuit. intros H Hs.
  destruct (evolveCircuit ir) as [[psi ent]|]; cbn [bind] in H; [|discriminate].
  destruct (postSelect _ _ _) as [[psi' pp]|]; cbn [bind] in H; [|discriminate].
  destruct (Z.ltb_spec 0 (toInt32 (Z.max 0 (match shots opts with
                                             | Some s => s | None => 0 end))));
    [|lia].
  match type of H with
  | context [for_loop ?sz ?b ?s0] => destruct (for_loop sz b s0) as [x|]
  end; cbn [bind] in H; [|discriminate].
  injection H as <-. cbn [counts]. eauto.
Qed.

(** C3. For every circuit, shot count and noise option, when a finite
    integer seed is given the result of [simulateCircuit], and in it the
    counts mapping with its keys, their counts and their order, is the same
    whatever [Math.random] would return: two runs on the same inputs draw
    from the seeded mulberry32 generator alone and give identical counts.
    For a circuit of at most 30 qubits and a shot count s with
    0 < s < 2^31 the runs do return a counts mapping. *)
Theorem C3_seeded_determinism (ext1 ext2 : nat -> R) (ir : IR) (nshots : Z)
  (s : Z) (nz : option Noise) :
  simulateCircuit ext1 ir (mkOpts (Some nshots) (Some s) nz)
  = simulateCircuit ext2 ir (mkOpts (Some nshots) (Some s) nz)
  /\ rmap counts (simulateCircuit ext1 ir (mkOpts (Some nshots) (Some s) nz))
     = rmap counts (simulateCircuit ext2 ir (mkOpts (Some nshots) (Some s) nz))
  /\ (qubitsOf ir <= 30 ->
      0 < nshots < 2 ^ 31 ->
      exists r cnt,
        simulateCircuit ext1 ir (mkOpts (Some nshots) (Some s) nz) = Ok r
        /\ simulateCircuit ext2 ir (mkOpts (Some nshots) (Some s) nz) = Ok r
        /\ counts r = Some cnt).
Proof.
  assert (H : simulateCircuit ext1 ir (mkOpts (Some nshots) (Some s) nz)
              = simulateCircuit ext2 ir (mkOpts (Some nshots) (Some s) nz))
    by (apply (simulate_seeded ext1 ext2 ir _ s); reflexivity).
  split; [exact H|]. split; [now rewrite H|].
  intros Hq Hs.
  destruct (simulate_total ext1 ir (mkOpts (Some nshots) (Some s) nz) Hq)
    as (r & Hr).
  destruct (simulate_counts ext1 ir _ r Hr) as (cnt & Hc).
  { cbn [shots]. rewrite toInt32_small; lia. }
  exists r, cnt. rewrite <- H. auto.
Qed.

Lemma C3_seeded_determinism_witness :
  2 <= 30 /\ 0 < 100 < 2 ^ 31
  /\ exists r cnt,
       simulateCircuit (fun _ => 0%R) bell (mkOpts (Some 100) (Some 42) None) = Ok r
       /\ simulateCircuit (fun k => (1 / (INR k + 2))%R) bell
            (mkOpts (Some 100) (Some 42) None) = Ok r
       /\ counts r = Some cnt.
Proof.
  split; [lia|]. split; [lia|].
  apply (C3_seeded_determinism (fun _ => 0%R) (fun k => (1 / (INR k + 2))%R)
           bell 100 42 None); cbn; lia.
Defined.

(** ** What a simulation depends on in the operation list *)

Lemma filter_filter_sub {A : Type} (f g : A -> bool) (l : list A) :
  (forall x, f x = true -> g x = true) ->
  filter f (filter g l) = filter f l.
Proof.
  intros H. induction l as [|x l IH]; [reflexivity|].
  cbn [filter]. destruct (g x) eqn:Eg; cbn [filter].
  - now rewrite IH.
  - destruct (f x) eqn:Ef; [|exact IH]. apply H in Ef. congruence.
Qed.

Lemma known_is_gate (o : Op) : known_gate o = true -> is_gate o = true.
Proof. unfold known_gate. intros H. apply andb_prop in H. tauto. Qed.

Lemma gate_not_postselect (o : Op) : is_gate o = true -> is_postselect o = false.
Proof.
  unfold is_gate, is_postselect. intros H. apply String.eqb_eq in H.
  rewrite H. reflexivity.
Qed.

Lemma gate_count (l : list Op) :
  List.length (filter is_gate (sort_ops l)) = List.length (filter is_gate l).
Proof. now rewrite filter_sort, length_sort. Qed.

Lemma evolveCircuit_known (q : option Z) (l1 l2 : list Op) :
  filter known_gate l1 = filter known_gate l2 ->
  evolveCircuit (mkIR q l1) = evolveCircuit (mkIR q l2).
Proof.
  intros H. unfold evolveCircuit. cbn [ops]. unfold qubitsOf. cbn [qubits].
  destruct (init_state _) as [psi|]; cbn [bind]; [|reflexivity].
  rewrite (evolve_filter _ (sort_ops l1)), (evolve_filter _ (sort_ops l2)).
  now rewrite !filter_sort, H.
Qed.

Lemma simulate_congr (mathRandom : nat -> R) (q : option Z) (l1 l2 : list Op)
  (opts : Opts) :
  filter known_gate l1 = filter known_gate l2 ->
  find is_postselect l1 = find is_postselect l2 ->
  simulateCircuit mathRandom (mkIR q l1) opts
  = rmap (with_ops (Z.of_nat (List.length (filter is_gate l1))))
         (simulateCircuit mathRandom (mkIR q l2) opts).
Proof.
  intros Hk Hf. unfold simulateCircuit.
  rewrite (evolveCircuit_known q l1 l2 Hk). cbn [ops]. rewrite !gate_count.
  unfold qubitsOf. cbn [qubits]. unfold postSelect. rewrite Hf. unfold rmap.
  destruct (evolveCircuit _) as [[psi ent]|]; cbn [bind]; [|reflexivity].
  match goal with
  | |- context [bind ?k _] => destruct k as [[psi' pp]|]; cbn [bind]; [|reflexivity]
  end.
  destruct (0 <? _); cbn [bind]; [|reflexivity].
  match goal with
  | |- context [bind ?k _] => destruct k as [x|]; cbn [bind]; reflexivity
  end.
Qed.

Lemma with_ops_same (r : SimResult) : with_ops (r_ops r) r = r.
Proof. destruct r. reflexivity. Qed.

Lemma rmap_with_ops_id (m : result SimResult) (k : Z) :
  (forall r, m = Ok r -> r_ops r = k) -> rmap (with_ops k) m = m.
Proof.
  intros H. destruct m as [r|e]; [|reflexivity].
  cbn. rewrite <- (H r eq_refl). now rewrite with_ops_same.
Qed.

Lemma simulate_ops (mathRandom : nat -> R) (ir : IR) (opts : Opts)
  (r : SimResult) :
  simulateCircuit mathRandom ir opts = Ok r ->
  r_ops r = Z.of_nat (List.length (filter is_gate (ops ir))).
Proof.
  intros H. apply simulate_inv in H.
  destruct H as (psi & ent & psi' & pp & cnt & _ & _ & ->).
  cbn [r_ops]. now rewrite gate_count.
Qed.

Lemma find_app_first {A : Type} (f : A -> bool) (pre post : list A) (x : A) :
  Forall (fun o => f o = false) pre -> f x = true ->
  find f (pre ++ x :: post) = Some x.
Proof.
  intros Hpre Hx. induction Hpre as [|y pre Hy _ IH]; cbn [app find].
  - now rewrite Hx.
  - now rewrite Hy.
Qed.



(** ** C9: the post-selection note honored is the first in list order *)

Lemma evolve_x_notes (l : list Op) :
  filter known_gate l = [opX] ->
  evolveCircuit (mkIR (Some 1) l) = Ok ([C 0 0; C 1 0], false).
Proof.
  intros H. rewrite (evolveCircuit_known (Some 1) l [opX]) by (rewrite H; reflexivity).
  eval_reals. do 2 f_equal. list_reals.
Qed.

Lemma postselect_expect1 :
  postSelectByBit [C 0 0; C 1 0] 1 (JInt 0) 1 = Ok ([C 0 0; C 1 0], Some 1%R).
Proof.
  rewrite (postSelectByBit_eq _ 1 (JInt 0) 1 0 eq_refl). eval_reals.
  destruct (Rle_dec _ _) as [Hle|_]; [lra|].
  replace (0 * 0 + 0 * 0 + (1 * 1 + 0 * 0 + 0))%R with 1%R by lra.
  rewrite sqrt_1. do 2 f_equal. list_reals; lra.
Qed.

Lemma postselect_expect0 :
  postSelectByBit [C 0 0; C 1 0] 1 (JInt 0) 0 = Ok ([C 0 0; C 0 0], Some 0%R).
Proof.
  rewrite (postSelectByBit_eq _ 1 (JInt 0) 0 0 eq_refl). eval_reals.
  destruct (Rle_dec _ _) as [_|Hn]; [reflexivity|]. exfalso. apply Hn. lra.
Qed.

Lemma postselect_by_position (mathRandom : nat -> R) (opts : Opts) :
  (exists r, simulateCircuit mathRandom (mkIR (Some 1) [opX; note1; note0]) opts = Ok r
             /\ postSelectProb r = Some 1%R)
  /\ (exists r, simulateCircuit mathRandom (mkIR (Some 1) [opX; note0; note1]) opts = Ok r
                /\ postSelectProb r = Some 0%R).
Proof.
  split.
  - destruct (simulate_ok mathRandom (mkIR (Some 1) [opX; note1; note0]) opts
                [C 0 0; C 1 0] [C 0 0; C 1 0] false (Some 1%R)
                (evolve_x_notes [opX; note1; note0] eq_refl) postselect_expect1)
      as (cnt & ->).
    eauto.
  - destruct (simulate_ok mathRandom (mkIR (Some 1) [opX; note0; note1]) opts
                [C 0 0; C 1 0] [C 0 0; C 0 0] false (Some 0%R)
                (evolve_x_notes [opX; note0; note1] eq_refl) postselect_expect0)
      as (cnt & ->).
    eauto.
Qed.

(** C9. When the operation list holds a postselect note [p] with no
    postselect note listed before it, post-selection is the one [p] asks
    for, and the whole result is the one of the list with every later
    postselect note removed, whatever the ticks of the notes: the first
    note in input order is honored, not the first by tick. So on one qubit
    after X, the note expecting 1 (tick 5) listed before the note expecting
    0 (tick 1) retains probability 1, and the other order retains 0. *)
Theorem C9_first_listed_postselect (mathRandom : nat -> R) (q : option Z)
  (pre post : list Op) (p : Op) (opts : Opts) :
  (Forall (fun o => is_postselect o = false) pre ->
   is_postselect p = true ->
   (forall n psi,
       postSelect (pre ++ p :: post) n psi
       = match targets p with
         | Some (t0 :: _) => postSelectByBit psi n t0 (expectOf p)
         | _ => Ok (psi, None)
         end)
   /\ simulateCircuit mathRandom (mkIR q (pre ++ p :: post)) opts
      = simulateCircuit mathRandom
          (mkIR q (pre ++ p :: filter (fun o => negb (is_postselect o)) post))
          opts)
  /\ (exists r,
        simulateCircuit mathRandom (mkIR (Some 1) [opX; note1; note0]) opts = Ok r
        /\ postSelectProb r = Some 1%R)
  /\ (exists r,
        simulateCircuit mathRandom (mkIR (Some 1) [opX; note0; note1]) opts = Ok r
        /\ postSelectProb r = Some 0%R).
Proof.
  split; [|apply postselect_by_position].
  intros Hpre Hp. split.
  - intros n psi. unfold postSelect. now rewrite (find_app_first _ _ _ _ Hpre Hp).
  - set (post' := filter (fun o => negb (is_postselect o)) post).
    assert (Hsub : forall f, (forall o, f o = true -> is_gate o = true) ->
                     filter f (pre ++ p :: post) = filter f (pre ++ p :: post')).
    { intros f Hf. rewrite !filter_app. cbn [filter]. unfold post'.
      rewrite filter_filter_sub; [reflexivity|].
      intros o Ho. apply Hf, gate_not_postselect in Ho. now rewrite Ho. }
    rewrite (simulate_congr mathRandom q _ (pre ++ p :: post')).
    + apply rmap_with_ops_id. intros r Hr. apply simulate_ops in Hr.
      cbn [ops] in Hr. rewrite Hr. now rewrite (Hsub is_gate).
    + apply Hsub, known_is_gate.
    + now rewrite !(find_app_first _ _ _ _ Hpre Hp).
Qed.

Lemma C9_first_listed_postselect_witness :
  Forall (fun o => is_postselect o = false) [opX]
  /\ is_postselect note1 = true
  /\ simulateCircuit (fun _ => 0%R) (mkIR (Some 1) [opX; note1; note0])
       (mkOpts None None None)
     = simulateCircuit (fun _ => 0%R) (mkIR (Some 1) [opX; note1])
         (mkOpts None None None).
Proof.
  assert (Hpre : Forall (fun o => is_postselect o = false) [opX])
    by (repeat constructor).
  split; [exact Hpre|]. split; [reflexivity|].
  exact (proj2 (proj1 (C9_first_listed_postselect (fun _ => 0%R) (Some 1) [opX]
                         [note0] note1 (mkOpts None None None)) Hpre eq_refl)).
Defined.

(** ** C10: an unknown gate changes nothing but the operation count *)



(** ** C5: post-selection on a value of zero probability mass *)

Lemma projectBy_ext (f g : Z -> bool) (l : state) :
  (forall i, f i = g i) -> forall i, projectBy f i l = projectBy g i l.
Proof.
  intros H. induction l as [|a l IH]; intros i; cbn [projectBy]; [reflexivity|].
  now rewrite H, IH.
Qed.

Lemma keep_test_bitval (i z e : Z) :
  0 <= z <= 30 ->
  ((if Z.land i (shl32 1 z) =? 0 then 0 else 1) =? e) = (bitval i z =? e).
Proof.
  intros Hz. rewrite shl32_small, land_pow2_eqb by lia. unfold bitval.
  now destruct (Z.testbit i z).
Qed.

Lemma norm2_zero (a : Cx) : norm2 a = 0%R -> a = C 0 0.
Proof.
  destruct a as [x y]. unfold norm2. cbn [re im]. intros H.
  assert (x = 0%R) by nra. assert (y = 0%R) by nra. now subst.
Qed.

Lemma total_zero_all (l : state) :
  total l = 0%R -> Forall (fun a => a = C 0 0) l.
Proof.
  induction l as [|a l IH]; intros H; [constructor|].
  unfold total in H. cbn [fold_right] in H. fold (total l) in H.
  pose proof (norm2_nonneg a). pose proof (total_nonneg l).
  constructor; [apply norm2_zero; lra|apply IH; lra].
Qed.

Lemma postSelect_zero_mass (l : list Op) (n : Z) (psi : state) (note : Op)
  (z : Z) (rest : list jsnum) :
  find is_postselect l = Some note ->
  targets note = Some (JInt z :: rest) ->
  0 <= z < n -> z <= 30 ->
  mass psi z (expectOf note) = 0%R ->
  exists psi', postSelect l n psi = Ok (psi', Some 0%R)
               /\ Forall (fun a => a = C 0 0) psi'.
Proof.
  intros Hf Ht Hz Hz30 Hm. unfold postSelect. rewrite Hf, Ht.
  assert (Hv : valid1 n (JInt z) = Some z).
  { cbn. destruct (Z.ltb_spec z 0); [lia|]. cbn.
    destruct (Z.geb_spec z n); [lia|reflexivity]. }
  rewrite (postSelectByBit_eq psi n (JInt z) (expectOf note) z Hv). cbv zeta.
  rewrite (projectBy_ext _ (fun i => bitval i z =? expectOf note))
    by (intros i; apply keep_test_bitval; lia).
  fold (mass psi z (expectOf note)). rewrite Hm.
  destruct (Rle_dec 0 0); [|lra].
  eexists. split; [reflexivity|]. now apply total_zero_all.
Qed.

(** C5 (as amended). In exact arithmetic: on a circuit of at most 30
    qubits whose first postselect note in list order, the one that is
    honored, targets an in-range qubit, the evolution returns a state, and
    when the basis states whose bit has the expected value carry zero
    probability mass in that state, [simulateCircuit] returns
    [postSelectProb = 0] and an amplitude vector (and a probability vector)
    that is zero everywhere: nothing is renormalised. In double precision
    the branch is also taken on a mass that underflows to 0, see
    [postselect_underflow_in_doubles]. *)
Theorem C5_postselect_zero_mass (mathRandom : nat -> R) (ir : IR) (opts : Opts)
  (note : Op) (z : Z) (rest : list jsnum) :
  qubitsOf ir <= 30 ->
  find is_postselect (ops ir) = Some note ->
  targets note = Some (JInt z :: rest) ->
  0 <= z < qubitsOf ir ->
  exists psi ent,
    evolveCircuit ir = Ok (psi, ent)
    /\ (mass psi z (expectOf note) = 0%R ->
        exists r, simulateCircuit mathRandom ir opts = Ok r
                  /\ postSelectProb r = Some 0%R
                  /\ Forall (fun a => a = C 0 0) (amps r)
                  /\ Forall (fun x => x = 0%R) (probs r)).
Proof.
  intros Hq Hf Ht Hz.
  destruct (evolveCircuit_norm ir Hq) as (psi & ent & He & _).
  exists psi, ent. split; [exact He|]. intros Hm.
  pose proof (qubitsOf_bounds ir Hq) as Hn.
  destruct (postSelect_zero_mass (ops ir) (qubitsOf ir) psi note z rest
              Hf Ht Hz ltac:(lia) Hm) as (psi' & Hp & Hall).
  destruct (simulate_ok mathRandom ir opts psi psi' ent (Some 0%R) He Hp)
    as (cnt & Hs).
  eexists. split; [exact Hs|]. cbn [postSelectProb amps probs].
  split; [reflexivity|]. split; [exact Hall|].
  clear - Hall. induction Hall as [|a l Ha _ IH]; cbn [map]; constructor.
  - subst a. unfold norm2. cbn [re im]. lra.
  - exact IH.
Qed.

Lemma evolve_x_note0 :
  evolveCircuit (mkIR (Some 1) [opX; note0]) = Ok ([C 0 0; C 1 0], false).
Proof. eval_reals. do 2 f_equal. list_reals. Qed.

Lemma C5_postselect_zero_mass_witness :
  1 <= 30
  /\ find is_postselect [opX; note0] = Some note0
  /\ targets note0 = Some [JInt 0]
  /\ 0 <= 0 < 1
  /\ mass [C 0 0; C 1 0] 0 (expectOf note0) = 0%R
  /\ exists r,
       simulateCircuit (fun _ => 0%R) (mkIR (Some 1) [opX; note0])
         (mkOpts None None None) = Ok r
       /\ postSelectProb r = Some 0%R
       /\ Forall (fun a => a = C 0 0) (amps r).
Proof.
  assert (Hm : mass [C 0 0; C 1 0] 0 (expectOf note0) = 0%R).
  { unfold mass. eval_reals. lra. }
  split; [lia|]. split; [reflexivity|]. split; [reflexivity|].
  split; [lia|]. split; [exact Hm|].
  destruct (C5_postselect_zero_mass (fun _ => 0%R) (mkIR (Some 1) [opX; note0])
              (mkOpts None None None) note0 0 [] ltac:(cbn; lia) eq_refl eq_refl
              ltac:(cbn; lia)) as (psi & ent & He & Hr).
  rewrite evolve_x_note0 in He. injection He as <- <-.
  destruct (Hr Hm) as (r & Hs & Hp & Ha & _).
  exists r. auto.
Defined.

(** C5 as stated, for any postselect note of the list, fails: after X on
    one qubit the list [opX; note1; note0] holds the note expecting 0, whose
    value has zero mass in the evolved state, but the note honored is the
    first one, expecting 1: the retained probability is 1 and the amplitude
    of basis state 1 is kept. *)
Lemma C5_counterexample :
  ~ (forall (mathRandom : nat -> R) (ir : IR) (opts : Opts) (psi : state)
            (ent : bool) (note : Op) (z : Z) (rest : list jsnum),
        evolveCircuit ir = Ok (psi, ent) ->
        In note (ops ir) -> is_postselect note = true ->
        targets note = Some (JInt z :: rest) ->
        0 <= z < qubitsOf ir ->
        mass psi z (expectOf note) = 0%R ->
        exists r, simulateCircuit mathRandom ir opts = Ok r
                  /\ postSelectProb r = Some 0%R
                  /\ Forall (fun a => a = C 0 0) (amps r)).
Proof.
  intros H.
  destruct (H (fun _ => 0%R) (mkIR (Some 1) [opX; note1; note0])
              (mkOpts None None None) [C 0 0; C 1 0] false note0 0 [])
    as (r & Hr & Hp & _).
  - apply evolve_x_notes. reflexivity.
  - cbn. tauto.
  - reflexivity.
  - reflexivity.
  - cbn. lia.
  - unfold mass. eval_reals. lra.
  - destruct (proj1 (postselect_by_position (fun _ => 0%R) (mkOpts None None None)))
      as (r' & Hr' & Hp').
    rewrite Hr in Hr'. injection Hr' as <-. rewrite Hp in Hp'.
    injection Hp' as Hp'. lra.
Qed.

(** The bound on the register matters too: with 33 declared qubits the
    state has two amplitudes and [1 << 32] is 1, so a note on qubit 32
    tests bit 0 of the index. After X on qubit 0 the value 1 of bit 32 has
    zero mass, and yet the retained probability is 1. *)
Example postselect_33_qubits (mathRandom : nat -> R) (opts : Opts) :
  let note := mkOp "note" "postselect" (Some [JInt 32]) None (Some 1) (Some 0) in
  evolveCircuit (mkIR (Some 33) [opX; note]) = Ok ([C 0 0; C 1 0], false)
  /\ mass [C 0 0; C 1 0] 32 1 = 0%R
  /\ exists r, simulateCircuit mathRandom (mkIR (Some 33) [opX; note]) opts = Ok r
               /\ postSelectProb r = Some 1%R.
Proof.
  intros note.
  assert (He : evolveCircuit (mkIR (Some 33) [opX; note])
               = Ok ([C 0 0; C 1 0], false)).
  { eval_reals. do 2 f_equal. list_reals. }
  assert (Hp : postSelect [opX; note] 33 [C 0 0; C 1 0]
               = Ok ([C 0 0; C 1 0], Some 1%R)).
  { change (postSelect [opX; note] 33 [C 0 0; C 1 0])
      with (postSelectByBit [C 0 0; C 1 0] 33 (JInt 32) 1).
    rewrite (postSelectByBit_eq _ 33 (JInt 32) 1 32 eq_refl). eval_reals.
    destruct (Rle_dec _ _) as [Hle|_]; [lra|].
    replace (0 * 0 + 0 * 0 + (1 * 1 + 0 * 0 + 0))%R with 1%R by lra.
    rewrite sqrt_1. do 2 f_equal. list_reals; lra. }
  split; [exact He|]. split.
  - unfold mass. eval_reals. lra.
  - destruct (simulate_ok mathRandom (mkIR (Some 33) [opX; note]) opts
                [C 0 0; C 1 0] [C 0 0; C 1 0] false (Some 1%R) He Hp)
      as (cnt & ->).
    eauto.
Qed.

(** ** C8: spellings of a gate reference *)

Lemma upper_lower_pair (c1 c2 : ascii) :
  case_pair c1 c2 -> upper_ascii c1 = c1 /\ upper_ascii c2 = c1.
Proof.
  intros [H1 H2]. unfold upper_ascii. rewrite H2. split.
  - destruct (Nat.leb_spec 97 (nat_of_ascii c1)); [lia|]. reflexivity.
  - destruct (Nat.leb_spec 97 (nat_of_ascii c1 + 32)); [|lia].
    destruct (Nat.leb_spec (nat_of_ascii c1 + 32) 122); [|lia]. cbn [andb].
    replace (nat_of_ascii c1 + 32 - 32)%nat with (nat_of_ascii c1) by lia.
    apply ascii_nat_embedding.
Qed.

Lemma upper_same_letter (c1 c2 : ascii) :
  same_letter c1 c2 -> upper_ascii c1 = upper_ascii c2.
Proof.
  intros [ -> | [H|H]]; [reflexivity| |];
    apply upper_lower_pair in H; destruct H as [Ha Hb]; congruence.
Qed.

Lemma toUpperCase_variant (s1 s2 : string) :
  case_variant s1 s2 -> toUpperCase s1 = toUpperCase s2.
Proof.
  induction 1 as [|c1 c2 s1 s2 Hc _ IH]; [reflexivity|].
  cbn [toUpperCase]. now rewrite (upper_same_letter _ _ Hc), IH.
Qed.

Lemma upper_inv (c x : ascii) :
  In x ["g"; "a"; "t"; "e"; "."]%char ->
  upper_ascii c = upper_ascii x -> same_letter c x.
Proof.
  intros Hx H.
  assert (Hc : c = x \/ c = upper_ascii x).
  { cbn [In] in Hx.
    destruct Hx as [ <- | [ <- | [ <- | [ <- | [ <- | [] ] ] ] ] ];
      destruct c as [[] [] [] [] [] [] [] []]; vm_compute in H;
      try discriminate H; vm_compute; auto. }
  destruct Hc as [ -> | -> ]; [left; reflexivity|].
  cbn [In] in Hx.
  destruct Hx as [ <- | [ <- | [ <- | [ <- | [ <- | [] ] ] ] ] ];
    try (right; left; split; vm_compute; [split|]; lia).
  left. reflexivity.
Qed.

Lemma bare_no_prefix (r : string) :
  bare r -> String.prefix "GATE." (toUpperCase r) = false.
Proof.
  intros Hb. destruct (String.prefix "GATE." (toUpperCase r)) eqn:E; [|reflexivity].
  exfalso.
  destruct r as [|c1 [|c2 [|c3 [|c4 [|c5 s]]]]]; cbn in E;
    repeat match type of E with
           | (if ?d then _ else _) = true => destruct d; [|discriminate E]
           | false = true => discriminate E
           end.
  apply (Hb (String c1 (String c2 (String c3 (String c4 (String c5 "")))))%string s
            eq_refl).
  repeat (constructor; [apply upper_inv; [cbn; tauto|symmetry; assumption]|]).
  constructor.
Qed.

Lemma refNorm_ns (r : string) :
  bare r -> refNorm ("gate." ++ r) = refNorm r.
Proof.
  intros Hb. unfold refNorm at 2. rewrite (bare_no_prefix r Hb).
  unfold refNorm. cbn [append toUpperCase].
  change (upper_ascii "g") with "G"%char. change (upper_ascii "a") with "A"%char.
  change (upper_ascii "t") with "T"%char. change (upper_ascii "e") with "E"%char.
  change (upper_ascii ".") with "."%char.
  cbn. now destruct (toUpperCase r).
Qed.

Lemma refNorm_same_gate (r1 r2 : string) :
  same_gate r1 r2 -> refNorm r1 = refNorm r2.
Proof.
  induction 1 as [r1 r2 H|r H|r1 r2 _ IH|r1 r2 r3 _ IH1 _ IH2].
  - unfold refNorm. now rewrite (toUpperCase_variant _ _ H).
  - symmetry. now apply refNorm_ns.
  - congruence.
  - congruence.
Qed.

Lemma step_variant (n : Z) (o1 o2 : Op) (s : state * bool) :
  op_variant o1 o2 -> step n o1 s = step n o2 s.
Proof.
  intros [->|(Hg & r & Hr & ->)]; [reflexivity|].
  apply refNorm_same_gate in Hr. unfold step. destruct s as [psi ent].
  change (is_gate (with_ref o1 r)) with (is_gate o1).
  change (ref (with_ref o1 r)) with r.
  change (tget (with_ref o1 r)) with (tget o1).
  change (thetaOf (with_ref o1 r)) with (thetaOf o1).
  now rewrite Hr.
Qed.

Lemma variant_tick (o1 o2 : Op) : op_variant o1 o2 -> tickOf o1 = tickOf o2.
Proof. intros [->|(_ & r & _ & ->)]; reflexivity. Qed.

Lemma variant_is_gate (o1 o2 : Op) : op_variant o1 o2 -> is_gate o1 = is_gate o2.
Proof. intros [->|(_ & r & _ & ->)]; reflexivity. Qed.

Lemma insert_variant (x y : Op) (l1 l2 : list Op) :
  op_variant x y -> Forall2 op_variant l1 l2 ->
  Forall2 op_variant (insert_op x l1) (insert_op y l2).
Proof.
  intros Hxy. induction 1 as [|a b l1 l2 Hab Hl IH]; cbn [insert_op].
  - constructor; [assumption|constructor].
  - rewrite <- (variant_tick _ _ Hxy), <- (variant_tick _ _ Hab).
    destruct (tickOf a <? tickOf x).
    + constructor; assumption.
    + constructor; [assumption|]. constructor; assumption.
Qed.

Lemma sort_variant (l1 l2 : list Op) :
  Forall2 op_variant l1 l2 -> Forall2 op_variant (sort_ops l1) (sort_ops l2).
Proof.
  induction 1 as [|a b l1 l2 Hab _ IH]; cbn; [constructor|].
  now apply insert_variant.
Qed.

Lemma evolve_variant (n : Z) (l1 l2 : list Op) :
  Forall2 op_variant l1 l2 -> forall s, evolve n l1 s = evolve n l2 s.
Proof.
  induction 1 as [|a b l1 l2 Hab _ IH]; intros s; [reflexivity|].
  cbn [evolve]. rewrite (step_variant n a b s Hab).
  destruct (step n b s); cbn [bind]; [apply IH|reflexivity].
Qed.

Lemma find_postselect_variant (l1 l2 : list Op) :
  Forall2 op_variant l1 l2 -> find is_postselect l1 = find is_postselect l2.
Proof.
  induction 1 as [|a b l1 l2 Hab _ IH]; [reflexivity|]. cbn [find].
  destruct Hab as [->|(Hg & r & _ & ->)].
  - now rewrite IH.
  - rewrite (gate_not_postselect a Hg).
    rewrite (gate_not_postselect (with_ref a r) Hg). exact IH.
Qed.

Lemma gate_filter_variant (l1 l2 : list Op) :
  Forall2 op_variant l1 l2 ->
  List.length (filter is_gate l1) = List.length (filter is_gate l2).
Proof.
  induction 1 as [|a b l1 l2 Hab _ IH]; [reflexivity|]. cbn [filter].
  rewrite <- (variant_is_gate _ _ Hab).
  destruct (is_gate a); cbn [List.length]; now rewrite IH.
Qed.

(** C8. Two circuits whose operation lists differ only in the spelling of
    the reference of gate operations (any mix of letter case, a bare name
    or its form with the "gate." prefix) give identical results, for every
    option: such spellings have the same normalised reference, so "X", "x",
    "gate.x" and "GATE.X" select the same kernel. *)
Theorem C8_reference_spelling (mathRandom : nat -> R) (q : option Z)
  (l1 l2 : list Op) (opts : Opts) :
  Forall2 op_variant l1 l2 ->
  simulateCircuit mathRandom (mkIR q l1) opts
  = simulateCircuit mathRandom (mkIR q l2) opts
  /\ (forall r1 r2, same_gate r1 r2 -> refNorm r1 = refNorm r2)
  /\ refNorm "X" = "X"%string /\ refNorm "x" = "X"%string
  /\ refNorm "gate.x" = "X"%string /\ refNorm "GATE.X" = "X"%string.
Proof.
  intros H. split; [|split; [apply refNorm_same_gate|repeat split]].
  unfold simulateCircuit, evolveCircuit, postSelect. cbn [ops].
  unfold qubitsOf. cbn [qubits].
  rewrite (find_postselect_variant _ _ H), !gate_count,
    (gate_filter_variant _ _ H).
  destruct (init_state _) as [psi0|]; cbn [bind]; [|reflexivity].
  now rewrite (evolve_variant _ _ _ (sort_variant _ _ H)).
Qed.

Lemma bare_x : bare "x".
Proof.
  intros pre s Hp Hcv.
  repeat match goal with
         | H : case_variant _ _ |- _ => inversion H; subst; clear H
         end.
  cbn in Hp. discriminate Hp.
Qed.

Ltac same_letter_tac :=
  first [ left; reflexivity
        | right; left; split; [vm_compute; lia|reflexivity]
        | right; right; split; [vm_compute; lia|reflexivity] ].

Lemma same_gate_X_ns : same_gate "X" "GATE.X".
Proof.
  apply sg_trans with "x"%string.
  - apply sg_case. constructor; [same_letter_tac|constructor].
  - apply sg_trans with "gate.x"%string.
    + apply (sg_ns "x" bare_x).
    + apply sg_case. repeat (constructor; [same_letter_tac|]). constructor.
Qed.

Lemma C8_reference_spelling_witness :
  Forall2 op_variant [opX; opCX] [with_ref opX "GATE.X"; opCX]
  /\ simulateCircuit (fun _ => 0%R) (mkIR (Some 2) [opX; opCX])
       (mkOpts (Some 10) (Some 7) None)
     = simulateCircuit (fun _ => 0%R)
         (mkIR (Some 2) [with_ref opX "GATE.X"; opCX])
         (mkOpts (Some 10) (Some 7) None).
Proof.
  assert (H : Forall2 op_variant [opX; opCX] [with_ref opX "GATE.X"; opCX]).
  { constructor; [|constructor; [left; reflexivity|constructor]].
    right. split; [reflexivity|]. exists "GATE.X"%string.
    split; [exact same_gate_X_ns|reflexivity]. }
  split; [exact H|].
  exact (proj1 (C8_reference_spelling (fun _ => 0%R) (Some 2) _ _
                  (mkOpts (Some 10) (Some 7) None) H)).
Defined.

(** * Further properties of the simulator *)

(** ** What a pair loop computes

    The loop of [pair_loop_norm], amplitude by amplitude: a selected index
    and its partner get the two new amplitudes, every other index keeps
    its amplitude. *)
Section PairSpec.

Variables (st : state) (size : Z) (sel : Z -> bool) (partner : Z -> Z).
Variables (f0 f1 : Cx -> Cx -> Cx) (body : Z -> state -> result state).

Hypothesis Hsize : size = Z.of_nat (List.length st).
Hypothesis Hsel : forall i out a0 a1,
  sel i = true -> aget st i = Some a0 -> aget st (partner i) = Some a1 ->
  body i out = (o1 <- wr out i (f0 a0 a1) ;; wr o1 (partner i) (f1 a0 a1)).
Hypothesis Hnsel : forall i out, sel i = false -> body i out = Ok out.
Hypothesis Hrange : forall i,
  0 <= i < size -> sel i = true -> i < partner i < size.
Hypothesis Hinj : forall i i',
  0 <= i < size -> 0 <= i' < size -> sel i = true -> sel i' = true ->
  partner i = partner i' -> i = i'.
Hypothesis Hpart : forall i,
  0 <= i < size -> sel i = true -> sel (partner i) = false.

Let done (m : Z) (out : state) : Prop :=
  forall i a0 a1, 0 <= i < m -> sel i = true ->
    aget st i = Some a0 -> aget st (partner i) = Some a1 ->
    aget out i = Some (f0 a0 a1) /\ aget out (partner i) = Some (f1 a0 a1).

Let kept (m : Z) (out : state) : Prop :=
  forall k, m <= k \/ sel k = false ->
    (forall i, 0 <= i < m -> sel i = true -> partner i <> k) ->
    aget out k = aget st k.

Lemma pair_loop_spec :
  exists out, for_loop size body st = Ok out
    /\ List.length out = List.length st
    /\ (forall i a0 a1, 0 <= i < size -> sel i = true ->
          aget st i = Some a0 -> aget st (partner i) = Some a1 ->
          aget out i = Some (f0 a0 a1) /\ aget out (partner i) = Some (f1 a0 a1))
    /\ (forall k, sel k = false ->
          (forall i, 0 <= i < size -> sel i = true -> partner i <> k) ->
          aget out k = aget st k).
Proof.
  destruct (for_loop_inv
    (fun m out => 0 <= m <= size /\ List.length out = List.length st
                  /\ done m out /\ kept m out) body size st)
    as (out & Hl & _ & Hlen & Hd & Hk).
  - lia.
  - split; [lia|]. split; [reflexivity|]. split.
    + intros i a0 a1 Hi. lia.
    + intros k _ _. reflexivity.
  - intros j out Hj (_ & Hlen & Hd & Hk).
    destruct (sel j) eqn:Ej.
    + pose proof (Hrange j Hj Ej) as Hpj.
      destruct (aget_lt_Some st j ltac:(lia)) as (a0 & Ha0).
      destruct (aget_lt_Some st (partner j) ltac:(lia)) as (a1 & Ha1).
      rewrite (Hsel j out a0 a1 Ej Ha0 Ha1).
      rewrite (wr_ok out j) by lia. cbn [bind].
      rewrite wr_ok by (rewrite length_upd; lia).
      eexists. split; [reflexivity|]. split; [lia|]. split; [|split].
      * now rewrite !length_upd.
      * intros i b0 b1 Hi Ei Hb0 Hb1.
        destruct (Z.eq_dec i j) as [->|Hne].
        -- rewrite Ha0 in Hb0. rewrite Ha1 in Hb1.
           injection Hb0 as <-. injection Hb1 as <-. split.
           ++ rewrite aget_upd_ne by lia.
              unfold aget. destruct (Z.ltb_spec j 0); [lia|].
              apply nth_error_upd_eq. lia.
           ++ unfold aget. destruct (Z.ltb_spec (partner j) 0); [lia|].
              apply nth_error_upd_eq. rewrite length_upd. lia.
        -- pose proof (Hrange i ltac:(lia) Ei) as Hpi.
           destruct (Hd i b0 b1 ltac:(lia) Ei Hb0 Hb1) as [H0 H1].
           assert (i <> partner j).
           { intros ->. rewrite (Hpart j Hj Ej) in Ei. discriminate. }
           assert (partner i <> j).
           { intros E. pose proof (Hpart i ltac:(lia) Ei) as Hc.
             rewrite E in Hc. congruence. }
           assert (partner i <> partner j).
           { intros E. apply Hne. apply Hinj; try assumption; lia. }
           rewrite !aget_upd_ne by lia. auto.
      * intros k Hk' Hno.
        assert (k <> partner j)
          by (intros ->; apply (Hno j); [lia|assumption|reflexivity]).
        assert (k <> j) by (destruct Hk' as [?|E]; [lia|congruence]).
        rewrite !aget_upd_ne by lia.
        apply Hk; [destruct Hk'; [left; lia|right; assumption]|].
        intros i Hi. apply Hno. lia.
    + rewrite (Hnsel j out Ej). exists out. split; [reflexivity|].
      split; [lia|]. split; [assumption|]. split.
      * intros i a0 a1 Hi Ei. destruct (Z.eq_dec i j) as [->|Hne]; [congruence|].
        apply Hd; [lia|assumption].
      * intros k Hk' Hno. apply Hk.
        -- destruct Hk' as [?|E]; [|right; assumption].
           destruct (Z.eq_dec k j) as [->|?]; [right; assumption|left; lia].
        -- intros i Hi. apply Hno. lia.
  - exists out. split; [exact Hl|]. split; [exact Hlen|]. split.
    + exact Hd.
    + intros k Ek Hno. apply Hk; [right; assumption|exact Hno].
Qed.

End PairSpec.

Lemma clear_bit (k t : Z) :
  0 <= t -> 0 <= k -> Z.testbit k t = true ->
  0 <= k - 2 ^ t /\ Z.testbit (k - 2 ^ t) t = false
  /\ Z.lor (k - 2 ^ t) (2 ^ t) = k.
Proof.
  intros Ht Hk Hb.
  set (i := Z.ldiff k (2 ^ t)).
  assert (Hi0 : 0 <= i) by (apply Z.ldiff_nonneg; left; assumption).
  assert (Hib : Z.testbit i t = false).
  { unfold i. rewrite Z.ldiff_spec, Z.pow2_bits_true by lia.
    apply andb_false_r. }
  assert (Hl : Z.lor i (2 ^ t) = k).
  { apply Z.bits_inj'. intros b Hb0. unfold i.
    rewrite Z.lor_spec, Z.ldiff_spec. destruct (Z.eq_dec b t) as [->|Hne].
    - rewrite Hb, Z.pow2_bits_true by lia. reflexivity.
    - rewrite Z.pow2_bits_false by lia. cbn [negb].
      now rewrite andb_true_r, orb_false_r. }
  rewrite setbit_add in Hl by assumption.
  replace (k - 2 ^ t) with i by lia.
  rewrite setbit_add by assumption. auto.
Qed.

Lemma testbit_lor_other (i t b : Z) :
  0 <= t -> 0 <= b -> b <> t ->
  Z.testbit (Z.lor i (2 ^ t)) b = Z.testbit i b.
Proof.
  intros Ht Hb Hne. rewrite testbit_setbit by lia.
  destruct (Z.eqb_spec b t); [lia|apply orb_false_r].
Qed.

Section KernelSpecs.

Variables (st : state) (n : Z).
Hypothesis Hn : 0 <= n <= 30.
Hypothesis Hlen : Z.of_nat (List.length st) = 2 ^ n.

Lemma aget_in (k : Z) : 0 <= k < 2 ^ n -> exists a, aget st k = Some a.
Proof. intros H. apply aget_lt_Some. lia. Qed.

Lemma setbit_loop_spec (ctl : Z -> bool) (t : Z) (f0 f1 : Cx -> Cx -> Cx)
  (body : Z -> state -> result state) :
  0 <= t < n ->
  (forall i out a0 a1,
      (ctl i && (Z.land i (2 ^ t) =? 0))%bool = true ->
      aget st i = Some a0 -> aget st (Z.lor i (2 ^ t)) = Some a1 ->
      body i out = (o1 <- wr out i (f0 a0 a1) ;; wr o1 (Z.lor i (2 ^ t)) (f1 a0 a1))) ->
  (forall i out, (ctl i && (Z.land i (2 ^ t) =? 0))%bool = false ->
                 body i out = Ok out) ->
  (forall i, 0 <= i -> ctl (Z.lor i (2 ^ t)) = ctl i) ->
  exists out, for_loop (2 ^ n) body st = Ok out
    /\ List.length out = List.length st
    /\ forall k, 0 <= k < 2 ^ n ->
         aget out k
         = if ctl k
           then if Z.testbit k t
                then on_pair f1 (aget st (k - 2 ^ t)) (aget st k)
                else on_pair f0 (aget st k) (aget st (k + 2 ^ t))
           else aget st k.
Proof.
  intros Ht Hsel Hnsel Hctl.
  assert (Hpos : 0 < 2 ^ t) by (apply Z.pow_pos_nonneg; lia).
  destruct (pair_loop_spec st (2 ^ n)
              (fun i => (ctl i && (Z.land i (2 ^ t) =? 0))%bool)
              (fun i => Z.lor i (2 ^ t)) f0 f1 body)
    as (out & Hl & Hlo & Hd & Hk); try assumption.
  - lia.
  - intros i Hi Es. apply andb_prop in Es. destruct Es as [_ Es].
    rewrite land_pow2_eqb in Es by lia. apply negb_true_iff in Es.
    pose proof (setbit_range i t n ltac:(lia) Hi).
    rewrite setbit_add in * by (assumption || lia). lia.
  - intros i i' Hi Hi' Es Es' Heq.
    apply andb_prop in Es, Es'. destruct Es as [_ Es], Es' as [_ Es'].
    rewrite land_pow2_eqb in Es, Es' by lia.
    apply negb_true_iff in Es, Es'.
    rewrite !setbit_add in Heq by (assumption || lia). lia.
  - intros i Hi Es. rewrite land_pow2_eqb by lia.
    rewrite testbit_setbit by lia.
    rewrite Z.eqb_refl, orb_true_r. apply andb_false_r.
  - exists out. split; [exact Hl|]. split; [exact Hlo|].
    intros k Hk0. destruct (ctl k) eqn:Ec.
    + destruct (Z.testbit k t) eqn:Eb.
      * destruct (clear_bit k t ltac:(lia) ltac:(lia) Eb) as (Hi0 & Hib & Hil).
        set (i := k - 2 ^ t) in *.
        assert (Hir : 0 <= i < 2 ^ n) by (unfold i; lia).
        destruct (aget_in i Hir) as (a0 & Ha0).
        destruct (aget_in k Hk0) as (a1 & Ha1).
        rewrite Ha0, Ha1. cbn [on_pair].
        assert (Es : (ctl i && (Z.land i (2 ^ t) =? 0))%bool = true).
        { rewrite land_pow2_eqb, Hib by lia.
          rewrite <- (Hctl i Hi0), Hil, Ec. reflexivity. }
        destruct (Hd i a0 a1 Hir Es Ha0 ltac:(rewrite Hil; exact Ha1)) as [_ H1].
        now rewrite Hil in H1.
      * assert (Es : (ctl k && (Z.land k (2 ^ t) =? 0))%bool = true)
          by (rewrite land_pow2_eqb, Eb, Ec by lia; reflexivity).
        pose proof (setbit_range k t n ltac:(lia) Hk0) as Hr.
        rewrite setbit_add in Hr by (assumption || lia).
        destruct (aget_in k Hk0) as (a0 & Ha0).
        destruct (aget_in (k + 2 ^ t) Hr) as (a1 & Ha1).
        rewrite Ha0, Ha1. cbn [on_pair].
        destruct (Hd k a0 a1 Hk0 Es Ha0) as [H0 _]; [|exact H0].
        now rewrite setbit_add by (assumption || lia).
    + apply Hk; [now rewrite Ec|].
      intros i Hi Es Heq. apply andb_prop in Es. destruct Es as [Eci _].
      rewrite <- Heq, Hctl in Ec by lia. congruence.
Qed.

Lemma xor_loop_spec (ctl : Z -> bool) (a b : Z)
  (body : Z -> state -> result state) :
  0 <= a < n -> 0 <= b < n ->
  let m := Z.lor (2 ^ a) (2 ^ b) in
  (forall i out a0 a1,
      (ctl i && (i <? Z.lxor i m))%bool = true ->
      aget st i = Some a0 -> aget st (Z.lxor i m) = Some a1 ->
      body i out = (o1 <- wr out i a1 ;; wr o1 (Z.lxor i m) a0)) ->
  (forall i out, (ctl i && (i <? Z.lxor i m))%bool = false ->
                 body i out = Ok out) ->
  (forall i, ctl (Z.lxor i m) = ctl i) ->
  exists out, for_loop (2 ^ n) body st = Ok out
    /\ List.length out = List.length st
    /\ forall k, 0 <= k < 2 ^ n ->
         aget out k = if ctl k then aget st (Z.lxor k m) else aget st k.
Proof.
  intros Ha Hb m Hsel Hnsel Hctl.
  assert (Hm : m <> 0).
  { unfold m. intros E. apply Z.lor_eq_0_iff in E. destruct E as [E _].
    assert (0 < 2 ^ a) by (apply Z.pow_pos_nonneg; lia). lia. }
  destruct (pair_loop_spec st (2 ^ n)
              (fun i => (ctl i && (i <? Z.lxor i m))%bool)
              (fun i => Z.lxor i m) (fun _ a1 => a1) (fun a0 _ => a0) body)
    as (out & Hl & Hlo & Hd & Hk); try assumption.
  - lia.
  - intros i Hi Es. apply andb_prop in Es. destruct Es as [_ Es].
    apply Z.ltb_lt in Es.
    pose proof (lxor_range i a b n Ha Hb Hi) as Hr. fold m in Hr. lia.
  - intros i i' _ _ _ _ Heq. now apply lxor_cancel in Heq.
  - intros i Hi Es. apply andb_prop in Es. destruct Es as [_ Es].
    apply Z.ltb_lt in Es. rewrite lxor_twice.
    replace (Z.lxor i m <? i) with false by (symmetry; apply Z.ltb_ge; lia).
    apply andb_false_r.
  - exists out. split; [exact Hl|]. split; [exact Hlo|].
    intros k Hk0. destruct (ctl k) eqn:Ec.
    + pose proof (lxor_range k a b n Ha Hb Hk0) as Hr. fold m in Hr.
      destruct (aget_in k Hk0) as (ak & Hak).
      destruct (aget_in (Z.lxor k m) Hr) as (aj & Haj).
      assert (Hne : Z.lxor k m <> k).
      { intros E. apply Hm. apply (lxor_cancel m 0 k).
        rewrite Z.lxor_0_l, Z.lxor_comm. exact E. }
      destruct (Z_lt_le_dec k (Z.lxor k m)) as [Hlt|Hge].
      * assert (Es : (ctl k && (k <? Z.lxor k m))%bool = true).
        { rewrite Ec. apply Z.ltb_lt in Hlt. now rewrite Hlt. }
        destruct (Hd k ak aj Hk0 Es Hak Haj) as [H0 _]. congruence.
      * assert (Es : (ctl (Z.lxor k m)
                      && (Z.lxor k m <? Z.lxor (Z.lxor k m) m))%bool = true).
        { rewrite Hctl, Ec, lxor_twice. cbn [andb]. apply Z.ltb_lt. lia. }
        destruct (Hd (Z.lxor k m) aj ak Hr Es Haj
                    ltac:(rewrite lxor_twice; exact Hak)) as [_ H1].
        rewrite lxor_twice in H1. congruence.
    + apply Hk; [now rewrite Ec|].
      intros i Hi Es Heq. apply andb_prop in Es. destruct Es as [Eci _].
      rewrite <- Heq, Hctl in Ec. congruence.
Qed.

End KernelSpecs.

Ltac reads H0 H1 :=
  repeat (first [rewrite (rd_ok _ _ _ _ H0) | rewrite (rd_ok _ _ _ _ H1)];
          cbn [bind]);
  reflexivity.

Lemma lxor_pow2 (k t : Z) :
  0 <= t -> 0 <= k ->
  Z.lxor k (2 ^ t) = if Z.testbit k t then k - 2 ^ t else k + 2 ^ t.
Proof.
  intros Ht Hk. destruct (Z.testbit k t) eqn:Eb.
  - destruct (clear_bit k t Ht Hk Eb) as (Hi0 & Hib & Hil).
    rewrite <- Hil at 1. rewrite <- Z.lxor_lor.
    + apply lxor_twice.
    + apply Z.eqb_eq. rewrite land_pow2_eqb, Hib by lia. reflexivity.
  - rewrite <- setbit_add by assumption. apply Z.lxor_lor.
    apply Z.eqb_eq. rewrite land_pow2_eqb, Eb by lia. reflexivity.
Qed.

Lemma ctl_bit (i c : Z) :
  0 <= c -> negb (Z.land i (2 ^ c) =? 0) = Z.testbit i c.
Proof. intros Hc. rewrite land_pow2_eqb by lia. apply negb_involutive. Qed.

Lemma on_pair_fst (x y : option Cx) (b : Cx) :
  y = Some b -> on_pair (fun a0 _ => a0) x y = x.
Proof. intros ->. now destruct x. Qed.

Lemma on_pair_snd (x y : option Cx) (a : Cx) :
  x = Some a -> on_pair (fun _ a1 => a1) x y = y.
Proof. intros ->. now destruct y. Qed.

Section KernelForms.

Variables (st : state) (n : Z).
Hypothesis Hn : 0 <= n <= 30.
Hypothesis Hlen : Z.of_nat (List.length st) = 2 ^ n.

Lemma apply1_spec (z : Z) (M : Mat2) :
  0 <= z < n ->
  exists out, apply1 st n (JInt z) M = Ok out
    /\ List.length out = List.length st
    /\ forall k, 0 <= k < 2 ^ n -> aget out k = apply1_at M z st k.
Proof.
  intros Hz. unfold apply1.
  assert (Hv : valid1 n (JInt z) = Some z).
  { cbn. destruct (Z.ltb_spec z 0); [lia|]. cbn.
    destruct (Z.geb_spec z n); [lia|reflexivity]. }
  rewrite Hv, (shl32_small n), (shl32_small z) by lia.
  destruct (setbit_loop_spec st n Hn Hlen (fun _ => true) z (row0 M) (row1 M)
              (fun i out =>
                 if Z.land i (2 ^ z) =? 0 then
                   let j := Z.lor i (2 ^ z) in
                   a0 <- rd TypeError st i ;;
                   a1 <- rd TypeError st j ;;
                   let a0p := cadd (cmul (m00 M) a0) (cmul (m01 M) a1) in
                   let a1p := cadd (cmul (m10 M) a0) (cmul (m11 M) a1) in
                   out <- wr out i a0p ;; wr out j a1p
                 else Ok out) Hz) as (out & Hl & Hlo & Hk).
  - intros i out a0 a1 Es H0 H1. cbn [andb] in Es. rewrite Es. reads H0 H1.
  - intros i out Es. cbn [andb] in Es. now rewrite Es.
  - reflexivity.
  - exists out. split; [exact Hl|]. split; [exact Hlo|]. exact Hk.
Qed.

Lemma ctl_loop_src (ctl : Z -> bool) (t : Z) (out : state) :
  0 <= t < n ->
  (forall k, 0 <= k < 2 ^ n ->
     aget out k
     = if ctl k
       then if Z.testbit k t
            then on_pair (fun a0 _ => a0) (aget st (k - 2 ^ t)) (aget st k)
            else on_pair (fun _ a1 => a1) (aget st k) (aget st (k + 2 ^ t))
       else aget st k) ->
  forall k, 0 <= k < 2 ^ n ->
    aget out k = aget st (if ctl k then Z.lxor k (2 ^ t) else k).
Proof.
  intros Ht H k Hk. rewrite (H k Hk). destruct (ctl k); [|reflexivity].
  rewrite lxor_pow2 by lia. destruct (aget_in st n Hn Hlen k Hk) as (a & Ha).
  destruct (Z.testbit k t).
  - now apply on_pair_fst with a.
  - now apply on_pair_snd with a.
Qed.

Lemma applyCX_spec (c t : Z) :
  0 <= c < n -> 0 <= t < n -> c <> t ->
  exists out, applyCX st n (JInt c) (JInt t) = Ok out
    /\ List.length out = List.length st
    /\ forall k, 0 <= k < 2 ^ n -> aget out k = aget st (cx_src c t k).
Proof.
  intros Hc Ht Hne. unfold applyCX.
  assert (Hv : valid2 n (JInt c) (JInt t) = true).
  { cbn. repeat (apply andb_true_intro; split); try (apply Z.leb_le; lia);
      try (apply Z.ltb_lt; lia). apply negb_true_iff, Z.eqb_neq. exact Hne. }
  rewrite Hv. cbn [negb jsint].
  rewrite (shl32_small n), (shl32_small c), (shl32_small t) by lia.
  destruct (setbit_loop_spec st n Hn Hlen
              (fun i => negb (Z.land i (2 ^ c) =? 0)) t
              (fun _ a1 => a1) (fun a0 _ => a0)
              (fun i out =>
                 if negb (Z.land i (2 ^ c) =? 0) && (Z.land i (2 ^ t) =? 0) then
                   let j := Z.lor i (2 ^ t) in
                   v <- rd OutOfBounds st j ;; out <- wr out i v ;;
                   w <- rd OutOfBounds st i ;; wr out j w
                 else Ok out) Ht) as (out & Hl & Hlo & Hk).
  - intros i out a0 a1 Es H0 H1. rewrite Es. reads H0 H1.
  - intros i out Es. now rewrite Es.
  - intros i Hi. rewrite !ctl_bit by lia. apply testbit_lor_other; lia.
  - exists out. split; [exact Hl|]. split; [exact Hlo|].
    intros k Hk0. unfold cx_src. rewrite <- (ctl_bit k c) by lia.
    now apply (ctl_loop_src (fun i => negb (Z.land i (2 ^ c) =? 0)) t out Ht Hk).
Qed.

Lemma applyCCX_spec (c1 c2 t : Z) :
  0 <= c1 < n -> 0 <= c2 < n -> 0 <= t < n ->
  c1 <> c2 -> c1 <> t -> c2 <> t ->
  exists out, applyCCX st n (JInt c1) (JInt c2) (JInt t) = Ok out
    /\ List.length out = List.length st
    /\ forall k, 0 <= k < 2 ^ n -> aget out k = aget st (ccx_src c1 c2 t k).
Proof.
  intros H1 H2 Ht N12 N1 N2. unfold applyCCX.
  assert (Hv : valid3 n (JInt c1) (JInt c2) (JInt t) = true).
  { cbn. repeat (apply andb_true_intro; split); try (apply Z.leb_le; lia);
      try (apply Z.ltb_lt; lia); apply negb_true_iff, Z.eqb_neq; assumption. }
  rewrite Hv. cbn [negb jsint].
  rewrite (shl32_small n), (shl32_small c1), (shl32_small c2), (shl32_small t) by lia.
  destruct (setbit_loop_spec st n Hn Hlen
              (fun i => (negb (Z.land i (2 ^ c1) =? 0)
                         && negb (Z.land i (2 ^ c2) =? 0))%bool) t
              (fun _ a1 => a1) (fun a0 _ => a0)
              (fun i out =>
                 if negb (Z.land i (2 ^ c1) =? 0) && negb (Z.land i (2 ^ c2) =? 0)
                    && (Z.land i (2 ^ t) =? 0) then
                   let j := Z.lor i (2 ^ t) in
                   v <- rd OutOfBounds st j ;; out <- wr out i v ;;
                   w <- rd OutOfBounds st i ;; wr out j w
                 else Ok out) Ht) as (out & Hl & Hlo & Hk).
  - intros i out a0 a1 Es H0 H1'. rewrite Es. reads H0 H1'.
  - intros i out Es. now rewrite Es.
  - intros i Hi. rewrite !ctl_bit by lia.
    rewrite !testbit_lor_other by lia. reflexivity.
  - exists out. split; [exact Hl|]. split; [exact Hlo|].
    intros k Hk0. unfold ccx_src.
    rewrite <- (ctl_bit k c1), <- (ctl_bit k c2) by lia.
    now apply (ctl_loop_src
                 (fun i => (negb (Z.land i (2 ^ c1) =? 0)
                            && negb (Z.land i (2 ^ c2) =? 0))%bool) t out Ht Hk).
Qed.

Lemma applyCY_spec (c t : Z) :
  0 <= c < n -> 0 <= t < n -> c <> t ->
  exists out, applyCY st n (JInt c) (JInt t) = Ok out
    /\ List.length out = List.length st
    /\ forall k, 0 <= k < 2 ^ n ->
         aget out k = if Z.testbit k c then apply1_at My t st k else aget st k.
Proof.
  intros Hc Ht Hne. unfold applyCY.
  assert (Hv : valid2 n (JInt c) (JInt t) = true).
  { cbn. repeat (apply andb_true_intro; split); try (apply Z.leb_le; lia);
      try (apply Z.ltb_lt; lia). apply negb_true_iff, Z.eqb_neq. exact Hne. }
  rewrite Hv. cbn [negb jsint].
  rewrite (shl32_small n), (shl32_small c), (shl32_small t) by lia.
  destruct (setbit_loop_spec st n Hn Hlen
              (fun i => negb (Z.land i (2 ^ c) =? 0)) t (row0 My) (row1 My)
              (fun i out =>
                 if negb (Z.land i (2 ^ c) =? 0) && (Z.land i (2 ^ t) =? 0) then
                   let j := Z.lor i (2 ^ t) in
                   a0 <- rd TypeError st i ;;
                   a1 <- rd TypeError st j ;;
                   out <- wr out i (cadd (cmul (m00 My) a0) (cmul (m01 My) a1)) ;;
                   wr out j (cadd (cmul (m10 My) a0) (cmul (m11 My) a1))
                 else Ok out) Ht) as (out & Hl & Hlo & Hk).
  - intros i out a0 a1 Es H0 H1. rewrite Es. reads H0 H1.
  - intros i out Es. now rewrite Es.
  - intros i Hi. rewrite !ctl_bit by lia. apply testbit_lor_other; lia.
  - exists out. split; [exact Hl|]. split; [exact Hlo|].
    intros k Hk0. rewrite (Hk k Hk0), ctl_bit by lia. reflexivity.
Qed.

End KernelForms.

Lemma land_pow2_val (k c : Z) :
  0 <= c -> Z.land k (2 ^ c) = if Z.testbit k c then 2 ^ c else 0.
Proof.
  intros Hc. destruct (Z.testbit k c) eqn:E.
  - apply Z.bits_inj'. intros b Hb. rewrite Z.land_spec.
    destruct (Z.eq_dec b c) as [->|Hne].
    + now rewrite E, Z.pow2_bits_true by lia.
    + rewrite Z.pow2_bits_false by lia. apply andb_false_r.
  - apply Z.eqb_eq. rewrite land_pow2_eqb, E by lia. reflexivity.
Qed.

Lemma both_bits (k c t : Z) :
  0 <= c -> 0 <= t -> c <> t ->
  (Z.land k (Z.lor (2 ^ c) (2 ^ t)) =? Z.lor (2 ^ c) (2 ^ t))
  = (Z.testbit k c && Z.testbit k t)%bool.
Proof.
  intros Hc Ht Hne.
  rewrite Z.land_lor_distr_r, !land_pow2_val by lia.
  assert (Bc : Z.testbit (Z.lor (2 ^ c) (2 ^ t)) c = true)
    by (rewrite Z.lor_spec, Z.pow2_bits_true by lia; reflexivity).
  assert (Bt : Z.testbit (Z.lor (2 ^ c) (2 ^ t)) t = true)
    by (rewrite Z.lor_spec, (Z.pow2_bits_true t) by lia; apply orb_true_r).
  destruct (Z.testbit k c), (Z.testbit k t); cbn [andb].
  - apply Z.eqb_refl.
  - apply Z.eqb_neq. intros E. rewrite <- E, Z.lor_0_r in Bt.
    rewrite Z.pow2_bits_false in Bt by lia. discriminate.
  - apply Z.eqb_neq. intros E. rewrite <- E, Z.lor_0_l in Bc.
    rewrite Z.pow2_bits_false in Bc by lia. discriminate.
  - apply Z.eqb_neq. intros E. rewrite <- E in Bc. cbn in Bc.
    rewrite Z.bits_0 in Bc. discriminate.
Qed.

Lemma testbit_lxor_mask (i a b c : Z) :
  0 <= a -> 0 <= b -> 0 <= c ->
  Z.testbit (Z.lxor i (Z.lor (2 ^ a) (2 ^ b))) c
  = xorb (Z.testbit i c) ((c =? a) || (c =? b)).
Proof.
  intros Ha Hb Hc. rewrite Z.lxor_spec, Z.lor_spec. f_equal. f_equal.
  - destruct (Z.eqb_spec c a) as [->|?];
      [apply Z.pow2_bits_true|apply Z.pow2_bits_false]; lia.
  - destruct (Z.eqb_spec c b) as [->|?];
      [apply Z.pow2_bits_true|apply Z.pow2_bits_false]; lia.
Qed.

Lemma swap_src_comm (a b k : Z) : swap_src a b k = swap_src b a k.
Proof. unfold swap_src. now rewrite xorb_comm, Z.lor_comm. Qed.

Section KernelForms2.

Variables (st : state) (n : Z).
Hypothesis Hn : 0 <= n <= 30.
Hypothesis Hlen : Z.of_nat (List.length st) = 2 ^ n.

Lemma swap_loop_spec (a b : Z) :
  0 <= a < n -> 0 <= b < n -> a <> b ->
  exists out,
    for_loop (shl32 1 n) (fun i out =>
      let ia := negb (Z.land i (shl32 1 a) =? 0) in
      let ib := negb (Z.land i (shl32 1 b) =? 0) in
      if negb (Bool.eqb ia ib) then
        let j := Z.lxor i (Z.lor (shl32 1 a) (shl32 1 b)) in
        if i <? j then
          v <- rd OutOfBounds st j ;; out <- wr out i v ;;
          w <- rd OutOfBounds st i ;; wr out j w
        else Ok out
      else Ok out) st = Ok out
    /\ List.length out = List.length st
    /\ forall k, 0 <= k < 2 ^ n -> aget out k = aget st (swap_src a b k).
Proof.
  intros Ha Hb Hne.
  rewrite (shl32_small n), (shl32_small a), (shl32_small b) by lia.
  match goal with
  | |- exists out, for_loop _ ?body _ = _ /\ _ =>
      destruct (xor_loop_spec st n Hn Hlen
                  (fun i => negb (Bool.eqb (negb (Z.land i (2 ^ a) =? 0))
                                           (negb (Z.land i (2 ^ b) =? 0))))
                  a b body Ha Hb) as (out & Hl & Hlo & Hk)
  end.
  - intros i out a0 a1 Es H0 H1. cbv zeta. apply andb_prop in Es.
    destruct Es as [E1 E2]. rewrite E1, E2. reads H0 H1.
  - intros i out Es. cbv zeta. apply andb_false_iff in Es.
    destruct Es as [E|E]; rewrite E; [reflexivity|].
    now destruct (negb _).
  - intros i. rewrite !ctl_bit by lia.
    rewrite !testbit_lxor_mask by lia.
    rewrite !Z.eqb_refl. destruct (Z.eqb_spec a b); [lia|].
    destruct (Z.eqb_spec b a); [lia|]. cbn [orb].
    now destruct (Z.testbit i a), (Z.testbit i b).
  - exists out. split; [exact Hl|]. split; [exact Hlo|].
    intros k Hk0. rewrite (Hk k Hk0). unfold swap_src.
    rewrite !ctl_bit by lia.
    now destruct (Z.testbit k a), (Z.testbit k b).
Qed.

Lemma applySWAP_spec (q0 q1 : Z) :
  0 <= q0 < n -> 0 <= q1 < n -> q0 <> q1 ->
  exists out, applySWAP st n (JInt q0) (JInt q1) = Ok out
    /\ List.length out = List.length st
    /\ forall k, 0 <= k < 2 ^ n -> aget out k = aget st (swap_src q0 q1 k).
Proof.
  intros H0 H1 Hne. unfold applySWAP.
  assert (Hv : valid2 n (JInt q0) (JInt q1) = true).
  { cbn. repeat (apply andb_true_intro; split); try (apply Z.leb_le; lia);
      try (apply Z.ltb_lt; lia). apply negb_true_iff, Z.eqb_neq. exact Hne. }
  rewrite Hv. cbn [negb jsint].
  destruct (Z.eqb_spec q0 q1); [lia|].
  destruct (q0 <? q1).
  - apply swap_loop_spec; assumption.
  - destruct (swap_loop_spec q1 q0 H1 H0 ltac:(lia)) as (out & Hl & Hlo & Hk).
    exists out. split; [exact Hl|]. split; [exact Hlo|].
    intros k Hk0. rewrite swap_src_comm. now apply Hk.
Qed.

Lemma applyCSWAP_spec (c q0 q1 : Z) :
  0 <= c < n -> 0 <= q0 < n -> 0 <= q1 < n ->
  c <> q0 -> c <> q1 -> q0 <> q1 ->
  exists out, applyCSWAP st n (JInt c) (JInt q0) (JInt q1) = Ok out
    /\ List.length out = List.length st
    /\ forall k, 0 <= k < 2 ^ n -> aget out k = aget st (cswap_src c q0 q1 k).
Proof.
  intros Hc H0 H1 N0 N1 N01. unfold applyCSWAP.
  assert (Hv : valid3 n (JInt c) (JInt q0) (JInt q1) = true).
  { cbn. repeat (apply andb_true_intro; split); try (apply Z.leb_le; lia);
      try (apply Z.ltb_lt; lia); apply negb_true_iff, Z.eqb_neq; assumption. }
  rewrite Hv. cbn [negb jsint].
  destruct (Z.eqb_spec q0 q1); [lia|].
  rewrite (shl32_small n), (shl32_small c), (shl32_small q0), (shl32_small q1) by lia.
  match goal with
  | |- exists out, for_loop _ ?body _ = _ /\ _ =>
      destruct (xor_loop_spec st n Hn Hlen
                  (fun i => (negb (Z.land i (2 ^ c) =? 0)
                             && negb (Bool.eqb (negb (Z.land i (2 ^ q0) =? 0))
                                               (negb (Z.land i (2 ^ q1) =? 0))))%bool)
                  q0 q1 body H0 H1) as (out & Hl & Hlo & Hk)
  end.
  - intros i out a0 a1 Es Ha0 Ha1. cbv zeta. apply andb_prop in Es.
    destruct Es as [E1 E2]. apply andb_prop in E1. destruct E1 as [E0 E1].
    apply negb_true_iff in E0. rewrite E0, E1, E2. reads Ha0 Ha1.
  - intros i out Es. cbv zeta.
    destruct (Z.land i (2 ^ c) =? 0); [reflexivity|]. cbn [negb andb] in Es.
    apply andb_false_iff in Es.
    destruct Es as [E|E]; rewrite E; [reflexivity|].
    now destruct (negb _).
  - intros i. rewrite !ctl_bit by lia.
    rewrite !testbit_lxor_mask by lia.
    rewrite !Z.eqb_refl.
    destruct (Z.eqb_spec c q0); [lia|]. destruct (Z.eqb_spec c q1); [lia|].
    destruct (Z.eqb_spec q0 q1); [lia|]. destruct (Z.eqb_spec q1 q0); [lia|].
    cbn [orb]. rewrite xorb_false_r.
    now destruct (Z.testbit i q0), (Z.testbit i q1).
  - exists out. split; [exact Hl|]. split; [exact Hlo|].
    intros k Hk0. rewrite (Hk k Hk0). unfold cswap_src, swap_src.
    rewrite !ctl_bit by lia.
    now destruct (Z.testbit k c), (Z.testbit k q0), (Z.testbit k q1).
Qed.

Lemma applyCZ_spec (c t : Z) :
  0 <= c < n -> 0 <= t < n -> c <> t ->
  exists out, applyCZ st n (JInt c) (JInt t) = Ok out
    /\ List.length out = List.length st
    /\ forall k, 0 <= k < 2 ^ n ->
         aget out k = if Z.testbit k c && Z.testbit k t
                      then option_map cneg (aget st k) else aget st k.
Proof.
  intros Hc Ht Hne. unfold applyCZ.
  assert (Hv : valid2 n (JInt c) (JInt t) = true).
  { cbn. repeat (apply andb_true_intro; split); try (apply Z.leb_le; lia);
      try (apply Z.ltb_lt; lia). apply negb_true_iff, Z.eqb_neq. exact Hne. }
  rewrite Hv. cbn [negb jsint].
  rewrite (shl32_small n), (shl32_small c), (shl32_small t) by lia. cbv zeta.
  match goal with
  | |- exists out, for_loop _ ?body _ = _ /\ _ =>
      destruct (for_loop_inv
        (fun m out => List.length out = List.length st
           /\ forall k, 0 <= k < 2 ^ n ->
                aget out k = if (k <? m) && (Z.testbit k c && Z.testbit k t)
                             then option_map cneg (aget st k) else aget st k)
        body (2 ^ n) st) as (out & Hl & Hlo & Hk)
  end.
  - lia.
  - split; [reflexivity|]. intros k Hk.
    destruct (Z.ltb_spec k 0); [lia|reflexivity].
  - intros j out Hj (Hlo & Hk). rewrite both_bits by lia.
    destruct (Z.testbit j c && Z.testbit j t)%bool eqn:Eb.
    + destruct (aget_lt_Some out j ltac:(lia)) as (a & Ha).
      rewrite (rd_ok _ _ _ _ Ha). cbn [bind]. rewrite wr_ok by lia.
      eexists. split; [reflexivity|]. split; [now rewrite length_upd|].
      intros k Hk0. destruct (Z.eq_dec k j) as [->|Hkj].
      * unfold aget at 1. destruct (Z.ltb_spec j 0); [lia|].
        rewrite nth_error_upd_eq by lia.
        destruct (Z.ltb_spec j (j + 1)); [|lia]. rewrite Eb. cbn [andb].
        rewrite (Hk j Hj) in Ha. destruct (Z.ltb_spec j j); [lia|].
        cbn [andb] in Ha. rewrite Ha. reflexivity.
      * rewrite aget_upd_ne by lia. rewrite (Hk k Hk0).
        destruct (Z.ltb_spec k j), (Z.ltb_spec k (j + 1)); try lia; reflexivity.
    + exists out. split; [reflexivity|]. split; [exact Hlo|].
      intros k Hk0. rewrite (Hk k Hk0).
      destruct (Z.ltb_spec k j), (Z.ltb_spec k (j + 1)); try lia; try reflexivity.
      assert (k = j) by lia. subst k. now rewrite Eb.
  - exists out. split; [exact Hl|]. split; [exact Hlo|].
    intros k Hk0. rewrite (Hk k Hk0).
    destruct (Z.ltb_spec k (2 ^ n)); [reflexivity|lia].
Qed.

End KernelForms2.

(** ** Arrays are determined by their elements *)

Lemma aget_ext {A : Type} (l1 l2 : list A) :
  List.length l1 = List.length l2 ->
  (forall k, 0 <= k < Z.of_nat (List.length l1) -> aget l1 k = aget l2 k) ->
  l1 = l2.
Proof.
  intros Hl H. apply nth_error_ext. intros i.
  destruct (Nat.lt_ge_cases i (List.length l1)) as [Hi|Hi].
  - specialize (H (Z.of_nat i) ltac:(lia)). unfold aget in H.
    destruct (Z.ltb_spec (Z.of_nat i) 0); [lia|].
    now rewrite Nat2Z.id in H.
  - rewrite (proj2 (nth_error_None l1 i)), (proj2 (nth_error_None l2 i)) by lia.
    reflexivity.
Qed.

(** ** One-qubit gates compose as their matrices *)

Lemma row0_mmul (N M : Mat2) (a b : Cx) :
  row0 N (row0 M a b) (row1 M a b) = row0 (mmul N M) a b.
Proof.
  destruct N as [[? ?] [? ?] [? ?] [? ?]], M as [[? ?] [? ?] [? ?] [? ?]], a, b.
  unfold row0, row1, mmul, cadd, cmul; cbn [re im m00 m01 m10 m11].
  f_equal; ring.
Qed.

Lemma row1_mmul (N M : Mat2) (a b : Cx) :
  row1 N (row0 M a b) (row1 M a b) = row1 (mmul N M) a b.
Proof.
  destruct N as [[? ?] [? ?] [? ?] [? ?]], M as [[? ?] [? ?] [? ?] [? ?]], a, b.
  unfold row0, row1, mmul, cadd, cmul; cbn [re im m00 m01 m10 m11].
  f_equal; ring.
Qed.

Lemma row_Mid (a b : Cx) : row0 Mid a b = a /\ row1 Mid a b = b.
Proof.
  destruct a, b. unfold row0, row1, Mid, ONE, ZERO, cadd, cmul;
    cbn [re im m00 m01 m10 m11]. split; f_equal; ring.
Qed.

(** The pair of an index: the index with bit [z] cleared and set. *)
Lemma pair_of (n z k : Z) :
  0 <= z < n -> 0 <= k < 2 ^ n ->
  exists k0, 0 <= k0 < 2 ^ n /\ 0 <= k0 + 2 ^ z < 2 ^ n
    /\ Z.testbit k0 z = false /\ Z.testbit (k0 + 2 ^ z) z = true
    /\ (k = k0 \/ k = k0 + 2 ^ z).
Proof.
  intros Hz Hk.
  assert (Hset : forall i, 0 <= i < 2 ^ n -> Z.testbit i z = false ->
            0 <= i + 2 ^ z < 2 ^ n /\ Z.testbit (i + 2 ^ z) z = true).
  { intros i Hi Hb. rewrite <- (setbit_add i z) by (lia || assumption).
    split; [apply setbit_range; lia|].
    rewrite testbit_setbit, Z.eqb_refl by lia. apply orb_true_r. }
  destruct (Z.testbit k z) eqn:E.
  - destruct (clear_bit k z ltac:(lia) ltac:(lia) E) as (H0 & Hb & Hor).
    assert (Hp : 0 < 2 ^ z) by (apply Z.pow_pos_nonneg; lia).
    exists (k - 2 ^ z).
    replace (k - 2 ^ z + 2 ^ z) with k by lia.
    repeat split; try lia; try assumption.
  - destruct (Hset k Hk E) as (Hr & Hb).
    exists k. repeat split; try lia; try assumption.
Qed.

Section Compose.

Variable st : state.

Lemma apply1_at_lo (M : Mat2) (z k0 : Z) :
  Z.testbit k0 z = false ->
  apply1_at M z st k0 = on_pair (row0 M) (aget st k0) (aget st (k0 + 2 ^ z)).
Proof. intros E. unfold apply1_at. now rewrite E. Qed.

Lemma apply1_at_hi (M : Mat2) (z k0 : Z) :
  Z.testbit (k0 + 2 ^ z) z = true ->
  apply1_at M z st (k0 + 2 ^ z)
  = on_pair (row1 M) (aget st k0) (aget st (k0 + 2 ^ z)).
Proof.
  intros E. unfold apply1_at. rewrite E.
  now replace (k0 + 2 ^ z - 2 ^ z) with k0 by lia.
Qed.

End Compose.

Lemma apply1_at_then (st s1 : state) (n : Z) (M N : Mat2) (z k : Z) :
  0 <= n <= 30 ->
  Z.of_nat (List.length st) = 2 ^ n -> List.length s1 = List.length st ->
  0 <= z < n -> 0 <= k < 2 ^ n ->
  (forall i, 0 <= i < 2 ^ n -> (i = k \/ i = Z.lxor k (2 ^ z)) ->
             aget s1 i = apply1_at M z st i) ->
  apply1_at N z s1 k = apply1_at (mmul N M) z st k.
Proof.
  intros Hn Hlen Hl1 Hz Hk Hs1.
  destruct (pair_of n z k Hz Hk) as (k0 & R0 & R1 & B0 & B1 & Hkk).
  assert (Hlen1 : Z.of_nat (List.length s1) = 2 ^ n) by (rewrite Hl1; exact Hlen).
  assert (Hx : Z.lxor k (2 ^ z) = if Z.testbit k z then k - 2 ^ z else k + 2 ^ z)
    by (apply lxor_pow2; lia).
  assert (E0 : aget s1 k0 = apply1_at M z st k0).
  { apply Hs1; [exact R0|]. destruct Hkk as [->| ->]; [now left|right].
    rewrite Hx, B1. lia. }
  assert (E1 : aget s1 (k0 + 2 ^ z) = apply1_at M z st (k0 + 2 ^ z)).
  { apply Hs1; [exact R1|]. destruct Hkk as [->| ->]; [right|now left].
    rewrite Hx, B0. reflexivity. }
  rewrite (apply1_at_lo st M z k0 B0) in E0.
  rewrite (apply1_at_hi st M z k0 B1) in E1.
  destruct (aget_in st n Hn Hlen k0 R0) as (a & Ha).
  destruct (aget_in st n Hn Hlen (k0 + 2 ^ z) R1) as (b & Hb).
  rewrite Ha, Hb in E0, E1. cbn [on_pair] in E0, E1.
  destruct Hkk as [->| ->].
  - rewrite (apply1_at_lo s1 N z k0 B0), (apply1_at_lo st (mmul N M) z k0 B0).
    rewrite E0, E1, Ha, Hb. cbn [on_pair]. now rewrite row0_mmul.
  - rewrite (apply1_at_hi s1 N z k0 B1), (apply1_at_hi st (mmul N M) z k0 B1).
    rewrite E0, E1, Ha, Hb. cbn [on_pair]. now rewrite row1_mmul.
Qed.

Lemma apply1_at_Mid (st : state) (n : Z) (z k : Z) :
  0 <= n <= 30 -> Z.of_nat (List.length st) = 2 ^ n ->
  0 <= z < n -> 0 <= k < 2 ^ n ->
  apply1_at Mid z st k = aget st k.
Proof.
  intros Hn Hlen Hz Hk.
  destruct (pair_of n z k Hz Hk) as (k0 & R0 & R1 & B0 & B1 & Hkk).
  destruct (aget_in st n Hn Hlen k0 R0) as (a & Ha).
  destruct (aget_in st n Hn Hlen (k0 + 2 ^ z) R1) as (b & Hb).
  destruct (row_Mid a b) as (I0 & I1).
  destruct Hkk as [->| ->].
  - rewrite (apply1_at_lo st Mid z k0 B0), Ha, Hb. cbn [on_pair]. now rewrite I0.
  - rewrite (apply1_at_hi st Mid z k0 B1), Ha, Hb. cbn [on_pair]. now rewrite I1.
Qed.

Lemma lxor_pow2_range (n z k : Z) :
  0 <= z < n -> 0 <= k < 2 ^ n -> 0 <= Z.lxor k (2 ^ z) < 2 ^ n.
Proof.
  intros Hz Hk. rewrite <- (Z.lor_diag (2 ^ z)). apply lxor_range; lia.
Qed.

Lemma apply1_then (st : state) (n z : Z) (M N : Mat2) :
  0 <= n <= 30 -> Z.of_nat (List.length st) = 2 ^ n -> 0 <= z < n ->
  exists s1, apply1 st n (JInt z) M = Ok s1
    /\ List.length s1 = List.length st
    /\ apply1 s1 n (JInt z) N = apply1 st n (JInt z) (mmul N M).
Proof.
  intros Hn Hlen Hz.
  destruct (apply1_spec st n Hn Hlen z M Hz) as (s1 & E1 & L1 & K1).
  assert (Hlen1 : Z.of_nat (List.length s1) = 2 ^ n) by (rewrite L1; exact Hlen).
  destruct (apply1_spec s1 n Hn Hlen1 z N Hz) as (s2 & E2 & L2 & K2).
  destruct (apply1_spec st n Hn Hlen z (mmul N M) Hz) as (s3 & E3 & L3 & K3).
  exists s1. split; [exact E1|]. split; [exact L1|].
  rewrite E2, E3. f_equal. apply aget_ext; [congruence|].
  intros k Hk. rewrite L2, Hlen1 in Hk.
  rewrite (K2 k Hk), (K3 k Hk).
  apply (apply1_at_then st s1 n M N z k); try assumption.
  intros i Hi _. now apply K1.
Qed.

Lemma apply1_Mid (st : state) (n z : Z) :
  0 <= n <= 30 -> Z.of_nat (List.length st) = 2 ^ n -> 0 <= z < n ->
  apply1 st n (JInt z) Mid = Ok st.
Proof.
  intros Hn Hlen Hz.
  destruct (apply1_spec st n Hn Hlen z Mid Hz) as (s1 & E1 & L1 & K1).
  rewrite E1. f_equal. apply aget_ext; [exact L1|].
  intros k Hk. rewrite L1, Hlen in Hk. rewrite (K1 k Hk).
  now apply (apply1_at_Mid st n).
Qed.

(** ** The dispatch, kernel by kernel *)

Ltac by_ref r s :=
  destruct (String.eqb_spec r s) as [->|?]; cbn [orb].

Lemma step_kernel (n : Z) (o : Op) (psi : state) (ent : bool) :
  step n o (psi, ent)
  = (psi' <- kernel n o psi ;; Ok (psi', (ent || multi_gate o)%bool)).
Proof.
  unfold step, kernel, multi_gate, is_multi.
  destruct (is_gate o); cbn [negb andb bind];
    [|now rewrite orb_false_r].
  generalize (refNorm (ref o)). intros r.
  by_ref r "X"%string; [cbn; now rewrite orb_false_r|].
  by_ref r "Y"%string; [cbn; now rewrite orb_false_r|].
  by_ref r "Z"%string; [cbn; now rewrite orb_false_r|].
  by_ref r "H"%string; [cbn; now rewrite orb_false_r|].
  by_ref r "S"%string; [cbn; now rewrite orb_false_r|].
  by_ref r "T"%string; [cbn; now rewrite orb_false_r|].
  by_ref r "RX"%string; [cbn; now rewrite orb_false_r|].
  by_ref r "RY"%string; [cbn; now rewrite orb_false_r|].
  by_ref r "RZ"%string; [cbn; now rewrite orb_false_r|].
  by_ref r "CX"%string; [cbn; now rewrite orb_true_r|].
  by_ref r "CY"%string; [cbn; now rewrite orb_true_r|].
  by_ref r "CZ"%string; [cbn; now rewrite orb_true_r|].
  by_ref r "SWAP"%string; [cbn; now rewrite orb_true_r|].
  by_ref r "CCX"%string; [cbn; now rewrite orb_true_r|].
  by_ref r "CCNOT"%string; [cbn; now rewrite orb_true_r|].
  by_ref r "CSWAP"%string; [cbn; now rewrite orb_true_r|].
  cbn. now rewrite orb_false_r.
Qed.

(** ** Gates that undo themselves *)

Ltac mat_eq :=
  unfold mmul, Mid, Mx, My, Mz, Mh, Ms, Mt, Mrx, Mry, Mrz, ONE, ZERO, cadd, cmul;
  cbn [re im m00 m01 m10 m11]; cbv zeta.

Lemma mmul_Mx : mmul Mx Mx = Mid.
Proof. mat_eq. repeat f_equal; ring. Qed.

Lemma mmul_My : mmul My My = Mid.
Proof. mat_eq. repeat f_equal; ring. Qed.

Lemma mmul_Mz : mmul Mz Mz = Mid.
Proof. mat_eq. repeat f_equal; ring. Qed.

Lemma mmul_Mh : mmul Mh Mh = Mid.
Proof.
  mat_eq. pose proof inv_sqrt2_sqr as H.
  f_equal; f_equal; nra.
Qed.

Lemma apply1_twice (st : state) (n : Z) (q : jsnum) (M : Mat2) :
  0 <= n <= 30 -> Z.of_nat (List.length st) = 2 ^ n ->
  mmul M M = Mid ->
  undoes_itself (fun s => apply1 s n q M) st.
Proof.
  intros Hn Hlen HM. destruct (valid1 n q) as [z|] eqn:Ev.
  - apply valid1_Some in Ev. destruct Ev as (-> & Hz).
    destruct (apply1_then st n z M M Hn Hlen Hz) as (s1 & E1 & L1 & E2).
    exists s1. split; [exact E1|]. split; [exact L1|].
    rewrite E2, HM. now apply apply1_Mid.
  - exists st. unfold apply1. rewrite Ev. now repeat split.
Qed.

(** A kernel that moves amplitudes along an index map that is its own
    inverse. *)
Lemma perm_twice (K : state -> result state) (src : Z -> Z) (st : state) (n : Z) :
  (forall s, Z.of_nat (List.length s) = 2 ^ n ->
     exists out, K s = Ok out /\ List.length out = List.length s
       /\ forall k, 0 <= k < 2 ^ n -> aget out k = aget s (src k)) ->
  (forall k, 0 <= k < 2 ^ n -> 0 <= src k < 2 ^ n /\ src (src k) = k) ->
  Z.of_nat (List.length st) = 2 ^ n ->
  undoes_itself K st.
Proof.
  intros HK Hsrc Hlen.
  destruct (HK st Hlen) as (s1 & E1 & L1 & K1).
  assert (Hlen1 : Z.of_nat (List.length s1) = 2 ^ n) by (rewrite L1; exact Hlen).
  destruct (HK s1 Hlen1) as (s2 & E2 & L2 & K2).
  exists s1. split; [exact E1|]. split; [exact L1|].
  rewrite E2. f_equal. apply aget_ext; [congruence|].
  intros k Hk. rewrite L2, Hlen1 in Hk.
  destruct (Hsrc k Hk) as (Hr & Hi).
  now rewrite (K2 k Hk), (K1 _ Hr), Hi.
Qed.

Lemma testbit_lxor_pow2 (k t c : Z) :
  0 <= t -> 0 <= c ->
  Z.testbit (Z.lxor k (2 ^ t)) c = xorb (Z.testbit k c) (c =? t).
Proof.
  intros Ht Hc. rewrite Z.lxor_spec. f_equal.
  destruct (Z.eqb_spec c t) as [->|?];
    [apply Z.pow2_bits_true|apply Z.pow2_bits_false]; lia.
Qed.

Lemma cx_src_invol (n c t k : Z) :
  0 <= c -> 0 <= t < n -> c <> t -> 0 <= k < 2 ^ n ->
  0 <= cx_src c t k < 2 ^ n /\ cx_src c t (cx_src c t k) = k.
Proof.
  intros Hc Ht Hne Hk. unfold cx_src.
  destruct (Z.testbit k c) eqn:E.
  - split; [apply lxor_pow2_range; lia|].
    rewrite testbit_lxor_pow2, E by lia.
    destruct (Z.eqb_spec c t); [lia|]. cbn [xorb]. apply lxor_twice.
  - split; [lia|]. now rewrite E.
Qed.

Lemma ccx_src_invol (n c1 c2 t k : Z) :
  0 <= c1 -> 0 <= c2 -> 0 <= t < n -> c1 <> t -> c2 <> t -> 0 <= k < 2 ^ n ->
  0 <= ccx_src c1 c2 t k < 2 ^ n /\ ccx_src c1 c2 t (ccx_src c1 c2 t k) = k.
Proof.
  intros H1 H2 Ht N1 N2 Hk. unfold ccx_src.
  destruct (Z.testbit k c1 && Z.testbit k c2)%bool eqn:E.
  - split; [apply lxor_pow2_range; lia|].
    rewrite !testbit_lxor_pow2 by lia.
    destruct (Z.eqb_spec c1 t); [lia|]. destruct (Z.eqb_spec c2 t); [lia|].
    rewrite !xorb_false_r, E. apply lxor_twice.
  - split; [lia|]. now rewrite E.
Qed.

Lemma swap_src_invol (n a b k : Z) :
  0 <= a < n -> 0 <= b < n -> a <> b -> 0 <= k < 2 ^ n ->
  0 <= swap_src a b k < 2 ^ n /\ swap_src a b (swap_src a b k) = k.
Proof.
  intros Ha Hb Hne Hk. unfold swap_src.
  destruct (xorb (Z.testbit k a) (Z.testbit k b)) eqn:E.
  - split; [apply lxor_range; lia|].
    rewrite !testbit_lxor_mask, !Z.eqb_refl by lia.
    destruct (Z.eqb_spec a b); [lia|]. destruct (Z.eqb_spec b a); [lia|].
    cbn [orb].
    replace (xorb (xorb (Z.testbit k a) true) (xorb (Z.testbit k b) true))
      with (xorb (Z.testbit k a) (Z.testbit k b))
      by (now destruct (Z.testbit k a), (Z.testbit k b)).
    rewrite E. apply lxor_twice.
  - split; [lia|]. now rewrite E.
Qed.

Lemma cswap_src_invol (n c a b k : Z) :
  0 <= c -> 0 <= a < n -> 0 <= b < n -> a <> b -> c <> a -> c <> b ->
  0 <= k < 2 ^ n ->
  0 <= cswap_src c a b k < 2 ^ n /\ cswap_src c a b (cswap_src c a b k) = k.
Proof.
  intros Hc Ha Hb Hne Na Nb Hk. unfold cswap_src.
  destruct (Z.testbit k c) eqn:E; [|split; [lia|now rewrite E]].
  destruct (swap_src_invol n a b k Ha Hb Hne Hk) as (Hr & Hi).
  split; [exact Hr|].
  assert (Hc' : Z.testbit (swap_src a b k) c = true).
  { unfold swap_src. destruct (xorb _ _); [|exact E].
    rewrite testbit_lxor_mask by lia.
    destruct (Z.eqb_spec c a); [lia|]. destruct (Z.eqb_spec c b); [lia|].
    cbn [orb]. now rewrite xorb_false_r. }
  now rewrite Hc'.
Qed.

Lemma applyCX_twice (st : state) (n : Z) (a b : jsnum) :
  0 <= n <= 30 -> Z.of_nat (List.length st) = 2 ^ n ->
  undoes_itself (fun s => applyCX s n a b) st.
Proof.
  intros Hn Hlen. destruct (valid2 n a b) eqn:Ev.
  - apply valid2_true in Ev.
    destruct Ev as (c & t & -> & -> & Hc & Ht & Hne).
    apply (perm_twice _ (cx_src c t) st n); [| |exact Hlen].
    + intros s Hs. now apply applyCX_spec.
    + intros k Hk. apply cx_src_invol; lia.
  - exists st. unfold applyCX. rewrite Ev. now repeat split.
Qed.

Lemma applySWAP_twice (st : state) (n : Z) (a b : jsnum) :
  0 <= n <= 30 -> Z.of_nat (List.length st) = 2 ^ n ->
  undoes_itself (fun s => applySWAP s n a b) st.
Proof.
  intros Hn Hlen. destruct (valid2 n a b) eqn:Ev.
  - apply valid2_true in Ev.
    destruct Ev as (c & t & -> & -> & Hc & Ht & Hne).
    apply (perm_twice _ (swap_src c t) st n); [| |exact Hlen].
    + intros s Hs. now apply applySWAP_spec.
    + intros k Hk. apply swap_src_invol; lia.
  - exists st. unfold applySWAP. rewrite Ev. now repeat split.
Qed.

Lemma applyCCX_twice (st : state) (n : Z) (a b c : jsnum) :
  0 <= n <= 30 -> Z.of_nat (List.length st) = 2 ^ n ->
  undoes_itself (fun s => applyCCX s n a b c) st.
Proof.
  intros Hn Hlen. destruct (valid3 n a b c) eqn:Ev.
  - apply valid3_true in Ev.
    destruct Ev as (x & y & z & -> & -> & -> & Hx & Hy & Hz & N1 & N2 & N3).
    apply (perm_twice _ (ccx_src x y z) st n); [| |exact Hlen].
    + intros s Hs. now apply applyCCX_spec.
    + intros k Hk. apply ccx_src_invol; lia.
  - exists st. unfold applyCCX. rewrite Ev. now repeat split.
Qed.

Lemma applyCSWAP_twice (st : state) (n : Z) (a b c : jsnum) :
  0 <= n <= 30 -> Z.of_nat (List.length st) = 2 ^ n ->
  undoes_itself (fun s => applyCSWAP s n a b c) st.
Proof.
  intros Hn Hlen. destruct (valid3 n a b c) eqn:Ev.
  - apply valid3_true in Ev.
    destruct Ev as (x & y & z & -> & -> & -> & Hx & Hy & Hz & N1 & N2 & N3).
    apply (perm_twice _ (cswap_src x y z) st n); [| |exact Hlen].
    + intros s Hs. now apply applyCSWAP_spec.
    + intros k Hk. apply cswap_src_invol; lia.
  - exists st. unfold applyCSWAP. rewrite Ev. now repeat split.
Qed.

Lemma cneg_cneg (a : Cx) : cneg (cneg a) = a.
Proof. destruct a. unfold cneg; cbn [re im]. f_equal; ring. Qed.

Lemma applyCZ_twice (st : state) (n : Z) (a b : jsnum) :
  0 <= n <= 30 -> Z.of_nat (List.length st) = 2 ^ n ->
  undoes_itself (fun s => applyCZ s n a b) st.
Proof.
  intros Hn Hlen. destruct (valid2 n a b) eqn:Ev.
  - apply valid2_true in Ev.
    destruct Ev as (c & t & -> & -> & Hc & Ht & Hne).
    destruct (applyCZ_spec st n Hn Hlen c t Hc Ht Hne) as (s1 & E1 & L1 & K1).
    assert (Hlen1 : Z.of_nat (List.length s1) = 2 ^ n) by (rewrite L1; exact Hlen).
    destruct (applyCZ_spec s1 n Hn Hlen1 c t Hc Ht Hne) as (s2 & E2 & L2 & K2).
    exists s1. split; [exact E1|]. split; [exact L1|].
    rewrite E2. f_equal. apply aget_ext; [congruence|].
    intros k Hk. rewrite L2, Hlen1 in Hk.
    rewrite (K2 k Hk), (K1 k Hk).
    destruct (Z.testbit k c && Z.testbit k t)%bool; [|reflexivity].
    destruct (aget st k); cbn [option_map]; [|reflexivity].
    now rewrite cneg_cneg.
  - exists st. unfold applyCZ. rewrite Ev. now repeat split.
Qed.

Lemma applyCY_twice (st : state) (n : Z) (a b : jsnum) :
  0 <= n <= 30 -> Z.of_nat (List.length st) = 2 ^ n ->
  undoes_itself (fun s => applyCY s n a b) st.
Proof.
  intros Hn Hlen. destruct (valid2 n a b) eqn:Ev.
  - apply valid2_true in Ev.
    destruct Ev as (c & t & -> & -> & Hc & Ht & Hne).
    destruct (applyCY_spec st n Hn Hlen c t Hc Ht Hne) as (s1 & E1 & L1 & K1).
    assert (Hlen1 : Z.of_nat (List.length s1) = 2 ^ n) by (rewrite L1; exact Hlen).
    destruct (applyCY_spec s1 n Hn Hlen1 c t Hc Ht Hne) as (s2 & E2 & L2 & K2).
    exists s1. split; [exact E1|]. split; [exact L1|].
    rewrite E2. f_equal. apply aget_ext; [congruence|].
    intros k Hk. rewrite L2, Hlen1 in Hk.
    rewrite (K2 k Hk). destruct (Z.testbit k c) eqn:Ec.
    + rewrite (apply1_at_then st s1 n My My t k Hn Hlen L1 Ht Hk).
      * rewrite mmul_My. now apply (apply1_at_Mid st n).
      * intros i Hi [-> | ->]; rewrite (K1 _ Hi); [now rewrite Ec|].
        rewrite testbit_lxor_pow2, Ec by lia.
        destruct (Z.eqb_spec c t); [lia|]. reflexivity.
    + rewrite (K1 k Hk), Ec. reflexivity.
  - exists st. unfold applyCY. rewrite Ev. now repeat split.
Qed.

Lemma kernel_twice (n : Z) (o : Op) (psi : state) :
  0 <= n <= 30 -> Z.of_nat (List.length psi) = 2 ^ n ->
  self_inverse (refNorm (ref o)) = true ->
  undoes_itself (kernel n o) psi.
Proof.
  intros Hn Hlen. unfold kernel, self_inverse.
  destruct (is_gate o); cbn [negb]; [|intros _; exists psi; now repeat split].
  generalize (refNorm (ref o)). intros r.
  by_ref r "X"%string; [intros _; now apply apply1_twice, mmul_Mx|].
  by_ref r "Y"%string; [intros _; now apply apply1_twice, mmul_My|].
  by_ref r "Z"%string; [intros _; now apply apply1_twice, mmul_Mz|].
  by_ref r "H"%string; [intros _; now apply apply1_twice, mmul_Mh|].
  by_ref r "S"%string; [discriminate|].
  by_ref r "T"%string; [discriminate|].
  by_ref r "RX"%string; [discriminate|].
  by_ref r "RY"%string; [discriminate|].
  by_ref r "RZ"%string; [discriminate|].
  by_ref r "CX"%string; [intros _; now apply applyCX_twice|].
  by_ref r "CY"%string; [intros _; now apply applyCY_twice|].
  by_ref r "CZ"%string; [intros _; now apply applyCZ_twice|].
  by_ref r "SWAP"%string; [intros _; now apply applySWAP_twice|].
  by_ref r "CCX"%string; [intros _; now apply applyCCX_twice|].
  by_ref r "CCNOT"%string; [intros _; now apply applyCCX_twice|].
  by_ref r "CSWAP"%string; [intros _; now apply applyCSWAP_twice|].
  discriminate.
Qed.

(** X1. A gate X, Y, Z, H, CX, CY, CZ, SWAP, CCX (or CCNOT) or CSWAP run
    twice in a row gives back the statevector it started from, amplitude
    by amplitude, whatever its targets are (on targets the kernel refuses
    both runs do nothing); the entangled-likely flag is raised by the
    multi-qubit ones. *)
Theorem gate_twice_restores (n : Z) (o : Op) (psi : state) (ent : bool) :
  0 <= n <= 30 -> Z.of_nat (List.length psi) = 2 ^ n ->
  self_inverse (refNorm (ref o)) = true ->
  evolve n [o; o] (psi, ent) = Ok (psi, (ent || multi_gate o)%bool).
Proof.
  intros Hn Hlen Hs.
  destruct (kernel_twice n o psi Hn Hlen Hs) as (s1 & E1 & L1 & E2).
  cbn [evolve]. rewrite step_kernel, E1. cbn [bind].
  rewrite step_kernel, E2. cbn [bind].
  now rewrite <- orb_assoc, orb_diag.
Qed.

Lemma gate_twice_restores_witness :
  0 <= 2 <= 30
  /\ Z.of_nat (List.length bell_state) = 2 ^ 2
  /\ self_inverse (refNorm (ref opCX)) = true
  /\ evolve 2 [opCX; opCX] (bell_state, false) = Ok (bell_state, true).
Proof.
  split; [lia|]. split; [reflexivity|]. split; [reflexivity|].
  exact (gate_twice_restores 2 opCX bell_state false ltac:(lia) eq_refl eq_refl).
Defined.

(** ** Products of one-qubit gates *)

Ltac seq_cases st n q M N Hn Hlen :=
  let z := fresh "z" in
  let Ev := fresh "Ev" in
  destruct (valid1 n q) as [z|] eqn:Ev;
  [ apply valid1_Some in Ev;
    let Hz := fresh "Hz" in
    destruct Ev as (-> & Hz);
    let s1 := fresh "s1" in
    let E1 := fresh "E1" in
    let L1 := fresh "L1" in
    let E2 := fresh "E2" in
    destruct (apply1_then st n z M N Hn Hlen Hz) as (s1 & E1 & L1 & E2);
    rewrite E1; cbn [bind]; rewrite E2
  | unfold apply1; rewrite Ev; cbn [bind]; rewrite ?Ev ].

(** X2. Two one-qubit matrices applied one after the other to the same
    target act as their matrix product applied once; on a target the
    kernel refuses, all three calls return the state as it is. *)
Theorem apply1_compose (st : state) (n : Z) (q : jsnum) (M N : Mat2) :
  0 <= n <= 30 -> Z.of_nat (List.length st) = 2 ^ n ->
  (s1 <- apply1 st n q M ;; apply1 s1 n q N) = apply1 st n q (mmul N M).
Proof.
  intros Hn Hlen.
  seq_cases st n q M N Hn Hlen.
  - reflexivity.
  - reflexivity.
Qed.

Lemma apply1_compose_witness :
  0 <= 1 <= 30
  /\ Z.of_nat (List.length [C 1 0; C 0 0]) = 2 ^ 1
  /\ (s1 <- apply1 [C 1 0; C 0 0] 1 (JInt 0) Mh ;; apply1 s1 1 (JInt 0) Mz)
     = apply1 [C 1 0; C 0 0] 1 (JInt 0) (mmul Mz Mh).
Proof.
  split; [lia|]. split; [reflexivity|].
  exact (apply1_compose [C 1 0; C 0 0] 1 (JInt 0) Mh Mz ltac:(lia) eq_refl).
Defined.

Lemma half_sum (a b : R) : ((a + b) / 2 = a / 2 + b / 2)%R.
Proof. lra. Qed.

(** X3. Rotations about one axis add their angles: RX(a) then RX(b) on
    the same target is RX(a + b), and likewise for RY and RZ. *)
Theorem rotation_angles_add (st : state) (n : Z) (q : jsnum) (a b : R) :
  0 <= n <= 30 -> Z.of_nat (List.length st) = 2 ^ n ->
  (s1 <- apply1 st n q (Mrx a) ;; apply1 s1 n q (Mrx b))
  = apply1 st n q (Mrx (a + b))
  /\ (s1 <- apply1 st n q (Mry a) ;; apply1 s1 n q (Mry b))
     = apply1 st n q (Mry (a + b))
  /\ (s1 <- apply1 st n q (Mrz a) ;; apply1 s1 n q (Mrz b))
     = apply1 st n q (Mrz (a + b)).
Proof.
  intros Hn Hlen.
  assert (Hx : mmul (Mrx b) (Mrx a) = Mrx (a + b)).
  { mat_eq. rewrite half_sum, cos_plus, sin_plus. f_equal; f_equal; ring. }
  assert (Hy : mmul (Mry b) (Mry a) = Mry (a + b)).
  { mat_eq. rewrite half_sum, cos_plus, sin_plus. f_equal; f_equal; ring. }
  assert (Hz : mmul (Mrz b) (Mrz a) = Mrz (a + b)).
  { mat_eq. rewrite !cos_neg, !sin_neg, half_sum, cos_plus, sin_plus.
    f_equal; f_equal; ring. }
  split; [|split].
  - seq_cases st n q (Mrx a) (Mrx b) Hn Hlen; [now rewrite Hx|reflexivity].
  - seq_cases st n q (Mry a) (Mry b) Hn Hlen; [now rewrite Hy|reflexivity].
  - seq_cases st n q (Mrz a) (Mrz b) Hn Hlen; [now rewrite Hz|reflexivity].
Qed.

Lemma rotation_angles_add_witness :
  0 <= 1 <= 30
  /\ Z.of_nat (List.length [C 1 0; C 0 0]) = 2 ^ 1
  /\ (s1 <- apply1 [C 1 0; C 0 0] 1 (JInt 0) (Mrx 1) ;;
      apply1 s1 1 (JInt 0) (Mrx 2))
     = apply1 [C 1 0; C 0 0] 1 (JInt 0) (Mrx (1 + 2)).
Proof.
  split; [lia|]. split; [reflexivity|].
  exact (proj1 (rotation_angles_add [C 1 0; C 0 0] 1 (JInt 0) 1 2
                  ltac:(lia) eq_refl)).
Defined.

(** X4. The phase gates are roots of Z: S applied twice to a target acts
    as Z, and T applied twice acts as S. *)
Theorem phase_gates_square (st : state) (n : Z) (q : jsnum) :
  0 <= n <= 30 -> Z.of_nat (List.length st) = 2 ^ n ->
  (s1 <- apply1 st n q Ms ;; apply1 s1 n q Ms) = apply1 st n q Mz
  /\ (s1 <- apply1 st n q Mt ;; apply1 s1 n q Mt) = apply1 st n q Ms.
Proof.
  intros Hn Hlen.
  assert (HS : mmul Ms Ms = Mz).
  { mat_eq. repeat f_equal; ring. }
  assert (HT : mmul Mt Mt = Ms).
  { mat_eq. pose proof sqrt1_2_sqr as H. f_equal; f_equal; nra. }
  split.
  - seq_cases st n q Ms Ms Hn Hlen; [now rewrite HS|reflexivity].
  - seq_cases st n q Mt Mt Hn Hlen; [now rewrite HT|reflexivity].
Qed.

Lemma phase_gates_square_witness :
  0 <= 1 <= 30
  /\ Z.of_nat (List.length [C 0 0; C 1 0]) = 2 ^ 1
  /\ (s1 <- apply1 [C 0 0; C 1 0] 1 (JInt 0) Mt ;; apply1 s1 1 (JInt 0) Mt)
     = apply1 [C 0 0; C 1 0] 1 (JInt 0) Ms.
Proof.
  split; [lia|]. split; [reflexivity|].
  exact (proj2 (phase_gates_square [C 0 0; C 1 0] 1 (JInt 0)
                  ltac:(lia) eq_refl)).
Defined.

(** ** What the kernels compute *)

(** X5. apply1 with a target inside the register multiplies every pair of
    amplitudes whose indices differ only in the target bit by the matrix:
    the amplitude with the bit clear by the first row, the one with the bit
    set by the second row, both read from the state before the call. *)
Theorem apply1_pairs (st : state) (n z : Z) (M : Mat2) :
  0 <= n <= 30 -> Z.of_nat (List.length st) = 2 ^ n -> 0 <= z < n ->
  exists out, apply1 st n (JInt z) M = Ok out
    /\ List.length out = List.length st
    /\ forall i a0 a1,
         0 <= i < 2 ^ n -> Z.testbit i z = false ->
         aget st i = Some a0 -> aget st (i + 2 ^ z) = Some a1 ->
         aget out i = Some (cadd (cmul (m00 M) a0) (cmul (m01 M) a1))
         /\ aget out (i + 2 ^ z)
            = Some (cadd (cmul (m10 M) a0) (cmul (m11 M) a1)).
Proof.
  intros Hn Hlen Hz.
  destruct (apply1_spec st n Hn Hlen z M Hz) as (out & E & L & K).
  exists out. split; [exact E|]. split; [exact L|].
  intros i a0 a1 Hi Hb H0 H1.
  assert (Hr : 0 <= i + 2 ^ z < 2 ^ n).
  { apply aget_Some_lt in H1. lia. }
  assert (Hb1 : Z.testbit (i + 2 ^ z) z = true).
  { rewrite <- (setbit_add i z) by (lia || assumption).
    rewrite testbit_setbit, Z.eqb_refl by lia. apply orb_true_r. }
  split.
  - rewrite (K i Hi), (apply1_at_lo st M z i Hb), H0, H1. reflexivity.
  - rewrite (K _ Hr), (apply1_at_hi st M z i Hb1), H0, H1. reflexivity.
Qed.

Lemma apply1_pairs_witness :
  0 <= 1 <= 30
  /\ Z.of_nat (List.length [C 1 0; C 0 0]) = 2 ^ 1
  /\ 0 <= 0 < 1
  /\ exists out, apply1 [C 1 0; C 0 0] 1 (JInt 0) Mh = Ok out
       /\ aget out 0
          = Some (cadd (cmul (m00 Mh) (C 1 0)) (cmul (m01 Mh) (C 0 0)))
       /\ aget out 1
          = Some (cadd (cmul (m10 Mh) (C 1 0)) (cmul (m11 Mh) (C 0 0))).
Proof.
  split; [lia|]. split; [reflexivity|]. split; [lia|].
  destruct (apply1_pairs [C 1 0; C 0 0] 1 0 Mh ltac:(lia) eq_refl ltac:(lia))
    as (out & E & _ & K).
  destruct (K 0 (C 1 0) (C 0 0) ltac:(lia) eq_refl eq_refl eq_refl) as (K0 & K1).
  exists out. split; [exact E|]. split; [exact K0|exact K1].
Defined.

(** X6. CX, CCX, SWAP and CSWAP on accepted targets only move amplitudes:
    the amplitude at index k after the call is the amplitude that was at
    the index obtained from k by flipping the target bit where the control
    bits are set (CX, CCX), or by exchanging the two swapped bits (SWAP,
    and CSWAP where the control bit is set). *)
Theorem permutation_gates (st : state) (n : Z) :
  0 <= n <= 30 -> Z.of_nat (List.length st) = 2 ^ n ->
  (forall c t, 0 <= c < n -> 0 <= t < n -> c <> t ->
     exists out, applyCX st n (JInt c) (JInt t) = Ok out
       /\ forall k, 0 <= k < 2 ^ n -> aget out k = aget st (cx_src c t k))
  /\ (forall c1 c2 t, 0 <= c1 < n -> 0 <= c2 < n -> 0 <= t < n ->
        c1 <> c2 -> c1 <> t -> c2 <> t ->
        exists out, applyCCX st n (JInt c1) (JInt c2) (JInt t) = Ok out
          /\ forall k, 0 <= k < 2 ^ n ->
               aget out k = aget st (ccx_src c1 c2 t k))
  /\ (forall a b, 0 <= a < n -> 0 <= b < n -> a <> b ->
        exists out, applySWAP st n (JInt a) (JInt b) = Ok out
          /\ forall k, 0 <= k < 2 ^ n -> aget out k = aget st (swap_src a b k))
  /\ (forall c a b, 0 <= c < n -> 0 <= a < n -> 0 <= b < n ->
        c <> a -> c <> b -> a <> b ->
        exists out, applyCSWAP st n (JInt c) (JInt a) (JInt b) = Ok out
          /\ forall k, 0 <= k < 2 ^ n ->
               aget out k = aget st (cswap_src c a b k)).
Proof.
  intros Hn Hlen. split; [|split; [|split]].
  - intros c t Hc Ht Hne.
    destruct (applyCX_spec st n Hn Hlen c t Hc Ht Hne) as (out & E & _ & K).
    exists out. split; assumption.
  - intros c1 c2 t H1 H2 Ht N1 N2 N3.
    destruct (applyCCX_spec st n Hn Hlen c1 c2 t H1 H2 Ht N1 N2 N3)
      as (out & E & _ & K).
    exists out. split; assumption.
  - intros a b Ha Hb Hne.
    destruct (applySWAP_spec st n Hn Hlen a b Ha Hb Hne) as (out & E & _ & K).
    exists out. split; assumption.
  - intros c a b Hc Ha Hb N1 N2 N3.
    destruct (applyCSWAP_spec st n Hn Hlen c a b Hc Ha Hb N1 N2 N3)
      as (out & E & _ & K).
    exists out. split; assumption.
Qed.

Lemma permutation_gates_witness :
  0 <= 2 <= 30
  /\ Z.of_nat (List.length [C 0 0; C 1 0; C 0 0; C 0 0]) = 2 ^ 2
  /\ exists out, applyCX [C 0 0; C 1 0; C 0 0; C 0 0] 2 (JInt 0) (JInt 1) = Ok out
       /\ aget out 3 = Some (C 1 0) /\ aget out 1 = Some (C 0 0).
Proof.
  split; [lia|]. split; [reflexivity|].
  destruct (proj1 (permutation_gates [C 0 0; C 1 0; C 0 0; C 0 0] 2
                     ltac:(lia) eq_refl) 0 1 ltac:(lia) ltac:(lia) ltac:(lia))
    as (out & E & K).
  exists out. split; [exact E|].
  split; [exact (K 3 ltac:(lia))|exact (K 1 ltac:(lia))].
Defined.

(** X7. CZ on accepted targets negates exactly the amplitudes whose index
    has both bits set and leaves the others as they are; CY acts as the
    matrix Y on the target bit of the amplitudes whose index has the
    control bit set, and leaves the others as they are. *)
Theorem controlled_phase_gates (st : state) (n c t : Z) :
  0 <= n <= 30 -> Z.of_nat (List.length st) = 2 ^ n ->
  0 <= c < n -> 0 <= t < n -> c <> t ->
  (exists out, applyCZ st n (JInt c) (JInt t) = Ok out
     /\ forall k, 0 <= k < 2 ^ n ->
          aget out k = if Z.testbit k c && Z.testbit k t
                       then option_map cneg (aget st k) else aget st k)
  /\ (exists out, applyCY st n (JInt c) (JInt t) = Ok out
        /\ forall k, 0 <= k < 2 ^ n ->
             aget out k = if Z.testbit k c then apply1_at My t st k
                          else aget st k).
Proof.
  intros Hn Hlen Hc Ht Hne. split.
  - destruct (applyCZ_spec st n Hn Hlen c t Hc Ht Hne) as (out & E & _ & K).
    exists out. split; assumption.
  - destruct (applyCY_spec st n Hn Hlen c t Hc Ht Hne) as (out & E & _ & K).
    exists out. split; assumption.
Qed.

Lemma controlled_phase_gates_witness :
  0 <= 2 <= 30
  /\ Z.of_nat (List.length [C 0 0; C 0 0; C 0 0; C 1 0]) = 2 ^ 2
  /\ exists out, applyCZ [C 0 0; C 0 0; C 0 0; C 1 0] 2 (JInt 0) (JInt 1) = Ok out
       /\ aget out 3 = Some (cneg (C 1 0)).
Proof.
  split; [lia|]. split; [reflexivity|].
  destruct (proj1 (controlled_phase_gates [C 0 0; C 0 0; C 0 0; C 1 0] 2 0 1
                     ltac:(lia) eq_refl ltac:(lia) ltac:(lia) ltac:(lia)))
    as (out & E & K).
  exists out. split; [exact E|exact (K 3 ltac:(lia))].
Defined.

(** ** The order of the arguments *)

Lemma for_from_ext {S : Type} (f g : Z -> S -> result S) :
  (forall i s, f i s = g i s) ->
  forall (k : nat) (i : Z) (s : S), for_from k i f s = for_from k i g s.
Proof.
  intros H k. induction k as [|k IH]; intros i s; cbn [for_from].
  - reflexivity.
  - rewrite H. destruct (g i s); cbn [bind]; [apply IH|reflexivity].
Qed.

Lemma valid2_sym (n : Z) (a b : jsnum) : valid2 n a b = valid2 n b a.
Proof.
  destruct a as [a|], b as [b|]; cbn; try reflexivity.
  rewrite (Z.eqb_sym a b).
  destruct (0 <=? a), (0 <=? b), (a <? n), (b <? n); reflexivity.
Qed.

Lemma valid3_sym12 (n : Z) (a b c : jsnum) : valid3 n a b c = valid3 n b a c.
Proof.
  destruct a as [a|], b as [b|], c as [c|]; cbn; try reflexivity.
  rewrite (Z.eqb_sym a b).
  destruct (b =? a), (a =? c), (b =? c), (0 <=? a), (0 <=? b), (0 <=? c),
    (a <? n), (b <? n), (c <? n); reflexivity.
Qed.

Lemma valid3_sym23 (n : Z) (a b c : jsnum) : valid3 n a b c = valid3 n a c b.
Proof.
  destruct a as [a|], b as [b|], c as [c|]; cbn; try reflexivity.
  rewrite (Z.eqb_sym b c).
  destruct (a =? b), (a =? c), (c =? b), (0 <=? a), (0 <=? b), (0 <=? c),
    (a <? n), (b <? n), (c <? n); reflexivity.
Qed.

(** X8. The kernels do not care about the order of interchangeable
    arguments: SWAP(a,b) is SWAP(b,a), CZ(c,t) is CZ(t,c), the two controls
    of CCX can be exchanged and so can the two swapped qubits of CSWAP.
    This holds for every state and every argument, accepted or not. *)
Theorem interchangeable_arguments (st : state) (n : Z) (a b c : jsnum) :
  applySWAP st n a b = applySWAP st n b a
  /\ applyCZ st n a b = applyCZ st n b a
  /\ applyCCX st n a b c = applyCCX st n b a c
  /\ applyCSWAP st n c a b = applyCSWAP st n c b a.
Proof.
  split; [|split; [|split]].
  - unfold applySWAP. rewrite (valid2_sym n b a), (Z.eqb_sym (jsint b)).
    destruct (valid2 n a b); cbn [negb]; [|reflexivity].
    destruct (Z.eqb_spec (jsint a) (jsint b)) as [|Hne]; [reflexivity|].
    destruct (Z.ltb_spec (jsint a) (jsint b)), (Z.ltb_spec (jsint b) (jsint a));
      try lia; reflexivity.
  - unfold applyCZ. rewrite (valid2_sym n b a).
    destruct (valid2 n a b); cbn [negb]; [|reflexivity].
    cbv zeta. now rewrite (Z.lor_comm (shl32 1 (jsint b))).
  - unfold applyCCX. rewrite (valid3_sym12 n b a).
    destruct (valid3 n a b c); cbn [negb]; [|reflexivity].
    cbv zeta. unfold for_loop. apply for_from_ext. intros i s.
    now rewrite (andb_comm (negb (Z.land i (shl32 1 (jsint b)) =? 0))).
  - unfold applyCSWAP. rewrite (valid3_sym23 n c b), (Z.eqb_sym (jsint b)).
    destruct (valid3 n c a b); cbn [negb]; [|reflexivity].
    destruct (jsint a =? jsint b); [reflexivity|].
    cbv zeta. unfold for_loop. apply for_from_ext. intros i s.
    rewrite (Z.lor_comm (shl32 1 (jsint b))).
    destruct (Z.land i (shl32 1 (jsint c)) =? 0); [reflexivity|].
    now destruct (Z.land i (shl32 1 (jsint a)) =? 0),
                 (Z.land i (shl32 1 (jsint b)) =? 0).
Qed.

(** ** Post-selection with a positive mass *)

Lemma sumR_norm2 (l : state) : sumR (map norm2 l) = total l.
Proof.
  induction l as [|a l IH]; [reflexivity|].
  cbn [map sumR fold_right]. unfold total, sumR in *. cbn [fold_right].
  now rewrite IH.
Qed.

Lemma norm2_cscale (c : R) (a : Cx) : norm2 (cscale c a) = (c * c * norm2 a)%R.
Proof. destruct a. unfold norm2, cscale; cbn [re im]. ring. Qed.

Lemma total_cscale (c : R) (l : state) :
  total (map (cscale c) l) = (c * c * total l)%R.
Proof.
  induction l as [|a l IH]; unfold total in *; cbn [map fold_right].
  - ring.
  - rewrite IH, norm2_cscale. ring.
Qed.

Lemma length_projectBy (f : Z -> bool) (l : state) :
  forall i, List.length (projectBy f i l) = List.length l.
Proof.
  induction l as [|a l IH]; intros i; cbn [projectBy List.length];
    [reflexivity|now rewrite IH].
Qed.

Lemma nth_projectBy (f : Z -> bool) (l : state) :
  forall (i : Z) (k : nat),
    nth_error (projectBy f i l) k
    = option_map (fun a => if f (i + Z.of_nat k) then a else C 0 0)
        (nth_error l k).
Proof.
  induction l as [|a l IH]; intros i k; cbn [projectBy].
  - now destruct k.
  - destruct k as [|k]; cbn [nth_error option_map].
    + now rewrite Z.add_0_r.
    + rewrite IH. now replace (i + 1 + Z.of_nat k) with (i + Z.of_nat (S k)) by lia.
Qed.

Lemma aget_projectBy (f : Z -> bool) (l : state) (k : Z) :
  aget (projectBy f 0 l) k
  = option_map (fun a => if f k then a else C 0 0) (aget l k).
Proof.
  unfold aget. destruct (Z.ltb_spec k 0); [reflexivity|].
  rewrite nth_projectBy. now rewrite Z.add_0_l, Z2Nat.id by lia.
Qed.

Lemma total_projectBy_le (f : Z -> bool) (l : state) :
  forall i, (0 <= total (projectBy f i l) <= total l)%R.
Proof.
  induction l as [|a l IH]; intros i; unfold total in *;
    cbn [projectBy fold_right]; [lra|].
  specialize (IH (i + 1)). pose proof (norm2_nonneg a) as Ha.
  destruct (f i); [lra|].
  unfold norm2 at 1 3; cbn [re im]. lra.
Qed.

Lemma aget_map {A B : Type} (f : A -> B) (l : list A) (k : Z) :
  aget (map f l) k = option_map f (aget l k).
Proof.
  unfold aget. destruct (k <? 0); [reflexivity|apply nth_error_map].
Qed.

Lemma inv_sqrt_sqr (m : R) : (0 < m)%R -> (1 / sqrt m * (1 / sqrt m) * m = 1)%R.
Proof.
  intros Hm. pose proof (sqrt_lt_R0 m Hm) as Hs.
  pose proof (sqrt_sqrt m ltac:(lra)) as Hq.
  rewrite <- Hq at 3. field. lra.
Qed.

(** The three ways the post-selection step ends: nothing selected, a zero
    mass, or a renormalised state. *)
Lemma postSelect_cases (l : list Op) (n : Z) (psi : state) :
  exists psi' pp, postSelect l n psi = Ok (psi', pp)
    /\ List.length psi' = List.length psi
    /\ ((pp = None /\ psi' = psi)
        \/ (pp = Some 0%R /\ total psi' = 0%R)
        \/ (exists m, pp = Some m /\ (0 < m <= total psi)%R
                      /\ total psi' = 1%R)).
Proof.
  unfold postSelect.
  destruct (find is_postselect l) as [note|];
    [|exists psi, None; repeat split; now left].
  destruct (targets note) as [[|t0 ts]|];
    try (exists psi, None; repeat split; now left).
  destruct (valid1 n t0) as [z|] eqn:Ev.
  - rewrite (postSelectByBit_eq psi n t0 (expectOf note) z Ev). cbv zeta.
    set (P := projectBy _ 0 psi).
    pose proof (total_projectBy_le
                  (fun i => (if Z.land i (shl32 1 z) =? 0 then 0 else 1)
                            =? expectOf note) psi 0) as HP.
    fold P in HP.
    destruct (Rle_dec (total P) 0) as [Hle|Hgt].
    + exists P, (Some 0%R). split; [reflexivity|].
      split; [apply length_projectBy|]. right; left. split; [reflexivity|lra].
    + eexists _, _. split; [reflexivity|].
      split; [rewrite length_map; apply length_projectBy|].
      right; right. exists (total P). split; [reflexivity|]. split; [lra|].
      change (fun a => C (re a * (1 / sqrt (total P))) (im a * (1 / sqrt (total P))))
        with (cscale (1 / sqrt (total P))).
      rewrite total_cscale. apply inv_sqrt_sqr. lra.
  - unfold postSelectByBit. rewrite Ev.
    exists psi, None. repeat split; now left.
Qed.

Lemma postselected_state (psi : state) (n z e : Z) :
  0 <= z < n -> z <= 30 ->
  (0 < mass psi z e)%R ->
  postSelectByBit psi n (JInt z) e
  = Ok (map (cscale (1 / sqrt (mass psi z e)))
          (projectBy (fun i => bitval i z =? e) 0 psi),
        Some (mass psi z e)).
Proof.
  intros Hz Hz30 Hm.
  assert (Ev : valid1 n (JInt z) = Some z).
  { cbn. destruct (Z.ltb_spec z 0); [lia|].
    destruct (Z.geb_spec z n); [lia|reflexivity]. }
  rewrite (postSelectByBit_eq psi n (JInt z) e z Ev). cbv zeta.
  rewrite (projectBy_ext _ (fun i => bitval i z =? e) psi)
    by (intros i; apply keep_test_bitval; lia).
  fold (mass psi z e).
  destruct (Rle_dec (mass psi z e) 0) as [Hle|_]; [lra|].
  reflexivity.
Qed.

(** X9. In exact arithmetic, post-selection on a bit inside the register
    whose expected value has positive probability mass m returns m as the
    post-selection probability and a state of norm 1: the amplitudes whose
    index has the expected bit value are divided by the square root of m,
    the others are zero. *)
Theorem postselect_renormalises (psi : state) (n z e : Z) :
  0 <= z < n -> z <= 30 ->
  (0 < mass psi z e)%R ->
  exists psi',
    postSelectByBit psi n (JInt z) e = Ok (psi', Some (mass psi z e))
    /\ List.length psi' = List.length psi
    /\ total psi' = 1%R
    /\ forall k,
         aget psi' k
         = option_map (fun a => if bitval k z =? e
                                then cscale (1 / sqrt (mass psi z e)) a
                                else C 0 0) (aget psi k).
Proof.
  intros Hz Hz30 Hm.
  rewrite (postselected_state psi n z e Hz Hz30 Hm).
  eexists. split; [reflexivity|].
  split; [rewrite length_map; apply length_projectBy|].
  split.
  - rewrite total_cscale. fold (mass psi z e). now apply inv_sqrt_sqr.
  - intros k. rewrite aget_map, aget_projectBy.
    destruct (aget psi k) as [a|]; cbn [option_map]; [|reflexivity].
    destruct (bitval k z =? e); [reflexivity|].
    unfold cscale; cbn [re im]. f_equal. f_equal; ring.
Qed.

Lemma postselect_renormalises_witness :
  0 <= 0 < 1 /\ 0 <= 30
  /\ (0 < mass [C (1 / 2) 0; C 0 (1 / 2)] 0 1)%R
  /\ exists psi',
       postSelectByBit [C (1 / 2) 0; C 0 (1 / 2)] 1 (JInt 0) 1
       = Ok (psi', Some (mass [C (1 / 2) 0; C 0 (1 / 2)] 0 1))
       /\ total psi' = 1%R.
Proof.
  assert (Hm : (0 < mass [C (1 / 2) 0; C 0 (1 / 2)] 0 1)%R).
  { unfold mass. eval_reals. lra. }
  split; [lia|]. split; [lia|]. split; [exact Hm|].
  destruct (postselect_renormalises [C (1 / 2) 0; C 0 (1 / 2)] 1 0 1
              ltac:(lia) ltac:(lia) Hm) as (psi' & E & _ & T & _).
  exists psi'. split; [exact E|exact T].
Defined.

(** X10. For a circuit of at most 30 qubits the simulation returns a
    result whose probabilities are the squared magnitudes of the returned
    amplitudes, one per basis state, none negative. In exact arithmetic
    they sum to 1 when no post-selection took place or its probability is
    positive, and the post-selection probability lies between 0 and 1;
    when it is 0 every probability is 0. *)
Theorem probabilities_form_distribution (mathRandom : nat -> R) (ir : IR)
  (opts : Opts) :
  qubitsOf ir <= 30 ->
  exists r, simulateCircuit mathRandom ir opts = Ok r
    /\ r_qubits r = qubitsOf ir
    /\ Z.of_nat (List.length (probs r)) = 2 ^ qubitsOf ir
    /\ probs r = map norm2 (amps r)
    /\ Forall (fun x => (0 <= x)%R) (probs r)
    /\ match postSelectProb r with
       | None => sumR (probs r) = 1%R
       | Some m => (0 <= m <= 1)%R
                   /\ sumR (probs r) = if Rle_dec m 0 then 0%R else 1%R
       end.
Proof.
  intros Hq.
  destruct (evolveCircuit_norm ir Hq) as (psi & ent & He & Hlen & Ht).
  destruct (postSelect_cases (ops ir) (qubitsOf ir) psi)
    as (psi' & pp & Hp & Hl & Hc).
  destruct (simulate_ok mathRandom ir opts psi psi' ent pp He Hp) as (cnt & Hs).
  eexists. split; [exact Hs|]. cbn [r_qubits probs amps postSelectProb].
  split; [reflexivity|].
  split; [now rewrite length_map, Hl|].
  split; [reflexivity|].
  split.
  - apply Forall_forall. intros x Hx. apply in_map_iff in Hx.
    destruct Hx as (a & <- & _). apply norm2_nonneg.
  - rewrite sumR_norm2.
    destruct Hc as [(-> & ->)|[(-> & T0)|(m & -> & Hm & T1)]].
    + exact Ht.
    + split; [lra|]. destruct (Rle_dec 0 0); [exact T0|lra].
    + split; [lra|]. destruct (Rle_dec m 0); [lra|exact T1].
Qed.

Lemma probabilities_form_distribution_witness :
  qubitsOf bell <= 30
  /\ exists r, simulateCircuit (fun _ => 0%R) bell (mkOpts None None None) = Ok r
       /\ Z.of_nat (List.length (probs r)) = 2 ^ 2
       /\ Forall (fun x => (0 <= x)%R) (probs r).
Proof.
  split; [cbn; lia|].
  destruct (probabilities_form_distribution (fun _ => 0%R) bell
              (mkOpts None None None) ltac:(cbn; lia))
    as (r & E & _ & L & _ & F & _).
  exists r. split; [exact E|]. split; [exact L|exact F].
Defined.

(** ** The cumulative distribution *)

Lemma prefix_sums_spec (l : list R) :
  forall s,
    snd (prefix_sums s l) = (s + sumR l)%R
    /\ List.length (fst (prefix_sums s l)) = List.length l
    /\ forall k, (k < List.length l)%nat ->
         nth_error (fst (prefix_sums s l)) k
         = Some (s + sumR (firstn (S k) l))%R.
Proof.
  induction l as [|x l IH]; intros s; cbn [prefix_sums].
  - cbn. split; [lra|]. split; [reflexivity|]. intros k Hk. lia.
  - destruct (IH (s + x)%R) as (Ht & Hl & Hk).
    destruct (prefix_sums (s + x) l) as [c tot]. cbn [fst snd] in *.
    split; [rewrite Ht; unfold sumR; cbn [fold_right]; lra|].
    split; [cbn [List.length]; now rewrite Hl|].
    intros [|k] Hlt; cbn [nth_error firstn].
    + unfold sumR; cbn [fold_right]. f_equal. lra.
    + cbn [List.length] in Hlt. rewrite Hk by lia.
      unfold sumR; cbn [fold_right firstn]. f_equal. lra.
Qed.

Lemma sumR_nonneg (l : list R) :
  Forall (fun x => (0 <= x)%R) l -> (0 <= sumR l)%R.
Proof.
  induction 1 as [|x l Hx _ IH]; unfold sumR in *; cbn [fold_right]; lra.
Qed.

Lemma firstn_Forall {A : Type} (P : A -> Prop) (l : list A) :
  Forall P l -> forall k, Forall P (firstn k l).
Proof.
  induction 1 as [|x l Hx _ IH]; intros [|k]; cbn [firstn]; constructor;
    [exact Hx|apply IH].
Qed.

Lemma sumR_firstn_mono (l : list R) :
  Forall (fun x => (0 <= x)%R) l ->
  forall i j, (i <= j)%nat -> (sumR (firstn i l) <= sumR (firstn j l))%R.
Proof.
  induction 1 as [|x l Hx Hl IH]; intros i j Hij.
  - rewrite !firstn_nil. lra.
  - destruct i as [|i], j as [|j]; try lia; cbn [firstn].
    + lra.
    + pose proof (sumR_nonneg (firstn j l) (firstn_Forall _ l Hl j)) as H0.
      unfold sumR in *; cbn [fold_right]. lra.
    + specialize (IH i j ltac:(lia)). unfold sumR in *; cbn [fold_right]. lra.
Qed.

Lemma sumR_firstn_le (l : list R) (i : nat) :
  Forall (fun x => (0 <= x)%R) l -> (sumR (firstn i l) <= sumR l)%R.
Proof.
  intros Hl. rewrite <- (firstn_all l) at 2.
  destruct (Nat.le_ge_cases i (List.length l)) as [H|H].
  - now apply sumR_firstn_mono.
  - rewrite (firstn_all2 l H), firstn_all. lra.
Qed.

Lemma sumR_firstn_S (l : list R) (k : nat) (x : R) :
  nth_error l k = Some x ->
  sumR (firstn (S k) l) = (sumR (firstn k l) + x)%R.
Proof.
  revert k. induction l as [|y l IH]; intros [|k] H; cbn in H; try discriminate.
  - injection H as ->. cbn. lra.
  - cbn [nth_error] in H. specialize (IH k H).
    change (firstn (S (S k)) (y :: l)) with (y :: firstn (S k) l).
    change (firstn (S k) (y :: l)) with (y :: firstn k l).
    unfold sumR in *; cbn [fold_right]. rewrite IH. lra.
Qed.

(** The entries of the cumulative distribution of a vector with a positive
    sum. *)
Lemma cdf_entries (l : list R) (k : Z) :
  (0 < sumR l)%R ->
  aget (cdfFromProbs l) k
  = option_map (fun _ => (partial_sum l k / sumR l)%R) (aget l k).
Proof.
  intros Hs. unfold cdfFromProbs.
  destruct (prefix_sums_spec l 0%R) as (Ht & Hl & Hk).
  destruct (prefix_sums 0 l) as [c tot]. cbn [fst snd] in *.
  rewrite Rplus_0_l in Ht. subst tot.
  destruct (Rlt_dec 0 (sumR l)) as [_|]; [|lra].
  rewrite aget_map. unfold aget, partial_sum.
  destruct (Z.ltb_spec k 0); [reflexivity|].
  destruct (Nat.lt_ge_cases (Z.to_nat k) (List.length l)) as [Hlt|Hge].
  - rewrite (Hk _ Hlt). destruct (nth_error l (Z.to_nat k)) eqn:E.
    + cbn [option_map]. rewrite Nat.add_1_r. f_equal. f_equal. lra.
    + apply nth_error_None in E. lia.
  - rewrite (proj2 (nth_error_None c _)), (proj2 (nth_error_None l _)) by lia.
    reflexivity.
Qed.

Lemma length_cdf (l : list R) :
  List.length (cdfFromProbs l) = List.length l.
Proof.
  unfold cdfFromProbs.
  destruct (prefix_sums_spec l 0%R) as (_ & Hl & _).
  destruct (prefix_sums 0 l) as [c tot]. cbn [fst] in Hl.
  destruct (Rlt_dec 0 tot); [rewrite length_map|]; exact Hl.
Qed.

Lemma partial_sum_bounds (l : list R) (k : Z) :
  Forall (fun x => (0 <= x)%R) l ->
  (0 <= partial_sum l k <= sumR l)%R.
Proof.
  intros Hl. unfold partial_sum. split.
  - apply sumR_nonneg. now apply firstn_Forall.
  - now apply sumR_firstn_le.
Qed.

Lemma partial_sum_mono (l : list R) (i j : Z) :
  Forall (fun x => (0 <= x)%R) l -> 0 <= i <= j ->
  (partial_sum l i <= partial_sum l j)%R.
Proof.
  intros Hl Hij. unfold partial_sum. apply sumR_firstn_mono; [exact Hl|lia].
Qed.

Lemma partial_sum_last (l : list R) (k : Z) :
  Z.of_nat (List.length l) - 1 <= k -> partial_sum l k = sumR l.
Proof.
  intros Hk. unfold partial_sum. now rewrite firstn_all2 by lia.
Qed.

Lemma partial_sum_step (l : list R) (k : Z) (x : R) :
  0 < k -> aget l k = Some x ->
  partial_sum l k = (partial_sum l (k - 1) + x)%R.
Proof.
  intros Hk H. unfold aget in H. destruct (Z.ltb_spec k 0); [lia|].
  unfold partial_sum. rewrite Nat.add_1_r, (sumR_firstn_S l _ x H).
  now replace (Z.to_nat (k - 1) + 1)%nat with (Z.to_nat k) by lia.
Qed.

Lemma partial_sum_0 (l : list R) (x : R) :
  aget l 0 = Some x -> partial_sum l 0 = x.
Proof.
  destruct l as [|y l]; cbn; [discriminate|].
  intros H. injection H as ->. unfold partial_sum, sumR. cbn. lra.
Qed.

Lemma cdf_at (l : list R) (k : Z) :
  (0 < sumR l)%R -> 0 <= k < Z.of_nat (List.length l) ->
  aget (cdfFromProbs l) k = Some (partial_sum l k / sumR l)%R.
Proof.
  intros Hs Hk. rewrite (cdf_entries l k Hs).
  destruct (aget_lt_Some l k Hk) as (x & ->). reflexivity.
Qed.

Lemma div_sum_le (s x y : R) : (0 < s)%R -> (x <= y)%R -> (x / s <= y / s)%R.
Proof.
  intros Hs Hxy. apply Rmult_le_compat_r; [|exact Hxy].
  apply Rlt_le, Rinv_0_lt_compat, Hs.
Qed.

Lemma cdf_nondecreasing (l : list R) :
  Forall (fun x => (0 <= x)%R) l -> (0 < sumR l)%R ->
  nondecreasing (cdfFromProbs l).
Proof.
  intros Hl Hs i j a b Hij Ha Hb.
  pose proof (aget_Some_lt _ _ _ Ha) as Ri.
  pose proof (aget_Some_lt _ _ _ Hb) as Rj.
  rewrite length_cdf in Ri, Rj.
  rewrite (cdf_at l i Hs Ri) in Ha. rewrite (cdf_at l j Hs Rj) in Hb.
  injection Ha as <-. injection Hb as <-.
  apply div_sum_le; [exact Hs|]. now apply partial_sum_mono.
Qed.

(** X11. For probabilities that are not negative and have a positive sum,
    entry k of the cumulative distribution is (p_0 + ... + p_k) divided by
    the sum: the array is as long as the probabilities, never decreases,
    stays within [0, 1] and ends in 1. *)
Theorem cdf_partial_sums (l : list R) :
  Forall (fun x => (0 <= x)%R) l -> (0 < sumR l)%R ->
  List.length (cdfFromProbs l) = List.length l
  /\ (forall k, 0 <= k < Z.of_nat (List.length l) ->
        aget (cdfFromProbs l) k = Some (partial_sum l k / sumR l)%R)
  /\ nondecreasing (cdfFromProbs l)
  /\ Forall (fun c => (0 <= c <= 1)%R) (cdfFromProbs l)
  /\ aget (cdfFromProbs l) (Z.of_nat (List.length l) - 1) = Some 1%R.
Proof.
  intros Hl Hs.
  split; [apply length_cdf|].
  split; [intros k Hk; now apply cdf_at|].
  split; [now apply cdf_nondecreasing|]. split.
  - apply Forall_forall. intros c Hc.
    apply In_nth_error in Hc. destruct Hc as (k & Hc).
    assert (Rk : (k < List.length (cdfFromProbs l))%nat)
      by (apply nth_error_Some; congruence).
    rewrite length_cdf in Rk.
    pose proof (cdf_at l (Z.of_nat k) Hs ltac:(lia)) as Hk. unfold aget in Hk.
    destruct (Z.ltb_spec (Z.of_nat k) 0); [lia|].
    rewrite Nat2Z.id, Hc in Hk. injection Hk as ->.
    destruct (partial_sum_bounds l (Z.of_nat k) Hl) as (H0 & H1).
    split.
    + apply Rmult_le_pos; [exact H0|]. apply Rlt_le, Rinv_0_lt_compat, Hs.
    + replace 1%R with (sumR l / sumR l)%R by (field; lra).
      now apply div_sum_le.
  - assert (Hne : 0 < Z.of_nat (List.length l)).
    { destruct l; [cbn in Hs; lra|cbn [List.length]; lia]. }
    rewrite cdf_at by (assumption || lia). rewrite partial_sum_last by lia.
    f_equal. field. lra.
Qed.

Lemma cdf_partial_sums_witness :
  Forall (fun x => (0 <= x)%R) [1; 3]%R
  /\ (0 < sumR [1; 3])%R
  /\ aget (cdfFromProbs [1; 3]%R) 0 = Some (partial_sum [1; 3] 0 / sumR [1; 3])%R
  /\ aget (cdfFromProbs [1; 3]%R) 1 = Some 1%R.
Proof.
  assert (Hl : Forall (fun x => (0 <= x)%R) [1; 3]%R)
    by (repeat constructor; lra).
  assert (Hs : (0 < sumR [1; 3])%R) by (cbn; lra).
  split; [exact Hl|]. split; [exact Hs|].
  destruct (cdf_partial_sums [1; 3]%R Hl Hs) as (_ & Hk & _ & _ & Hlast).
  split; [exact (Hk 0 ltac:(cbn; lia))|exact Hlast].
Defined.

(** ** The binary search *)

Lemma sampleLoop_inv (P : Z -> Z -> Prop) (cdf : list R) (r : R) :
  (forall lo hi, lo < hi -> P lo hi ->
     cdf_lt cdf (Z.shiftr (lo + hi) 1) r = true ->
     P (Z.shiftr (lo + hi) 1 + 1) hi) ->
  (forall lo hi, lo < hi -> P lo hi ->
     cdf_lt cdf (Z.shiftr (lo + hi) 1) r = false ->
     P lo (Z.shiftr (lo + hi) 1)) ->
  forall lo hi, P lo hi ->
    exists hi', hi' <= sampleLoop cdf r lo hi
                /\ P (sampleLoop cdf r lo hi) hi'.
Proof.
  intros Ht Hf lo hi. funelim (sampleLoop cdf r lo hi); intros HP.
  - exists hi. split; [lia|exact HP].
  - match goal with
    | IH : forall Q : Z -> Z -> Prop, _ |- _ => apply (IH P Ht Hf)
    end.
    apply Ht; assumption.
  - match goal with
    | IH : forall Q : Z -> Z -> Prop, _ |- _ => apply (IH P Ht Hf)
    end.
    apply Hf; assumption.
Qed.

(** X12. sampleIdx returns an index of the array it searches, for every
    array and every drawn number: a value between 0 and the last index
    (0 for an empty array). *)
Theorem sampleIdx_in_range (cdf : list R) (r : R) :
  0 <= sampleIdx cdf r <= Z.max 0 (Z.of_nat (List.length cdf) - 1).
Proof.
  unfold sampleIdx.
  set (H := Z.of_nat (List.length cdf) - 1).
  destruct (sampleLoop_inv
              (fun lo hi => 0 <= lo /\ Z.max lo hi <= Z.max 0 H) cdf r)
    with (lo := 0) (hi := H) as (hi' & Hle & H0 & Hmax).
  - intros lo hi Hlt (Hlo & Hm) _.
    pose proof (shiftr1_bounds lo hi Hlt). split; lia.
  - intros lo hi Hlt (Hlo & Hm) _.
    pose proof (shiftr1_bounds lo hi Hlt). split; lia.
  - split; lia.
  - lia.
Qed.

Lemma cdf_lt_mono (cdf : list R) (r : R) (i j : Z) :
  nondecreasing cdf -> 0 <= i <= j -> j < Z.of_nat (List.length cdf) ->
  cdf_lt cdf j r = true -> cdf_lt cdf i r = true.
Proof.
  intros Hnd Hij Hj. unfold cdf_lt.
  destruct (aget_lt_Some cdf i ltac:(lia)) as (a & Ha).
  destruct (aget_lt_Some cdf j ltac:(lia)) as (b & Hb).
  rewrite Ha, Hb. specialize (Hnd i j a b Hij Ha Hb).
  destruct (Rlt_dec b r); [|discriminate].
  destruct (Rlt_dec a r); [reflexivity|lra].
Qed.

Lemma sampleIdx_search (cdf : list R) (r : R) :
  nondecreasing cdf -> 0 < Z.of_nat (List.length cdf) ->
  0 <= sampleIdx cdf r <= Z.of_nat (List.length cdf) - 1
  /\ (forall k, 0 <= k < sampleIdx cdf r -> cdf_lt cdf k r = true)
  /\ (forall k, sampleIdx cdf r <= k < Z.of_nat (List.length cdf) - 1 ->
                cdf_lt cdf k r = false).
Proof.
  intros Hnd Hne. unfold sampleIdx.
  set (H := Z.of_nat (List.length cdf) - 1).
  destruct (sampleLoop_inv
              (fun lo hi => 0 <= lo <= hi /\ hi <= H
                 /\ (forall k, 0 <= k < lo -> cdf_lt cdf k r = true)
                 /\ (forall k, hi <= k < H -> cdf_lt cdf k r = false)) cdf r)
    with (lo := 0) (hi := H) as (hi' & Hle & Hr & HH & Hlo & Hhi).
  - intros lo hi Hlt (Hr & HH & Hlo & Hhi) Hc.
    pose proof (shiftr1_bounds lo hi Hlt) as Hm.
    split; [lia|]. split; [exact HH|]. split; [|exact Hhi].
    intros k Hk. apply (cdf_lt_mono cdf r k (Z.shiftr (lo + hi) 1));
      try assumption; unfold H in *; lia.
  - intros lo hi Hlt (Hr & HH & Hlo & Hhi) Hc.
    pose proof (shiftr1_bounds lo hi Hlt) as Hm.
    split; [lia|]. split; [lia|]. split; [exact Hlo|].
    intros k Hk. destruct (cdf_lt cdf k r) eqn:Ek; [|reflexivity].
    rewrite (cdf_lt_mono cdf r (Z.shiftr (lo + hi) 1) k) in Hc;
      try assumption; try discriminate; unfold H in *; lia.
  - split; [unfold H; lia|]. split; [lia|]. split; intros k Hk; lia.
  - split; [lia|]. split; [exact Hlo|].
    intros k Hk. apply Hhi. lia.
Qed.

(** X13. On an array that never decreases the binary search of sampleIdx
    finds a lower bound: every entry before the returned index is smaller
    than the drawn number, and every entry from the returned index on,
    the last entry of the array apart, is at least the drawn number. The
    last entry is never compared. *)
Theorem sampleIdx_lower_bound (cdf : list R) (r : R) :
  nondecreasing cdf ->
  (forall k c, 0 <= k < sampleIdx cdf r -> aget cdf k = Some c -> (c < r)%R)
  /\ (forall k c, sampleIdx cdf r <= k < Z.of_nat (List.length cdf) - 1 ->
                  aget cdf k = Some c -> (r <= c)%R).
Proof.
  intros Hnd. destruct cdf as [|c0 cdf'] eqn:Ecdf.
  - split; intros k c _ Hc; unfold aget in Hc;
      destruct (k <? 0); try discriminate; now destruct (Z.to_nat k).
  - rewrite <- Ecdf in *.
    assert (Hne : 0 < Z.of_nat (List.length cdf))
      by (rewrite Ecdf; cbn [List.length]; lia).
    destruct (sampleIdx_search cdf r Hnd Hne) as (_ & Hlo & Hhi).
    split; intros k c Hk Hc.
    + specialize (Hlo k Hk). unfold cdf_lt in Hlo. rewrite Hc in Hlo.
      destruct (Rlt_dec c r); [assumption|discriminate].
    + specialize (Hhi k Hk). unfold cdf_lt in Hhi. rewrite Hc in Hhi.
      destruct (Rlt_dec c r); [discriminate|lra].
Qed.

Lemma sampleIdx_lower_bound_witness :
  nondecreasing [1 / 4; 1 / 2; 1]%R
  /\ (forall k c, 0 <= k < sampleIdx [1 / 4; 1 / 2; 1]%R (1 / 3) ->
                  aget [1 / 4; 1 / 2; 1]%R k = Some c -> (c < 1 / 3)%R).
Proof.
  assert (Hnd : nondecreasing [1 / 4; 1 / 2; 1]%R).
  { intros i j a b Hij Ha Hb.
    pose proof (aget_Some_lt _ _ _ Ha) as Ri.
    pose proof (aget_Some_lt _ _ _ Hb) as Rj. cbn [List.length] in Ri, Rj.
    assert (Hi : i = 0 \/ i = 1 \/ i = 2) by lia.
    assert (Hj : j = 0 \/ j = 1 \/ j = 2) by lia.
    destruct Hi as [-> | [-> | ->]], Hj as [-> | [-> | ->]]; try lia;
      cbn in Ha, Hb; injection Ha as <-; injection Hb as <-; lra. }
  split; [exact Hnd|].
  exact (proj1 (sampleIdx_lower_bound [1 / 4; 1 / 2; 1]%R (1 / 3) Hnd)).
Defined.

Lemma sample_positive (l : list R) (r : R) :
  Forall (fun x => (0 <= x)%R) l -> (0 < sumR l)%R -> (0 < r <= 1)%R ->
  exists p, aget l (sampleIdx (cdfFromProbs l) r) = Some p /\ (0 < p)%R.
Proof.
  intros Hl Hs Hr.
  assert (Hne : 0 < Z.of_nat (List.length l)).
  { destruct l; [cbn in Hs; lra|cbn [List.length]; lia]. }
  pose proof (cdf_nondecreasing l Hl Hs) as Hnd.
  assert (Hne' : 0 < Z.of_nat (List.length (cdfFromProbs l)))
    by (now rewrite length_cdf).
  assert (Hinv : (0 < / sumR l)%R) by (now apply Rinv_0_lt_compat).
  destruct (sampleIdx_search (cdfFromProbs l) r Hnd Hne') as (Hi & Hlo & Hhi).
  rewrite length_cdf in Hi, Hhi.
  set (idx := sampleIdx (cdfFromProbs l) r) in *.
  destruct (aget_lt_Some l idx ltac:(lia)) as (p & Hp).
  exists p. split; [exact Hp|].
  assert (Hge : (r <= partial_sum l idx / sumR l)%R).
  { destruct (Z.eq_dec idx (Z.of_nat (List.length l) - 1)) as [E|E].
    - rewrite partial_sum_last by lia.
      replace (sumR l / sumR l)%R with 1%R by (field; lra). lra.
    - specialize (Hhi idx ltac:(lia)). unfold cdf_lt in Hhi.
      rewrite cdf_at in Hhi by (assumption || lia).
      destruct (Rlt_dec _ r); [discriminate|lra]. }
  unfold Rdiv in Hge.
  destruct (Z.eq_dec idx 0) as [E0|E0].
  - rewrite E0 in Hge, Hp. rewrite (partial_sum_0 l p Hp) in Hge. nra.
  - rewrite (partial_sum_step l idx p ltac:(lia) Hp) in Hge.
    specialize (Hlo (idx - 1) ltac:(lia)). unfold cdf_lt in Hlo.
    rewrite cdf_at in Hlo by (assumption || lia).
    destruct (Rlt_dec _ r) as [Hlt|]; [|discriminate].
    unfold Rdiv in Hlt. nra.
Qed.

(** X14. A draw r with 0 < r <= 1, searched in the cumulative distribution
    of probabilities that are not negative and have a positive sum,
    selects a basis state whose probability is positive. A draw of exactly
    0 selects index 0 whatever its probability. *)
Theorem sampled_outcome_is_possible (l : list R) :
  Forall (fun x => (0 <= x)%R) l -> (0 < sumR l)%R ->
  (forall r, (0 < r <= 1)%R ->
     exists p, aget l (sampleIdx (cdfFromProbs l) r) = Some p /\ (0 < p)%R)
  /\ sampleIdx (cdfFromProbs l) 0 = 0.
Proof.
  intros Hl Hs.
  assert (Hinv : (0 < / sumR l)%R) by (now apply Rinv_0_lt_compat).
  split.
  - intros r Hr. now apply sample_positive.
  - unfold sampleIdx.
    destruct (sampleLoop_inv (fun lo _ => lo = 0) (cdfFromProbs l) 0)
      with (lo := 0) (hi := Z.of_nat (List.length (cdfFromProbs l)) - 1)
      as (hi' & _ & E); [| |reflexivity|exact E].
    + intros lo hi Hlt -> Hc. exfalso. unfold cdf_lt in Hc.
      destruct (aget (cdfFromProbs l) (Z.shiftr (0 + hi) 1)) as [c|] eqn:Ec;
        [|discriminate].
      pose proof (aget_Some_lt _ _ _ Ec) as Rc. rewrite length_cdf in Rc.
      rewrite cdf_at in Ec by assumption. injection Ec as <-.
      destruct (Rlt_dec _ 0) as [Hlt0|]; [|discriminate].
      destruct (partial_sum_bounds l (Z.shiftr (0 + hi) 1) Hl) as (H0 & _).
      pose proof (Rmult_le_pos _ _ H0 (Rlt_le _ _ Hinv)) as Hpos.
      change (0 + hi) with hi in *. unfold Rdiv in Hlt0. lra.
    + intros lo hi _ -> _. reflexivity.
Qed.

Lemma sampled_outcome_is_possible_witness :
  Forall (fun x => (0 <= x)%R) [0; 1]%R
  /\ (0 < sumR [0; 1])%R
  /\ (exists p, aget [0; 1]%R (sampleIdx (cdfFromProbs [0; 1]%R) (1 / 2)) = Some p
                /\ (0 < p)%R)
  /\ sampleIdx (cdfFromProbs [0; 1]%R) 0 = 0.
Proof.
  assert (Hl : Forall (fun x => (0 <= x)%R) [0; 1]%R)
    by (repeat constructor; lra).
  assert (Hs : (0 < sumR [0; 1])%R) by (cbn; lra).
  split; [exact Hl|]. split; [exact Hs|].
  destruct (sampled_outcome_is_possible [0; 1]%R Hl Hs) as (Hpos & H0).
  split; [apply Hpos; lra|exact H0].
Defined.

(** ** The seeded generator *)

Lemma uint32_unit (k : Z) :
  0 <= k < 2 ^ 32 -> (0 <= IZR k / 4294967296 < 1)%R.
Proof.
  intros Hk.
  assert (H0 : (0 <= IZR k)%R) by (apply IZR_le; lia).
  assert (H1 : (IZR k < 4294967296)%R).
  { change 4294967296%R with (IZR (2 ^ 32)). apply IZR_lt. lia. }
  split.
  - apply Rmult_le_pos; [exact H0|]. apply Rlt_le, Rinv_0_lt_compat. lra.
  - apply Rmult_lt_reg_r with 4294967296%R; [lra|].
    unfold Rdiv. rewrite Rmult_assoc, Rinv_l by lra. lra.
Qed.

Lemma mulberry32_range (a : Z) : (0 <= fst (mulberry32 a) < 1)%R.
Proof.
  unfold mulberry32. cbv zeta. cbn [fst].
  apply uint32_unit. apply Z.mod_pos_bound. lia.
Qed.

(** X15. Whatever its counter, the seeded generator returns a number of
    [0, 1): an integer below 2^32 divided by 2^32. The counter advances by
    0x6D2B79F5, rounded as a JavaScript number. *)
Theorem mulberry32_unit_interval (a : Z) :
  (0 <= fst (mulberry32 a) < 1)%R
  /\ (exists k, 0 <= k < 2 ^ 32 /\ fst (mulberry32 a) = (IZR k / 4294967296)%R)
  /\ snd (mulberry32 a) = round53 (a + 1831565813).
Proof.
  split; [apply mulberry32_range|].
  unfold mulberry32. cbv zeta. cbn [fst snd].
  set (k := toUint32 _).
  assert (Hk : 0 <= k < 2 ^ 32) by (apply Z.mod_pos_bound; lia).
  split; [|reflexivity].
  exists k. split; [exact Hk|reflexivity].
Qed.

(** ** Readout noise *)

Lemma noiseLoop_other (mathRandom : nat -> R) (nz : Noise) (gen : rng) :
  is_depol nz = false -> is_ampdamp nz = false ->
  forall arr, noiseLoop mathRandom arr nz gen = (arr, gen).
Proof.
  unfold is_depol, is_ampdamp. intros Hd Ha.
  induction arr as [|c rest IH]; cbn [noiseLoop]; [reflexivity|].
  rewrite Hd, Ha, IH. reflexivity.
Qed.

Lemma noiseLoop_shape (mathRandom : nat -> R) (nz : Noise) (arr : string) :
  forall gen,
    String.length (fst (noiseLoop mathRandom arr nz gen)) = String.length arr
    /\ (bit_string arr = true ->
        bit_string (fst (noiseLoop mathRandom arr nz gen)) = true).
Proof.
  induction arr as [|c rest IH]; intros gen; cbn [noiseLoop].
  - split; reflexivity.
  - match goal with
    | |- context [let '(c', gen') := ?e in _] =>
        assert (Hc : is_bit c = true -> is_bit (fst e) = true);
        [|destruct e as [c' gen']]
    end.
    { intros Hb.
      destruct ((ntype nz =? "DEPOLARIZING") || (ntype nz =? "depolarizing"))%string.
      - destruct (rand mathRandom gen) as [r gen1]. cbn [fst].
        destruct (Rltb r _); [now destruct (Ascii.eqb c "1")|exact Hb].
      - destruct ((ntype nz =? "AMP-DAMP") || (ntype nz =? "amp-damp"))%string;
          [|exact Hb].
        destruct (Ascii.eqb c "1"); [|exact Hb].
        destruct (rand mathRandom gen) as [r gen1]. cbn [fst].
        destruct (Rltb r _); [reflexivity|exact Hb]. }
    specialize (IH gen'). destruct (noiseLoop mathRandom rest nz gen') as [rest' g''].
    cbn [fst String.length bit_string] in *. destruct IH as (IHl & IHb).
    split; [now rewrite IHl|].
    intros Hb. apply andb_prop in Hb. destruct Hb as (Hb1 & Hb2).
    now rewrite (Hc Hb1), (IHb Hb2).
Qed.

(** X16. Readout noise returns a string as long as the one it is given,
    and a string of 0s and 1s when given one. A noise type other than the
    depolarizing and amplitude-damping spellings (phase damping, an
    unknown or empty type) returns the string as it is and draws no random
    number. *)
Theorem readout_noise_keeps_shape (mathRandom : nat -> R) (bits : string)
  (nz : Noise) (gen : rng) :
  String.length (fst (applyReadoutNoise mathRandom bits nz gen))
  = String.length bits
  /\ (bit_string bits = true ->
      bit_string (fst (applyReadoutNoise mathRandom bits nz gen)) = true)
  /\ (is_depol nz = false -> is_ampdamp nz = false ->
      applyReadoutNoise mathRandom bits nz gen = (bits, gen)).
Proof.
  unfold applyReadoutNoise.
  destruct (ntype nz =? "")%string.
  - cbn [fst]. split; [reflexivity|]. split; [tauto|reflexivity].
  - destruct (noiseLoop_shape mathRandom nz bits gen) as (Hl & Hb).
    split; [exact Hl|]. split; [exact Hb|].
    intros Hd Ha. now apply noiseLoop_other.
Qed.

Lemma readout_noise_keeps_shape_witness :
  bit_string "0110" = true
  /\ is_depol (mkNoise "phase-damp" None None None None) = false
  /\ is_ampdamp (mkNoise "phase-damp" None None None None) = false
  /\ applyReadoutNoise (fun _ => 0%R) "0110"
       (mkNoise "phase-damp" None None None None) (Seeded 1)
     = ("0110"%string, Seeded 1).
Proof.
  split; [reflexivity|]. split; [reflexivity|]. split; [reflexivity|].
  exact (proj2 (proj2 (readout_noise_keeps_shape (fun _ => 0%R) "0110"
                         (mkNoise "phase-damp" None None None None) (Seeded 1)))
           eq_refl eq_refl).
Defined.

Lemma ampdamp_not_depol (nz : Noise) :
  is_ampdamp nz = true -> is_depol nz = false /\ (ntype nz =? "")%string = false.
Proof.
  unfold is_ampdamp, is_depol. intros H. apply orb_prop in H.
  destruct H as [H|H]; apply String.eqb_eq in H; rewrite H; split; reflexivity.
Qed.

Lemma depol_not_empty (nz : Noise) :
  is_depol nz = true -> (ntype nz =? "")%string = false.
Proof.
  unfold is_depol. intros H. apply orb_prop in H.
  destruct H as [H|H]; apply String.eqb_eq in H; rewrite H; reflexivity.
Qed.

Lemma noiseLoop_ampdamp (mathRandom : nat -> R) (nz : Noise) :
  is_ampdamp nz = true ->
  forall arr gen,
    lowered arr (fst (noiseLoop mathRandom arr nz gen))
    /\ forall k, gen = Unseeded k ->
         snd (noiseLoop mathRandom arr nz gen) = Unseeded (k + count_ones arr).
Proof.
  intros Ha. destruct (ampdamp_not_depol nz Ha) as (Hd & _).
  unfold is_ampdamp, is_depol in *.
  induction arr as [|c rest IH]; intros gen; cbn [noiseLoop].
  - cbn. split; [exact I|]. intros k ->. f_equal. lia.
  - rewrite Hd, Ha. cbn [count_ones].
    destruct (Ascii.eqb_spec c "1") as [->|Hc].
    + destruct (rand mathRandom gen) as [r gen1] eqn:Er.
      specialize (IH gen1).
      destruct (noiseLoop mathRandom rest nz gen1) as [rest' g'']. cbn [fst snd] in *.
      destruct IH as (IHl & IHg). split.
      * cbn [lowered]. split; [|exact IHl].
        destruct (Rltb r _); [right; now split|now left].
      * intros k ->. cbn [rand] in Er. injection Er as _ <-.
        rewrite (IHg (S k) eq_refl). f_equal. lia.
    + specialize (IH gen).
      destruct (noiseLoop mathRandom rest nz gen) as [rest' g'']. cbn [fst snd] in *.
      destruct IH as (IHl & IHg). split.
      * cbn [lowered]. split; [now left|exact IHl].
      * intros k ->. rewrite (IHg k eq_refl). f_equal.
Qed.

(** X17. Amplitude-damping readout noise only lowers bits: every character
    of the result is the character of the input, or a 0 where the input
    had a 1; no 1 is ever created. It draws one random number for each 1
    of the input and none for the other characters. *)
Theorem amplitude_damping_only_lowers (mathRandom : nat -> R) (bits : string)
  (nz : Noise) (gen : rng) :
  is_ampdamp nz = true ->
  lowered bits (fst (applyReadoutNoise mathRandom bits nz gen))
  /\ forall k, gen = Unseeded k ->
       snd (applyReadoutNoise mathRandom bits nz gen)
       = Unseeded (k + count_ones bits).
Proof.
  intros Ha. destruct (ampdamp_not_depol nz Ha) as (_ & Hne).
  unfold applyReadoutNoise. rewrite Hne.
  destruct (noiseLoop_ampdamp mathRandom nz Ha bits gen) as (Hl & Hg).
  split; [exact Hl|exact Hg].
Qed.

Lemma amplitude_damping_only_lowers_witness :
  is_ampdamp (mkNoise "amp-damp" None None (Some 1%R) None) = true
  /\ lowered "101"
       (fst (applyReadoutNoise (fun _ => 0%R) "101"
               (mkNoise "amp-damp" None None (Some 1%R) None) (Unseeded 0)))
  /\ snd (applyReadoutNoise (fun _ => 0%R) "101"
            (mkNoise "amp-damp" None None (Some 1%R) None) (Unseeded 0))
     = Unseeded 2.
Proof.
  split; [reflexivity|].
  destruct (amplitude_damping_only_lowers (fun _ => 0%R) "101"
              (mkNoise "amp-damp" None None (Some 1%R) None) (Unseeded 0)
              eq_refl) as (Hl & Hg).
  split; [exact Hl|exact (Hg 0%nat eq_refl)].
Defined.

(** ** Noise strengths at the ends of the scale *)

Lemma rand_unit (mathRandom : nat -> R) (gen : rng) :
  (forall k, (0 <= mathRandom k < 1)%R) ->
  (0 <= fst (rand mathRandom gen) < 1)%R.
Proof.
  intros Hmr. destruct gen as [a|k]; cbn [rand].
  - pose proof (mulberry32_range a) as Hr.
    destruct (mulberry32 a) as [r a']. exact Hr.
  - apply Hmr.
Qed.

Lemma Rltb_false (r x : R) : (0 <= r)%R -> (x <= 0)%R -> Rltb r x = false.
Proof. intros Hr Hx. unfold Rltb. destruct (Rlt_dec r x); [lra|reflexivity]. Qed.

Lemma Rltb_true (r x : R) : (r < 1)%R -> (1 <= x)%R -> Rltb r x = true.
Proof. intros Hr Hx. unfold Rltb. destruct (Rlt_dec r x); [reflexivity|lra]. Qed.

Section NoiseEnds.

Variable mathRandom : nat -> R.
Hypothesis Hmr : forall k, (0 <= mathRandom k < 1)%R.
Variable nz : Noise.

Lemma noiseLoop_depol (arr : string) :
  is_depol nz = true ->
  forall gen,
    ((numOr0 (orElse (p nz) (prob nz)) <= 0)%R ->
     fst (noiseLoop mathRandom arr nz gen) = arr)
    /\ ((1 <= numOr0 (orElse (p nz) (prob nz)))%R ->
        fst (noiseLoop mathRandom arr nz gen) = flipped arr).
Proof.
  unfold is_depol. intros Hd.
  induction arr as [|c rest IH]; intros gen; cbn [noiseLoop].
  - split; reflexivity.
  - rewrite Hd. pose proof (rand_unit mathRandom gen Hmr) as Hr.
    destruct (rand mathRandom gen) as [r gen1]. cbn [fst] in Hr.
    specialize (IH gen1).
    destruct (noiseLoop mathRandom rest nz gen1) as [rest' g'']. cbn [fst] in *.
    destruct IH as (IH0 & IH1). split; intros Hp.
    + rewrite Rltb_false by lra. now rewrite IH0.
    + rewrite Rltb_true by lra. cbn [flipped]. now rewrite IH1.
Qed.

Lemma noiseLoop_damp (arr : string) :
  is_ampdamp nz = true ->
  forall gen,
    ((numOr0 (orElse (gamma nz) (g nz)) <= 0)%R ->
     fst (noiseLoop mathRandom arr nz gen) = arr)
    /\ ((1 <= numOr0 (orElse (gamma nz) (g nz)))%R ->
        fst (noiseLoop mathRandom arr nz gen) = damped arr).
Proof.
  intros Ha. destruct (ampdamp_not_depol nz Ha) as (Hd & _).
  unfold is_ampdamp, is_depol in *.
  induction arr as [|c rest IH]; intros gen; cbn [noiseLoop].
  - split; reflexivity.
  - rewrite Hd, Ha. cbn [damped].
    destruct (Ascii.eqb_spec c "1") as [->|Hc].
    + pose proof (rand_unit mathRandom gen Hmr) as Hr.
      destruct (rand mathRandom gen) as [r gen1]. cbn [fst] in Hr.
      specialize (IH gen1).
      destruct (noiseLoop mathRandom rest nz gen1) as [rest' g'']. cbn [fst] in *.
      destruct IH as (IH0 & IH1). split; intros Hp.
      * rewrite Rltb_false by lra. now rewrite IH0.
      * rewrite Rltb_true by lra. now rewrite IH1.
    + specialize (IH gen).
      destruct (noiseLoop mathRandom rest nz gen) as [rest' g'']. cbn [fst] in *.
      destruct IH as (IH0 & IH1). split; intros Hp.
      * now rewrite IH0.
      * now rewrite IH1.
Qed.

End NoiseEnds.

(** X18. With random numbers drawn from [0, 1), as the seeded generator
    and Math.random give them: depolarizing noise of strength p <= 0 (a
    missing p counts as 0) returns the bit string unchanged and of
    strength p >= 1 flips every character; amplitude damping of strength
    gamma <= 0 returns it unchanged and of strength gamma >= 1 turns every
    1 into 0. *)
Theorem noise_strength_ends (mathRandom : nat -> R) (bits : string)
  (nz : Noise) (gen : rng) :
  (forall k, (0 <= mathRandom k < 1)%R) ->
  (is_depol nz = true ->
     ((numOr0 (orElse (p nz) (prob nz)) <= 0)%R ->
      fst (applyReadoutNoise mathRandom bits nz gen) = bits)
     /\ ((1 <= numOr0 (orElse (p nz) (prob nz)))%R ->
         fst (applyReadoutNoise mathRandom bits nz gen) = flipped bits))
  /\ (is_ampdamp nz = true ->
        ((numOr0 (orElse (gamma nz) (g nz)) <= 0)%R ->
         fst (applyReadoutNoise mathRandom bits nz gen) = bits)
        /\ ((1 <= numOr0 (orElse (gamma nz) (g nz)))%R ->
            fst (applyReadoutNoise mathRandom bits nz gen) = damped bits)).
Proof.
  intros Hmr. unfold applyReadoutNoise. split.
  - intros Hd. rewrite (depol_not_empty nz Hd).
    exact (noiseLoop_depol mathRandom Hmr nz bits Hd gen).
  - intros Ha. destruct (ampdamp_not_depol nz Ha) as (_ & Hne). rewrite Hne.
    exact (noiseLoop_damp mathRandom Hmr nz bits Ha gen).
Qed.

Lemma noise_strength_ends_witness :
  (forall k : nat, (0 <= (fun _ : nat => 0%R) k < 1)%R)
  /\ is_depol (mkNoise "depolarizing" None (Some 1%R) None None) = true
  /\ (1 <= numOr0 (orElse None (Some 1%R)))%R
  /\ fst (applyReadoutNoise (fun _ => 0%R) "0110"
            (mkNoise "depolarizing" None (Some 1%R) None None) (Seeded 7))
     = flipped "0110".
Proof.
  assert (Hmr : forall k : nat, (0 <= (fun _ : nat => 0%R) k < 1)%R)
    by (intros k; lra).
  assert (Hp : (1 <= numOr0 (orElse None (Some 1%R)))%R) by (cbn; lra).
  split; [exact Hmr|]. split; [reflexivity|]. split; [exact Hp|].
  exact (proj2 (proj1 (noise_strength_ends (fun _ => 0%R) "0110"
                         (mkNoise "depolarizing" None (Some 1%R) None None)
                         (Seeded 7) Hmr) eq_refl) Hp).
Defined.

(** ** The counts of the shots *)

Lemma counts_set_counted (m : counts_t) (k : string) :
  counted (counts_set m k
             ((match counts_get m k with Some v => v | None => 0 end) + 1))
  = counted m + 1.
Proof.
  induction m as [|[k' v'] m IH]; cbn [counts_set counts_get].
  - cbn. lia.
  - destruct (k' =? k)%string.
    + unfold counted; cbn [fold_right snd]. lia.
    + unfold counted in *; cbn [fold_right snd]. rewrite IH. lia.
Qed.

Lemma counts_set_keys (m : counts_t) (k : string) (v : Z) (x : string) :
  In x (map fst (counts_set m k v)) -> x = k \/ In x (map fst m).
Proof.
  induction m as [|[k' v'] m IH]; cbn [counts_set map fst In].
  - intros [<-|[]]. now left.
  - destruct (k' =? k)%string; cbn [map fst In].
    + intros [<-|H]; [now left|now right; right].
    + intros [<-|H]; [now right; left|].
      destruct (IH H) as [->|H']; [now left|now right; right].
Qed.

Lemma counts_set_NoDup (m : counts_t) (k : string) (v : Z) :
  NoDup (map fst m) -> NoDup (map fst (counts_set m k v)).
Proof.
  induction m as [|[k' v'] m IH]; cbn [counts_set map fst]; intros Hnd.
  - constructor; [intros []|constructor].
  - inversion Hnd as [|? ? Hni Hnd']; subst.
    destruct (String.eqb_spec k' k) as [->|Hne]; cbn [map fst].
    + now constructor.
    + constructor; [|now apply IH].
      intros Hin. apply counts_set_keys in Hin. destruct Hin as [->|Hin];
        [now apply Hne|now apply Hni].
Qed.

Lemma counts_set_Forall (P : string * Z -> Prop) (m : counts_t) (k : string)
  (v : Z) :
  Forall P m -> P (k, v) -> Forall P (counts_set m k v).
Proof.
  intros Hm Hk. induction Hm as [|[k' v'] m Hx Hm IH]; cbn [counts_set].
  - now repeat constructor.
  - destruct (k' =? k)%string; constructor; assumption.
Qed.

Lemma counts_get_Forall (P : string * Z -> Prop) (m : counts_t) (k : string)
  (v : Z) :
  Forall P m -> counts_get m k = Some v -> exists k', P (k', v).
Proof.
  intros Hm. induction Hm as [|[k' v'] m Hx Hm IH]; cbn [counts_get].
  - discriminate.
  - destruct (k' =? k)%string; [|exact IH].
    intros H. injection H as <-. now exists k'.
Qed.

(** *** The keys *)

Lemma string_length_app (s t : string) :
  String.length (s ++ t) = (String.length s + String.length t)%nat.
Proof.
  induction s as [|c s IH]; cbn [String.append String.length];
    [reflexivity|now rewrite IH].
Qed.

Lemma bit_string_app (s t : string) :
  bit_string s = true -> bit_string t = true -> bit_string (s ++ t) = true.
Proof.
  intros Hs Ht. induction s as [|c s IH]; cbn [String.append bit_string] in *;
    [exact Ht|].
  apply andb_prop in Hs. destruct Hs as (Hc & Hs). now rewrite Hc, IH.
Qed.

Lemma pos_bits_shape (x : positive) :
  bit_string (pos_bits x) = true
  /\ forall n : nat, Z.pos x < 2 ^ Z.of_nat n ->
       (String.length (pos_bits x) <= n)%nat.
Proof.
  induction x as [x IH|x IH|]; cbn [pos_bits].
  - destruct IH as (Hb & Hl). split; [now apply bit_string_app|].
    intros [|n] Hx; [cbn in Hx; lia|].
    rewrite string_length_app. cbn [String.length].
    rewrite Nat2Z.inj_succ, Z.pow_succ_r in Hx by lia.
    specialize (Hl n ltac:(lia)). lia.
  - destruct IH as (Hb & Hl). split; [now apply bit_string_app|].
    intros [|n] Hx; [cbn in Hx; lia|].
    rewrite string_length_app. cbn [String.length].
    rewrite Nat2Z.inj_succ, Z.pow_succ_r in Hx by lia.
    specialize (Hl n ltac:(lia)). lia.
  - split; [reflexivity|]. intros [|n] Hx; [cbn in Hx; lia|cbn; lia].
Qed.

Lemma zeros_shape (k : nat) :
  bit_string (zeros k) = true /\ String.length (zeros k) = k.
Proof.
  induction k as [|k (Hb & Hl)]; cbn [zeros bit_string String.length].
  - now split.
  - rewrite Hb, Hl. now split.
Qed.

Lemma key_of_index (n idx : Z) :
  0 <= n -> 0 <= idx < 2 ^ n -> key_ok n (padStart n (toString2 idx)).
Proof.
  intros Hn Hi. unfold key_ok, padStart.
  destruct (zeros_shape (Z.to_nat n - String.length (toString2 idx))) as (Zb & Zl).
  assert (Hs : bit_string (toString2 idx) = true
               /\ (1 <= String.length (toString2 idx) <= Z.to_nat (Z.max n 1))%nat).
  { destruct idx as [|x|x]; cbn [toString2]; [cbn; split; [reflexivity|lia]| |lia].
    destruct (pos_bits_shape x) as (Hb & Hl). split; [exact Hb|].
    specialize (Hl (Z.to_nat n)). rewrite Z2Nat.id in Hl by lia.
    specialize (Hl ltac:(lia)).
    assert (1 <= String.length (pos_bits x))%nat.
    { destruct x; cbn [pos_bits]; rewrite ?string_length_app; cbn; lia. }
    lia. }
  destruct Hs as (Hb & Hl).
  split; [now apply bit_string_app|].
  rewrite string_length_app, Zl. lia.
Qed.

Lemma sampleIdx_lt (cdf : list R) (r : R) :
  0 < Z.of_nat (List.length cdf) ->
  0 <= sampleIdx cdf r < Z.of_nat (List.length cdf).
Proof.
  intros Hne. unfold sampleIdx.
  destruct (sampleLoop_inv
              (fun lo hi => 0 <= lo <= hi /\ hi < Z.of_nat (List.length cdf))
              cdf r)
    with (lo := 0) (hi := Z.of_nat (List.length cdf) - 1)
    as (hi' & Hle & Hr & Hh).
  - intros lo hi Hlt (Hr & Hh) _.
    pose proof (shiftr1_bounds lo hi Hlt). lia.
  - intros lo hi Hlt (Hr & Hh) _.
    pose proof (shiftr1_bounds lo hi Hlt). lia.
  - lia.
  - lia.
Qed.

Lemma noisy_key (mathRandom : nat -> R) (n : Z) (bits : string) (nz : Noise)
  (gen : rng) :
  key_ok n bits -> key_ok n (fst (applyReadoutNoise mathRandom bits nz gen)).
Proof.
  intros (Hb & Hl). unfold applyReadoutNoise.
  destruct (ntype nz =? "")%string; [now split|].
  destruct (noiseLoop_shape mathRandom nz bits gen) as (Hl' & Hb').
  split; [now apply Hb'|now rewrite Hl'].
Qed.

Lemma shot_inv (mathRandom : nat -> R) (n : Z) (nz : option Noise)
  (cdf : list R) (cnt : counts_t) (gen : rng) (i : Z) :
  0 <= n -> Z.of_nat (List.length cdf) = 2 ^ n ->
  counted cnt = i /\ NoDup (map fst cnt)
  /\ Forall (fun kv => 0 < snd kv /\ key_ok n (fst kv)) cnt ->
  let cnt' := fst (shot mathRandom n nz cdf (cnt, gen)) in
  counted cnt' = i + 1 /\ NoDup (map fst cnt')
  /\ Forall (fun kv => 0 < snd kv /\ key_ok n (fst kv)) cnt'.
Proof.
  intros Hn Hlen (Hc & Hnd & Hall). unfold shot.
  destruct (rand mathRandom gen) as [r gen1].
  assert (Hp : 0 < 2 ^ n) by (apply Z.pow_pos_nonneg; lia).
  pose proof (sampleIdx_lt cdf r ltac:(lia)) as Hidx. rewrite Hlen in Hidx.
  pose proof (key_of_index n (sampleIdx cdf r) Hn Hidx) as Hkey.
  set (bits := padStart n (toString2 (sampleIdx cdf r))) in *.
  assert (Hk' : forall b, b = match nz with
                   | Some nz0 => if (ntype nz0 =? "")%string then (bits, gen1)
                                 else applyReadoutNoise mathRandom bits nz0 gen1
                   | None => (bits, gen1)
                   end -> key_ok n (fst b)).
  { intros b ->. destruct nz as [nz0|]; [|exact Hkey].
    destruct (ntype nz0 =? "")%string; [exact Hkey|now apply noisy_key]. }
  specialize (Hk' _ eq_refl).
  destruct (match nz with Some _ => _ | None => _ end) as [bits' gen2].
  cbn [fst] in *.
  assert (Hv : 0 <= match counts_get cnt bits' with Some v => v | None => 0 end).
  { destruct (counts_get cnt bits') as [v|] eqn:Eg; [|lia].
    destruct (counts_get_Forall _ cnt bits' v Hall Eg) as (k' & Hpos & _).
    cbn [snd] in Hpos. lia. }
  split; [rewrite counts_set_counted; lia|].
  split; [now apply counts_set_NoDup|].
  apply counts_set_Forall; [exact Hall|]. cbn [fst snd]. split; [lia|exact Hk'].
Qed.

(** X19. For a circuit of at most 30 qubits, when the shot count (clamped
    at 0 and truncated to 32 bits) is positive the returned counts add up
    to that number of shots, hold each key once with a positive count, and
    every key is a string of 0s and 1s with one character per qubit (one
    character for a circuit without qubits), with or without readout
    noise. Otherwise no counts are returned. *)
Theorem counts_account_for_shots (mathRandom : nat -> R) (ir : IR)
  (opts : Opts) :
  qubitsOf ir <= 30 ->
  exists r, simulateCircuit mathRandom ir opts = Ok r
    /\ if 0 <? nshotsOf opts
       then exists cnt, counts r = Some cnt
              /\ counted cnt = nshotsOf opts
              /\ NoDup (map fst cnt)
              /\ Forall (fun kv => 0 < snd kv
                                   /\ key_ok (qubitsOf ir) (fst kv)) cnt
       else counts r = None.
Proof.
  intros Hq.
  destruct (evolveCircuit_norm ir Hq) as (psi & ent & He & Hlen & _).
  destruct (postSelect_cases (ops ir) (qubitsOf ir) psi)
    as (psi' & pp & Hp & Hl & _).
  pose proof (qubitsOf_bounds ir) as Hn.
  unfold simulateCircuit. rewrite He. cbn [bind]. rewrite Hp. cbn [bind].
  fold (nshotsOf opts).
  destruct (Z.ltb_spec 0 (nshotsOf opts)) as [Hs|Hs].
  - match goal with
    | |- context [for_loop ?sz ?body ?s0] =>
        destruct (for_loop_inv
          (fun i s => counted (fst s) = i /\ NoDup (map fst (fst s))
             /\ Forall (fun kv => 0 < snd kv /\ key_ok (qubitsOf ir) (fst kv))
                  (fst s)) body sz s0) as (s' & Hloop & Hinv)
    end.
    + lia.
    + cbn. split; [reflexivity|]. split; constructor.
    + intros j [cnt gen] Hj Hinv. eexists. split; [reflexivity|].
      cbn [fst] in Hinv. apply shot_inv; try assumption; try lia.
      now rewrite length_cdf, length_map, Hl.
    + rewrite Hloop. cbn [bind]. eexists. split; [reflexivity|].
      cbn [counts]. exists (fst s'). split; [reflexivity|exact Hinv].
  - cbn [bind]. eexists. split; [reflexivity|]. reflexivity.
Qed.

Lemma counts_account_for_shots_witness :
  qubitsOf bell <= 30
  /\ exists r, simulateCircuit (fun _ => 0%R) bell
                 (mkOpts (Some 3) (Some 1) None) = Ok r
       /\ exists cnt, counts r = Some cnt /\ counted cnt = 3.
Proof.
  split; [cbn; lia|].
  destruct (counts_account_for_shots (fun _ => 0%R) bell
              (mkOpts (Some 3) (Some 1) None) ltac:(cbn; lia))
    as (r & E & Hc).
  exists r. split; [exact E|].
  change (0 <? nshotsOf (mkOpts (Some 3) (Some 1) None)) with true in Hc.
  destruct Hc as (cnt & Hcnt & Hsum & _).
  exists cnt. split; [exact Hcnt|exact Hsum].
Defined.

(** ** Operations that do not count *)

Lemma find_filter_sub {A : Type} (f g : A -> bool) (l : list A) :
  (forall x, f x = true -> g x = true) ->
  find f (filter g l) = find f l.
Proof.
  intros H. induction l as [|x l IH]; cbn [filter find]; [reflexivity|].
  destruct (g x) eqn:Eg; cbn [find].
  - now rewrite IH.
  - destruct (f x) eqn:Ef; [|exact IH].
    rewrite (H x Ef) in Eg. discriminate.
Qed.

(** X20. Only gates and post-selection notes matter to the simulation:
    the operations of any other type (measurements, oracles, algorithm
    blocks, other notes) can be dropped from the list, wherever they
    stand, without changing anything in the result. *)
Theorem only_gates_and_postselect_matter (mathRandom : nat -> R)
  (q : option Z) (l : list Op) (opts : Opts) :
  simulateCircuit mathRandom (mkIR q l) opts
  = simulateCircuit mathRandom (mkIR q (filter relevant l)) opts.
Proof.
  assert (Hg : forall x, is_gate x = true -> relevant x = true).
  { intros x Hx. unfold relevant. now rewrite Hx. }
  assert (Hk : forall x, known_gate x = true -> relevant x = true).
  { intros x Hx. apply Hg. now apply known_is_gate. }
  assert (Hp : forall x, is_postselect x = true -> relevant x = true).
  { intros x Hx. unfold relevant. rewrite Hx. apply orb_true_r. }
  rewrite (simulate_congr mathRandom q l (filter relevant l) opts).
  - apply rmap_with_ops_id. intros r Hr.
    rewrite (simulate_ops _ _ _ _ Hr). cbn [ops].
    now rewrite (filter_filter_sub is_gate relevant l Hg).
  - symmetry. now apply filter_filter_sub.
  - symmetry. now apply find_filter_sub.
Qed.

(** ** Circuits without a simulated gate *)

Lemma norm2_ground (k : nat) :
  map norm2 (map (fun i => if Nat.eqb i 0 then C 1 0 else C 0 0) (seq 0 k))
  = map (fun i => if Nat.eqb i 0 then 1%R else 0%R) (seq 0 k).
Proof.
  rewrite map_map. apply map_ext. intros i.
  destruct (Nat.eqb i 0); unfold norm2; cbn [re im]; ring.
Qed.

Lemma filter_none {A : Type} (f : A -> bool) (l : list A) :
  Forall (fun x => f x = false) l -> filter f l = [].
Proof.
  induction 1 as [|x l Hx _ IH]; cbn [filter]; [reflexivity|].
  now rewrite Hx.
Qed.

(** X21. A circuit of at most 30 qubits in which no operation is
    dispatched to a kernel (no gate, or only gates with a reference the
    simulator has no case for) and that holds no post-selection note stays
    in the state |0...0>: probability 1 at index 0 and 0 elsewhere, the
    entangled-likely flag down and no post-selection probability. *)
Theorem idle_circuit_stays_ground (mathRandom : nat -> R) (ir : IR)
  (opts : Opts) :
  qubitsOf ir <= 30 ->
  Forall (fun o => known_gate o = false) (ops ir) ->
  find is_postselect (ops ir) = None ->
  exists r, simulateCircuit mathRandom ir opts = Ok r
    /\ probs r = ground (2 ^ qubitsOf ir)
    /\ entangledLikely r = false
    /\ postSelectProb r = None.
Proof.
  intros Hq Hall Hfind. pose proof (qubitsOf_bounds ir Hq) as Hn.
  pose proof (filter_none known_gate (ops ir) Hall) as Hf.
  assert (He : evolveCircuit ir
               = Ok (map (fun i => if Nat.eqb i 0 then C 1 0 else C 0 0)
                       (seq 0 (Z.to_nat (2 ^ qubitsOf ir))), false)).
  { unfold evolveCircuit. rewrite shl32_small by lia. unfold init_state.
    destruct (Z.ltb_spec (2 ^ qubitsOf ir) 0) as [Hneg|_];
      [pose proof (Z.pow_pos_nonneg 2 (qubitsOf ir)); lia|].
    cbn [bind]. rewrite evolve_filter, filter_sort, Hf. reflexivity. }
  assert (Hp : postSelect (ops ir) (qubitsOf ir)
                 (map (fun i => if Nat.eqb i 0 then C 1 0 else C 0 0)
                    (seq 0 (Z.to_nat (2 ^ qubitsOf ir))))
               = Ok (map (fun i => if Nat.eqb i 0 then C 1 0 else C 0 0)
                       (seq 0 (Z.to_nat (2 ^ qubitsOf ir))), None)).
  { unfold postSelect. now rewrite Hfind. }
  destruct (simulate_ok mathRandom ir opts _ _ _ _ He Hp) as (cnt & Hs).
  eexists. split; [exact Hs|]. cbn [probs entangledLikely postSelectProb].
  split; [apply norm2_ground|]. split; reflexivity.
Qed.

Lemma idle_circuit_stays_ground_witness :
  qubitsOf (mkIR (Some 1) [opFoo]) <= 30
  /\ Forall (fun o => known_gate o = false) (ops (mkIR (Some 1) [opFoo]))
  /\ find is_postselect (ops (mkIR (Some 1) [opFoo])) = None
  /\ exists r, simulateCircuit (fun _ => 0%R) (mkIR (Some 1) [opFoo])
                 (mkOpts None None None) = Ok r
       /\ probs r = ground (2 ^ 1).
Proof.
  assert (Hq : qubitsOf (mkIR (Some 1) [opFoo]) <= 30) by (cbn; lia).
  assert (Ha : Forall (fun o => known_gate o = false) (ops (mkIR (Some 1) [opFoo])))
    by (repeat constructor).
  split; [exact Hq|]. split; [exact Ha|]. split; [reflexivity|].
  destruct (idle_circuit_stays_ground (fun _ => 0%R) (mkIR (Some 1) [opFoo])
              (mkOpts None None None) Hq Ha eq_refl) as (r & E & P & _).
  exists r. split; [exact E|exact P].
Defined.

(** ** The order of evolution *)

Lemma insert_perm (x : Op) (l : list Op) : Permutation (x :: l) (insert_op x l).
Proof.
  induction l as [|y l IH]; cbn [insert_op]; [reflexivity|].
  destruct (tickOf y <? tickOf x); [|reflexivity].
  rewrite perm_swap. now constructor.
Qed.

Lemma sort_perm (l : list Op) : Permutation l (sort_ops l).
Proof.
  induction l as [|x l IH]; cbn [sort_ops fold_right]; [constructor|].
  fold (sort_ops l). rewrite <- insert_perm. now constructor.
Qed.

Lemma sort_sorted_id (l : list Op) :
  StronglySorted le_tick l -> sort_ops l = l.
Proof.
  induction 1 as [|x l Hs IH Hx]; [reflexivity|].
  cbn [sort_ops fold_right]. fold (sort_ops l). rewrite IH.
  now apply insert_front.
Qed.

Lemma same_tick_sorted (t : Z) (l : list Op) :
  Forall (fun o => tickOf o = t) l -> StronglySorted le_tick l.
Proof.
  induction 1 as [|x l Hx Hl IH]; constructor; [exact IH|].
  apply Forall_forall. intros y Hy. unfold le_tick.
  rewrite Forall_forall in Hl. rewrite Hx, (Hl y Hy). lia.
Qed.

(** X22. The evolution order is a stable sort by tick (a missing tick
    counts as 0): the operations are applied in an order that is a
    rearrangement of the list with ticks never decreasing, operations of
    equal tick keep the order they have in the list, and a list whose
    ticks never decrease is evolved as it stands. *)
Theorem evolution_order_is_stable (l : list Op) :
  Permutation l (sort_ops l)
  /\ StronglySorted le_tick (sort_ops l)
  /\ (forall t, filter (fun o => tickOf o =? t) (sort_ops l)
                = filter (fun o => tickOf o =? t) l)
  /\ (StronglySorted le_tick l ->
      forall q, evolveCircuit (mkIR q l)
                = (psi <- init_state (shl32 1 (qubitsOf (mkIR q l))) ;;
                   evolve (qubitsOf (mkIR q l)) l (psi, false))).
Proof.
  split; [apply sort_perm|]. split; [apply sort_sorted|]. split.
  - intros t. rewrite filter_sort. apply sort_sorted_id.
    apply (same_tick_sorted t). apply Forall_forall. intros o Ho.
    apply filter_In in Ho. destruct Ho as (_ & Ho). now apply Z.eqb_eq.
  - intros Hs q. unfold evolveCircuit. cbn [ops].
    now rewrite (sort_sorted_id l Hs).
Qed.

Lemma evolution_order_is_stable_witness :
  StronglySorted le_tick [opH; opCX]
  /\ evolveCircuit (mkIR (Some 2) [opH; opCX])
     = (psi <- init_state (shl32 1 (qubitsOf (mkIR (Some 2) [opH; opCX]))) ;;
        evolve (qubitsOf (mkIR (Some 2) [opH; opCX])) [opH; opCX] (psi, false)).
Proof.
  assert (Hs : StronglySorted le_tick [opH; opCX]).
  { repeat constructor. unfold le_tick. cbn. lia. }
  split; [exact Hs|].
  exact (proj2 (proj2 (proj2 (evolution_order_is_stable [opH; opCX]))) Hs (Some 2)).
Defined.

(** ** The target checks *)

(** X23. The kernels' target checks accept exactly the targets that are
    integers inside the register and pairwise distinct: one such target
    for apply1 and post-selection, two for the 2-qubit kernels, three for
    the 3-qubit kernels. *)
Theorem target_checks_exact (n : Z) (a b c : jsnum) :
  ((exists z, valid1 n a = Some z) <-> in_range n a)
  /\ (valid2 n a b = true <-> well_targeted n [a; b])
  /\ (valid3 n a b c = true <-> well_targeted n [a; b; c]).
Proof.
  split; [|split].
  - split.
    + intros (z & Hz). apply valid1_Some in Hz. destruct Hz as (-> & Hz).
      now exists z.
    + intros (z & -> & Hz). exists z. cbn.
      destruct (Z.ltb_spec z 0); [lia|].
      destruct (Z.geb_spec z n); [lia|reflexivity].
  - split.
    + intros H. apply valid2_true in H.
      destruct H as (x & y & -> & -> & Hx & Hy & Hne). split.
      * repeat constructor; eexists; split; try reflexivity; assumption.
      * repeat constructor; cbn; intuition congruence.
    + intros H. destruct (valid2 n a b) eqn:E; [reflexivity|].
      destruct H as (Hr & Hnd).
      inversion Hr as [|? ? (x & -> & Hx) Hr']; subst.
      inversion Hr' as [|? ? (y & -> & Hy) _]; subst.
      inversion Hnd as [|? ? Hni _]; subst.
      assert (x <> y) by (intros ->; apply Hni; now left).
      cbn in E.
      destruct (Z.leb_spec 0 x), (Z.leb_spec 0 y), (Z.ltb_spec x n),
        (Z.ltb_spec y n), (Z.eqb_spec x y); cbn in E; try lia; discriminate.
  - split.
    + intros H. apply valid3_true in H.
      destruct H as (x & y & z & -> & -> & -> & Hx & Hy & Hz & N1 & N2 & N3).
      split.
      * repeat constructor; eexists; split; try reflexivity; assumption.
      * repeat constructor; cbn; intuition congruence.
    + intros H. destruct (valid3 n a b c) eqn:E; [reflexivity|].
      destruct H as (Hr & Hnd).
      inversion Hr as [|? ? (x & -> & Hx) Hr']; subst.
      inversion Hr' as [|? ? (y & -> & Hy) Hr'']; subst.
      inversion Hr'' as [|? ? (z & -> & Hz) _]; subst.
      inversion Hnd as [|? ? Hni Hnd']; subst.
      inversion Hnd' as [|? ? Hni' _]; subst.
      assert (x <> y) by (intros ->; apply Hni; now left).
      assert (x <> z) by (intros ->; apply Hni; right; now left).
      assert (y <> z) by (intros ->; apply Hni'; now left).
      cbn in E.
      destruct (Z.leb_spec 0 x), (Z.leb_spec 0 y), (Z.leb_spec 0 z),
        (Z.ltb_spec x n), (Z.ltb_spec y n), (Z.ltb_spec z n),
        (Z.eqb_spec x y), (Z.eqb_spec x z), (Z.eqb_spec y z);
        cbn in E; try lia; discriminate.
Qed.

(** * Properties of the builder's text helper *)

Lemma forallb_app (f : ascii -> bool) (s t : string) :
  string_forallb f (s ++ t) = (string_forallb f s && string_forallb f t)%bool.
Proof.
  induction s as [|c s IH]; cbn [String.append string_forallb];
    [reflexivity|]. now rewrite IH, andb_assoc.
Qed.

Lemma string_app_assoc (a b c : string) : ((a ++ b) ++ c = a ++ (b ++ c))%string.
Proof.
  induction a as [|x a IH]; cbn [String.append]; [reflexivity|now rewrite IH].
Qed.

Ltac split_char c :=
  destruct (Ascii.eqb_spec c "&") as [->|?];
  [|destruct (Ascii.eqb_spec c "<") as [->|?];
    [|destruct (Ascii.eqb_spec c ">") as [->|?];
      [|destruct (Ascii.eqb_spec c dquote) as [->|?];
        [|destruct (Ascii.eqb_spec c "'") as [->|?]]]]].

Lemma escape_char_clean (c : ascii) :
  string_forallb (fun x => negb (html_delimiter x)) (escape_char c) = true.
Proof.
  unfold escape_char. split_char c; try reflexivity.
  cbn [string_forallb]. unfold html_delimiter.
  repeat match goal with
         | H : c <> _ |- _ => apply Ascii.eqb_neq in H; rewrite H; clear H
         end.
  reflexivity.
Qed.

Lemma escape_char_plain (c : ascii) :
  html_special c = false -> escape_char c = String c EmptyString.
Proof.
  unfold html_special, escape_char. intros H.
  repeat (apply orb_false_iff in H; destruct H as (H & ?)).
  repeat match goal with
         | E : Ascii.eqb c _ = false |- _ => rewrite E; clear E
         end.
  reflexivity.
Qed.

Lemma escapeHtml_inj (s : string) :
  forall t, escapeHtml s = escapeHtml t -> s = t.
Proof.
  induction s as [|c s IH]; intros [|d t]; cbn [escapeHtml].
  - reflexivity.
  - unfold escape_char. split_char d; discriminate.
  - unfold escape_char. split_char c; discriminate.
  - unfold escape_char. split_char c; split_char d; cbn [String.append];
      intros H; try discriminate H; injection H; intros; subst;
      try congruence; f_equal; auto.
Qed.

(** X24. escapeHtml leaves none of the characters that open or close
    markup or an attribute value (less-than, greater-than, double and
    single quote) in its result, loses no information (two different
    strings have different results), acts character by character, and
    returns a string without any of the five special characters as it
    is. *)
Theorem escapeHtml_safe_and_lossless (s t : string) :
  string_forallb (fun x => negb (html_delimiter x)) (escapeHtml s) = true
  /\ (escapeHtml s = escapeHtml t -> s = t)
  /\ escapeHtml (s ++ t) = (escapeHtml s ++ escapeHtml t)%string
  /\ (string_forallb (fun x => negb (html_special x)) s = true ->
      escapeHtml s = s).
Proof.
  split; [|split; [apply escapeHtml_inj|split]].
  - induction s as [|c s IH]; cbn [escapeHtml]; [reflexivity|].
    now rewrite forallb_app, escape_char_clean, IH.
  - induction s as [|c s IH]; cbn [escapeHtml String.append]; [reflexivity|].
    now rewrite IH, string_app_assoc.
  - induction s as [|c s IH]; cbn [escapeHtml string_forallb]; [reflexivity|].
    intros H. apply andb_prop in H. destruct H as (Hc & Hs).
    apply negb_true_iff in Hc.
    rewrite (escape_char_plain c Hc), (IH Hs). reflexivity.
Qed.

Lemma escapeHtml_safe_and_lossless_witness :
  string_forallb (fun x => negb (html_special x)) "Gate gate.cx" = true
  /\ escapeHtml "Gate gate.cx" = "Gate gate.cx"%string
  /\ escapeHtml "a<b & c" = "a&lt;b &amp; c"%string.
Proof.
  split; [reflexivity|].
  split; [|reflexivity].
  exact (proj2 (proj2 (proj2 (escapeHtml_safe_and_lossless "Gate gate.cx" "")))
           eq_refl).
Defined.

(** * One-qubit gates on different qubits *)

Lemma testbit_add_pow2 (k z c : Z) :
  0 <= z -> 0 <= c -> c <> z -> Z.testbit k z = false ->
  Z.testbit (k + 2 ^ z) c = Z.testbit k c.
Proof.
  intros Hz Hc Hne Hb. rewrite <- (setbit_add k z Hz Hb).
  now apply testbit_lor_other.
Qed.

Lemma rows_commute (p q r s x00 x10 x01 x11 : Cx) :
  cadd (cmul p (cadd (cmul r x00) (cmul s x10)))
       (cmul q (cadd (cmul r x01) (cmul s x11)))
  = cadd (cmul r (cadd (cmul p x00) (cmul q x01)))
         (cmul s (cadd (cmul p x10) (cmul q x11))).
Proof.
  destruct p, q, r, s, x00, x10, x01, x11.
  unfold cadd, cmul; cbn [re im]. f_equal; ring.
Qed.

(** The four indices that agree with [k] outside bits [a] and [b]. *)
Lemma quad_of (n a b k : Z) :
  0 <= a < n -> 0 <= b < n -> a <> b -> 0 <= k < 2 ^ n ->
  exists k0, 0 <= k0 /\ k0 + 2 ^ a + 2 ^ b < 2 ^ n
    /\ Z.testbit k0 a = false /\ Z.testbit k0 b = false
    /\ (k = k0 \/ k = k0 + 2 ^ a \/ k = k0 + 2 ^ b \/ k = k0 + 2 ^ a + 2 ^ b).
Proof.
  intros Ha Hb Hne Hk.
  destruct (pair_of n a k Ha Hk) as (k1 & R1 & R1' & A1 & A1' & Hk1).
  destruct (pair_of n b k1 Hb R1) as (k0 & R0 & R0' & B0 & B0' & Hk0).
  assert (A0 : Z.testbit k0 a = false).
  { destruct Hk0 as [<-|E]; [exact A1|].
    rewrite E, testbit_add_pow2 in A1 by (lia || assumption). exact A1. }
  assert (A0b : Z.testbit (k0 + 2 ^ b) a = false)
    by (rewrite testbit_add_pow2 by (lia || assumption); exact A0).
  destruct (pair_of n a (k0 + 2 ^ b) Ha R0')
    as (k2 & R2 & R2' & A2 & A2' & Hk2).
  assert (k2 = k0 + 2 ^ b).
  { destruct Hk2 as [E|E]; [now symmetry|]. rewrite E, A2' in A0b. discriminate. }
  subst k2.
  exists k0. split; [lia|]. split; [lia|]. split; [exact A0|]. split; [exact B0|].
  destruct Hk1 as [-> | ->], Hk0 as [-> | ->]; auto.
  right; right; right. lia.
Qed.

Lemma two_gates_quad (st s1 : state) (n : Z) (F S : Mat2) (f s k0 : Z)
  (x00 xf xs xfs : Cx) :
  0 <= f < n -> 0 <= s < n -> f <> s ->
  0 <= k0 -> k0 + 2 ^ f + 2 ^ s < 2 ^ n ->
  Z.testbit k0 f = false -> Z.testbit k0 s = false ->
  aget st k0 = Some x00 -> aget st (k0 + 2 ^ f) = Some xf ->
  aget st (k0 + 2 ^ s) = Some xs -> aget st (k0 + 2 ^ f + 2 ^ s) = Some xfs ->
  (forall j, 0 <= j < 2 ^ n -> aget s1 j = apply1_at F f st j) ->
  apply1_at S s s1 k0 = Some (row0 S (row0 F x00 xf) (row0 F xs xfs))
  /\ apply1_at S s s1 (k0 + 2 ^ s)
     = Some (row1 S (row0 F x00 xf) (row0 F xs xfs))
  /\ apply1_at S s s1 (k0 + 2 ^ f)
     = Some (row0 S (row1 F x00 xf) (row1 F xs xfs))
  /\ apply1_at S s s1 (k0 + 2 ^ f + 2 ^ s)
     = Some (row1 S (row1 F x00 xf) (row1 F xs xfs)).
Proof.
  intros Hf Hs Hne H0 Hmax Bf Bs X00 Xf Xs Xfs Hs1.
  assert (Pf : 0 < 2 ^ f) by (apply Z.pow_pos_nonneg; lia).
  assert (Ps : 0 < 2 ^ s) by (apply Z.pow_pos_nonneg; lia).
  assert (Bff : Z.testbit (k0 + 2 ^ f) f = true).
  { rewrite <- (setbit_add k0 f) by (lia || assumption).
    rewrite testbit_setbit, Z.eqb_refl by lia. apply orb_true_r. }
  assert (Bss : Z.testbit (k0 + 2 ^ s) s = true).
  { rewrite <- (setbit_add k0 s) by (lia || assumption).
    rewrite testbit_setbit, Z.eqb_refl by lia. apply orb_true_r. }
  assert (Bfs : Z.testbit (k0 + 2 ^ f) s = false)
    by (rewrite testbit_add_pow2 by (lia || assumption); exact Bs).
  assert (Bsf : Z.testbit (k0 + 2 ^ s) f = false)
    by (rewrite testbit_add_pow2 by (lia || assumption); exact Bf).
  assert (Bfss : Z.testbit (k0 + 2 ^ f + 2 ^ s) s = true).
  { rewrite <- (setbit_add (k0 + 2 ^ f) s) by (lia || assumption).
    rewrite testbit_setbit, Z.eqb_refl by lia. apply orb_true_r. }
  assert (Bsff : Z.testbit (k0 + 2 ^ s + 2 ^ f) f = true).
  { rewrite <- (setbit_add (k0 + 2 ^ s) f) by (lia || assumption).
    rewrite testbit_setbit, Z.eqb_refl by lia. apply orb_true_r. }
  assert (E : k0 + 2 ^ s + 2 ^ f = k0 + 2 ^ f + 2 ^ s) by lia.
  assert (V0 : aget s1 k0 = Some (row0 F x00 xf)).
  { rewrite Hs1 by lia. now rewrite (apply1_at_lo st F f k0 Bf), X00, Xf. }
  assert (V1 : aget s1 (k0 + 2 ^ f) = Some (row1 F x00 xf)).
  { rewrite Hs1 by lia. now rewrite (apply1_at_hi st F f k0 Bff), X00, Xf. }
  assert (V2 : aget s1 (k0 + 2 ^ s) = Some (row0 F xs xfs)).
  { rewrite Hs1 by lia.
    now rewrite (apply1_at_lo st F f (k0 + 2 ^ s) Bsf), E, Xs, Xfs. }
  assert (V3 : aget s1 (k0 + 2 ^ f + 2 ^ s) = Some (row1 F xs xfs)).
  { rewrite Hs1 by lia. rewrite <- E.
    now rewrite (apply1_at_hi st F f (k0 + 2 ^ s) Bsff), E, Xs, Xfs. }
  split; [|split; [|split]].
  - now rewrite (apply1_at_lo s1 S s k0 Bs), V0, V2.
  - now rewrite (apply1_at_hi s1 S s k0 Bss), V0, V2.
  - now rewrite (apply1_at_lo s1 S s (k0 + 2 ^ f) Bfs), V1, V3.
  - now rewrite (apply1_at_hi s1 S s (k0 + 2 ^ f) Bfss), V1, V3.
Qed.

Lemma apply1_commute_in (st : state) (n a b : Z) (M N : Mat2) :
  0 <= n <= 30 -> Z.of_nat (List.length st) = 2 ^ n ->
  0 <= a < n -> 0 <= b < n -> a <> b ->
  (s1 <- apply1 st n (JInt a) M ;; apply1 s1 n (JInt b) N)
  = (s1 <- apply1 st n (JInt b) N ;; apply1 s1 n (JInt a) M).
Proof.
  intros Hn Hlen Ha Hb Hne.
  destruct (apply1_spec st n Hn Hlen a M Ha) as (s1 & E1 & L1 & K1).
  assert (Hlen1 : Z.of_nat (List.length s1) = 2 ^ n) by (rewrite L1; exact Hlen).
  destruct (apply1_spec s1 n Hn Hlen1 b N Hb) as (o1 & E2 & L2 & K2).
  destruct (apply1_spec st n Hn Hlen b N Hb) as (s2 & E3 & L3 & K3).
  assert (Hlen2 : Z.of_nat (List.length s2) = 2 ^ n) by (rewrite L3; exact Hlen).
  destruct (apply1_spec s2 n Hn Hlen2 a M Ha) as (o2 & E4 & L4 & K4).
  rewrite E1, E3. cbn [bind]. rewrite E2, E4. f_equal.
  apply aget_ext; [congruence|].
  intros k Hk. rewrite L2, Hlen1 in Hk.
  rewrite (K2 k Hk), (K4 k Hk).
  destruct (quad_of n a b k Ha Hb Hne Hk) as (k0 & H0 & Hmax & Ba & Bb & Hcase).
  assert (Pa : 0 < 2 ^ a) by (apply Z.pow_pos_nonneg; lia).
  assert (Pb : 0 < 2 ^ b) by (apply Z.pow_pos_nonneg; lia).
  destruct (aget_in st n Hn Hlen k0 ltac:(lia)) as (x00 & X00).
  destruct (aget_in st n Hn Hlen (k0 + 2 ^ a) ltac:(lia)) as (x10 & X10).
  destruct (aget_in st n Hn Hlen (k0 + 2 ^ b) ltac:(lia)) as (x01 & X01).
  destruct (aget_in st n Hn Hlen (k0 + 2 ^ a + 2 ^ b) ltac:(lia)) as (x11 & X11).
  assert (E : k0 + 2 ^ b + 2 ^ a = k0 + 2 ^ a + 2 ^ b) by lia.
  destruct (two_gates_quad st s1 n M N a b k0 x00 x10 x01 x11
              Ha Hb Hne H0 Hmax Ba Bb X00 X10 X01 X11 K1)
    as (P0 & P1 & P2 & P3).
  destruct (two_gates_quad st s2 n N M b a k0 x00 x01 x10 x11
              Hb Ha ltac:(lia) H0 ltac:(lia) Bb Ba X00 X01 X10
              ltac:(rewrite E; exact X11) K3)
    as (Q0 & Q1 & Q2 & Q3).
  rewrite E in Q3.
  destruct Hcase as [-> | [-> | [-> | ->]]].
  - rewrite P0, Q0. f_equal. apply rows_commute.
  - rewrite P2, Q1. f_equal. apply rows_commute.
  - rewrite P1, Q2. f_equal. apply rows_commute.
  - rewrite P3, Q3. f_equal. apply rows_commute.
Qed.

Lemma apply1_refused (n : Z) (q : jsnum) :
  valid1 n q = None -> forall (s : state) (M : Mat2), apply1 s n q M = Ok s.
Proof. intros E s M. unfold apply1. now rewrite E. Qed.

(** X25. One-qubit gates on two different targets commute: applying M to
    target a and then N to target b gives the same statevector as applying
    N to b first and M to a afterwards, whether the kernel accepts the
    targets or not. *)
Theorem gates_on_different_qubits_commute (st : state) (n : Z) (a b : jsnum)
  (M N : Mat2) :
  0 <= n <= 30 -> Z.of_nat (List.length st) = 2 ^ n -> a <> b ->
  (s1 <- apply1 st n a M ;; apply1 s1 n b N)
  = (s1 <- apply1 st n b N ;; apply1 s1 n a M).
Proof.
  intros Hn Hlen Hne.
  destruct (valid1 n a) as [x|] eqn:Ea; destruct (valid1 n b) as [y|] eqn:Eb.
  - apply valid1_Some in Ea. destruct Ea as (-> & Hx).
    apply valid1_Some in Eb. destruct Eb as (-> & Hy).
    apply apply1_commute_in; try assumption. congruence.
  - rewrite (apply1_refused n b Eb st N). cbn [bind].
    destruct (apply1 st n a M) as [s1|e]; cbn [bind]; [|reflexivity].
    now rewrite apply1_refused.
  - rewrite (apply1_refused n a Ea st M). cbn [bind].
    destruct (apply1 st n b N) as [s1|e]; cbn [bind]; [|reflexivity].
    now rewrite apply1_refused.
  - rewrite (apply1_refused n a Ea st M), (apply1_refused n b Eb st N).
    cbn [bind]. now rewrite !apply1_refused.
Qed.

Lemma gates_on_different_qubits_commute_witness :
  0 <= 2 <= 30
  /\ Z.of_nat (List.length bell_state) = 2 ^ 2
  /\ JInt 0 <> JInt 1
  /\ (s1 <- apply1 bell_state 2 (JInt 0) Mh ;; apply1 s1 2 (JInt 1) Mt)
     = (s1 <- apply1 bell_state 2 (JInt 1) Mt ;; apply1 s1 2 (JInt 0) Mh).
Proof.
  assert (Hne : JInt 0 <> JInt 1) by discriminate.
  split; [lia|]. split; [reflexivity|]. split; [exact Hne|].
  exact (gates_on_different_qubits_commute bell_state 2 (JInt 0) (JInt 1) Mh Mt
           ltac:(lia) eq_refl Hne).
Defined.

(** * Rotations without an angle *)

Lemma rotations_at_zero : Mrx 0 = Mid /\ Mry 0 = Mid /\ Mrz 0 = Mid.
Proof.
  unfold Mrx, Mry, Mrz, Mid, ONE, ZERO. cbv zeta.
  replace (0 / 2)%R with 0%R by lra.
  rewrite Ropp_0, cos_0, sin_0, Ropp_0. repeat split.
Qed.

Lemma apply1_Mid_any (st : state) (n : Z) (q : jsnum) :
  0 <= n <= 30 -> Z.of_nat (List.length st) = 2 ^ n ->
  apply1 st n q Mid = Ok st.
Proof.
  intros Hn Hlen. destruct (valid1 n q) as [z|] eqn:Ev.
  - apply valid1_Some in Ev. destruct Ev as (-> & Hz). now apply apply1_Mid.
  - now apply apply1_refused.
Qed.

(** X26. A rotation gate RX, RY or RZ whose angle is missing or 0 leaves
    the statevector and the entangled-likely flag exactly as they are: the
    missing angle is read as 0 and the rotation by 0 is the identity. *)
Theorem rotation_by_zero_is_identity (n : Z) (o : Op) (psi : state)
  (ent : bool) :
  0 <= n <= 30 -> Z.of_nat (List.length psi) = 2 ^ n ->
  is_rotation (refNorm (ref o)) = true ->
  thetaOf o = 0%R ->
  step n o (psi, ent) = Ok (psi, ent).
Proof.
  intros Hn Hlen Hr Ht.
  destruct rotations_at_zero as (Hx & Hy & Hz).
  rewrite step_kernel. unfold kernel, multi_gate, is_multi, is_rotation in *.
  destruct (is_gate o); cbn [negb andb bind]; [|now rewrite orb_false_r].
  rewrite Ht. revert Hr. generalize (refNorm (ref o)). intros r.
  by_ref r "X"%string; [discriminate|].
  by_ref r "Y"%string; [discriminate|].
  by_ref r "Z"%string; [discriminate|].
  by_ref r "H"%string; [discriminate|].
  by_ref r "S"%string; [discriminate|].
  by_ref r "T"%string; [discriminate|].
  by_ref r "RX"%string;
    [intros _; rewrite Hx, apply1_Mid_any by assumption; cbn;
     now rewrite orb_false_r|].
  by_ref r "RY"%string;
    [intros _; rewrite Hy, apply1_Mid_any by assumption; cbn;
     now rewrite orb_false_r|].
  by_ref r "RZ"%string;
    [intros _; rewrite Hz, apply1_Mid_any by assumption; cbn;
     now rewrite orb_false_r|].
  discriminate.
Qed.

Lemma rotation_by_zero_is_identity_witness :
  0 <= 2 <= 30
  /\ Z.of_nat (List.length bell_state) = 2 ^ 2
  /\ is_rotation
       (refNorm (ref (mkOp "gate" "gate.ry" (Some [JInt 1]) None None None)))
     = true
  /\ thetaOf (mkOp "gate" "gate.ry" (Some [JInt 1]) None None None) = 0%R
  /\ step 2 (mkOp "gate" "gate.ry" (Some [JInt 1]) None None None)
       (bell_state, true)
     = Ok (bell_state, true).
Proof.
  split; [lia|]. split; [reflexivity|]. split; [reflexivity|].
  split; [reflexivity|].
  exact (rotation_by_zero_is_identity 2
           (mkOp "gate" "gate.ry" (Some [JInt 1]) None None None)
           bell_state true ltac:(lia) eq_refl eq_refl eq_refl).
Defined.

(** * Shots after post-selection *)

(** X27. After a post-selection that kept a positive mass, a shot drawn
    with 0 < r <= 1 from the resulting probabilities lands on a basis
    state whose selected bit has the expected value. *)
Theorem postselected_shots_agree (psi psi' : state) (pp : option R)
  (n z e : Z) (r : R) :
  0 <= z < n -> z <= 30 ->
  (0 < mass psi z e)%R ->
  postSelectByBit psi n (JInt z) e = Ok (psi', pp) ->
  (0 < r <= 1)%R ->
  bitval (sampleIdx (cdfFromProbs (map norm2 psi')) r) z = e.
Proof.
  intros Hz Hz30 Hm Hps Hr.
  rewrite (postselected_state psi n z e Hz Hz30 Hm) in Hps.
  injection Hps as <- _.
  set (c := (1 / sqrt (mass psi z e))%R) in *.
  set (P := projectBy (fun i => bitval i z =? e) 0 psi) in *.
  assert (Hnn : Forall (fun x => (0 <= x)%R) (map norm2 (map (cscale c) P))).
  { apply Forall_forall. intros x Hx. apply in_map_iff in Hx.
    destruct Hx as (a & <- & _). apply norm2_nonneg. }
  assert (Hsum : (0 < sumR (map norm2 (map (cscale c) P)))%R).
  { rewrite sumR_norm2, total_cscale. unfold c, P. fold (mass psi z e).
    rewrite inv_sqrt_sqr by assumption. lra. }
  destruct (sample_positive _ r Hnn Hsum Hr) as (p & Hp & Hpos).
  set (idx := sampleIdx _ r) in *.
  rewrite !aget_map in Hp. unfold P in Hp. rewrite aget_projectBy in Hp.
  destruct (aget psi idx) as [a|]; cbn [option_map] in Hp; [|discriminate].
  destruct (Z.eqb_spec (bitval idx z) e) as [E|E]; [exact E|].
  injection Hp as <-. exfalso.
  unfold norm2, cscale in Hpos; cbn [re im] in Hpos. nra.
Qed.

Lemma postselected_shots_agree_witness :
  0 <= 0 < 1 /\ 0 <= 30
  /\ (0 < mass [C (1 / 2) 0; C 0 (1 / 2)] 0 1)%R
  /\ (0 < 1 / 2 <= 1)%R
  /\ exists psi' pp,
       postSelectByBit [C (1 / 2) 0; C 0 (1 / 2)] 1 (JInt 0) 1 = Ok (psi', pp)
       /\ bitval (sampleIdx (cdfFromProbs (map norm2 psi')) (1 / 2)) 0 = 1.
Proof.
  assert (Hm : (0 < mass [C (1 / 2) 0; C 0 (1 / 2)] 0 1)%R).
  { unfold mass. eval_reals. lra. }
  assert (Hr : (0 < 1 / 2 <= 1)%R) by lra.
  split; [lia|]. split; [lia|]. split; [exact Hm|]. split; [exact Hr|].
  destruct (postSelectByBit_total [C (1 / 2) 0; C 0 (1 / 2)] 1 (JInt 0) 1)
    as (psi' & pp & E).
  exists psi', pp. split; [exact E|].
  exact (postselected_shots_agree _ psi' pp 1 0 1 (1 / 2)
           ltac:(lia) ltac:(lia) Hm E Hr).
Defined.

(** * Identities between kernels *)

Lemma lxor_pow2_pair (a b : Z) :
  0 <= a -> 0 <= b -> a <> b ->
  Z.lxor (2 ^ a) (2 ^ b) = Z.lor (2 ^ a) (2 ^ b).
Proof.
  intros Ha Hb Hne. apply Z.bits_inj'. intros i Hi.
  rewrite Z.lxor_spec, Z.lor_spec.
  destruct (Z.eq_dec i a) as [->|Na].
  - rewrite Z.pow2_bits_true, (Z.pow2_bits_false b) by lia. reflexivity.
  - rewrite (Z.pow2_bits_false a) by lia. now destruct (Z.testbit (2 ^ b) i).
Qed.

Lemma three_cnots_src (a b k : Z) :
  0 <= a -> 0 <= b -> a <> b ->
  cx_src a b (cx_src b a (cx_src a b k)) = swap_src a b k.
Proof.
  intros Ha Hb Hne. unfold cx_src, swap_src.
  destruct (Z.eqb_spec a b) as [?|_]; [lia|].
  destruct (Z.eqb_spec b a) as [?|_]; [lia|].
  destruct (Z.testbit k a) eqn:A, (Z.testbit k b) eqn:B; cbn [xorb];
    repeat (rewrite ?testbit_lxor_pow2, ?A, ?B, ?Z.eqb_refl by lia;
            repeat match goal with
                   | |- context [a =? b] =>
                       destruct (Z.eqb_spec a b); [lia|]
                   | |- context [b =? a] =>
                       destruct (Z.eqb_spec b a); [lia|]
                   end;
            cbn [xorb]).
  - apply lxor_twice.
  - rewrite Z.lxor_assoc, (Z.lxor_comm (2 ^ b)). now rewrite lxor_pow2_pair.
  - rewrite Z.lxor_assoc. now rewrite lxor_pow2_pair.
  - reflexivity.
Qed.

(** X28. SWAP is three CNOTs: CX(a,b), then CX(b,a), then CX(a,b) returns
    the statevector that SWAP(a,b) returns, for accepted and for refused
    targets alike. *)
Theorem swap_is_three_cnots (st : state) (n : Z) (a b : jsnum) :
  0 <= n <= 30 -> Z.of_nat (List.length st) = 2 ^ n ->
  (s1 <- applyCX st n a b ;; s2 <- applyCX s1 n b a ;; applyCX s2 n a b)
  = applySWAP st n a b.
Proof.
  intros Hn Hlen. destruct (valid2 n a b) eqn:Ev.
  - apply valid2_true in Ev.
    destruct Ev as (x & y & -> & -> & Hx & Hy & Hne).
    destruct (applyCX_spec st n Hn Hlen x y Hx Hy Hne) as (s1 & E1 & L1 & K1).
    assert (Hlen1 : Z.of_nat (List.length s1) = 2 ^ n) by (rewrite L1; exact Hlen).
    destruct (applyCX_spec s1 n Hn Hlen1 y x Hy Hx ltac:(lia))
      as (s2 & E2 & L2 & K2).
    assert (Hlen2 : Z.of_nat (List.length s2) = 2 ^ n) by (rewrite L2; exact Hlen1).
    destruct (applyCX_spec s2 n Hn Hlen2 x y Hx Hy Hne) as (s3 & E3 & L3 & K3).
    destruct (applySWAP_spec st n Hn Hlen x y Hx Hy Hne) as (sw & E4 & L4 & K4).
    rewrite E1. cbn [bind]. rewrite E2. cbn [bind]. rewrite E3, E4. f_equal.
    apply aget_ext; [congruence|].
    intros k Hk. rewrite L3, Hlen2 in Hk.
    destruct (cx_src_invol n x y k ltac:(lia) Hy Hne Hk) as (R1 & _).
    destruct (cx_src_invol n y x _ ltac:(lia) Hx ltac:(lia) R1) as (R2 & _).
    rewrite (K3 k Hk), (K2 _ R1), (K1 _ R2), (K4 k Hk).
    now rewrite three_cnots_src by lia.
  - assert (Ev' : valid2 n b a = false) by (now rewrite valid2_sym).
    unfold applyCX, applySWAP. rewrite Ev. cbn [negb bind].
    rewrite Ev'. cbn [negb bind]. rewrite ?Ev. reflexivity.
Qed.

Lemma swap_is_three_cnots_witness :
  0 <= 2 <= 30
  /\ Z.of_nat (List.length [C 0 0; C 1 0; C 0 0; C 0 0]) = 2 ^ 2
  /\ (s1 <- applyCX [C 0 0; C 1 0; C 0 0; C 0 0] 2 (JInt 0) (JInt 1) ;;
      s2 <- applyCX s1 2 (JInt 1) (JInt 0) ;; applyCX s2 2 (JInt 0) (JInt 1))
     = applySWAP [C 0 0; C 1 0; C 0 0; C 0 0] 2 (JInt 0) (JInt 1).
Proof.
  split; [lia|]. split; [reflexivity|].
  exact (swap_is_three_cnots [C 0 0; C 1 0; C 0 0; C 0 0] 2 (JInt 0) (JInt 1)
           ltac:(lia) eq_refl).
Defined.

Lemma rows_Mh (a b : Cx) :
  row0 Mh a b = C (1 / SQRT2 * (re a + re b)) (1 / SQRT2 * (im a + im b))
  /\ row1 Mh a b = C (1 / SQRT2 * (re a - re b)) (1 / SQRT2 * (im a - im b)).
Proof.
  destruct a, b. unfold row0, row1, Mh, cadd, cmul; cbv zeta;
    cbn [re im m00 m01 m10 m11]. split; f_equal; ring.
Qed.

(** H, exchange of the pair, H: the amplitude with the bit clear comes
    back, the one with the bit set changes sign. *)
Lemma hadamard_flip (x0 x1 : Cx) :
  row0 Mh (row1 Mh x0 x1) (row0 Mh x0 x1) = x0
  /\ row1 Mh (row1 Mh x0 x1) (row0 Mh x0 x1) = cneg x1.
Proof.
  pose proof inv_sqrt2_sqr as Hs.
  destruct (rows_Mh x0 x1) as (-> & ->).
  destruct x0 as [a0 b0], x1 as [a1 b1].
  split.
  - rewrite (proj1 (rows_Mh _ _)). cbn [re im]. f_equal.
    + replace (1 / SQRT2 * (1 / SQRT2 * (a0 - a1) + 1 / SQRT2 * (a0 + a1)))%R
        with (2 * (1 / SQRT2 * (1 / SQRT2)) * a0)%R by ring.
      rewrite Hs. lra.
    + replace (1 / SQRT2 * (1 / SQRT2 * (b0 - b1) + 1 / SQRT2 * (b0 + b1)))%R
        with (2 * (1 / SQRT2 * (1 / SQRT2)) * b0)%R by ring.
      rewrite Hs. lra.
  - rewrite (proj2 (rows_Mh _ _)). unfold cneg. cbn [re im]. f_equal.
    + replace (1 / SQRT2 * (1 / SQRT2 * (a0 - a1) - 1 / SQRT2 * (a0 + a1)))%R
        with (- (2 * (1 / SQRT2 * (1 / SQRT2)) * a1))%R by ring.
      rewrite Hs. lra.
    + replace (1 / SQRT2 * (1 / SQRT2 * (b0 - b1) - 1 / SQRT2 * (b0 + b1)))%R
        with (- (2 * (1 / SQRT2 * (1 / SQRT2)) * b1))%R by ring.
      rewrite Hs. lra.
Qed.

Lemma hadamard_back (x0 x1 : Cx) :
  row0 Mh (row0 Mh x0 x1) (row1 Mh x0 x1) = x0
  /\ row1 Mh (row0 Mh x0 x1) (row1 Mh x0 x1) = x1.
Proof.
  rewrite row0_mmul, row1_mmul, mmul_Mh. apply row_Mid.
Qed.

Lemma h_cx_h_in (st : state) (n c t : Z) :
  0 <= n <= 30 -> Z.of_nat (List.length st) = 2 ^ n ->
  0 <= c < n -> 0 <= t < n -> c <> t ->
  (s1 <- apply1 st n (JInt t) Mh ;; s2 <- applyCX s1 n (JInt c) (JInt t) ;;
   apply1 s2 n (JInt t) Mh)
  = applyCZ st n (JInt c) (JInt t).
Proof.
  intros Hn Hlen Hc Ht Hne.
  destruct (apply1_spec st n Hn Hlen t Mh Ht) as (s1 & E1 & L1 & K1).
  assert (Hlen1 : Z.of_nat (List.length s1) = 2 ^ n) by (rewrite L1; exact Hlen).
  destruct (applyCX_spec s1 n Hn Hlen1 c t Hc Ht Hne) as (s2 & E2 & L2 & K2).
  assert (Hlen2 : Z.of_nat (List.length s2) = 2 ^ n) by (rewrite L2; exact Hlen1).
  destruct (apply1_spec s2 n Hn Hlen2 t Mh Ht) as (s3 & E3 & L3 & K3).
  destruct (applyCZ_spec st n Hn Hlen c t Hc Ht Hne) as (cz & E4 & L4 & K4).
  rewrite E1. cbn [bind]. rewrite E2. cbn [bind]. rewrite E3, E4. f_equal.
  apply aget_ext; [congruence|].
  intros k Hk. rewrite L3, Hlen2 in Hk.
  rewrite (K3 k Hk), (K4 k Hk).
  destruct (pair_of n t k Ht Hk) as (k0 & R0 & R1 & B0 & B1 & Hkk).
  destruct (aget_in st n Hn Hlen k0 R0) as (x0 & X0).
  destruct (aget_in st n Hn Hlen (k0 + 2 ^ t) R1) as (x1 & X1).
  assert (V0 : aget s1 k0 = Some (row0 Mh x0 x1)).
  { rewrite (K1 k0 R0), (apply1_at_lo st Mh t k0 B0), X0, X1. reflexivity. }
  assert (V1 : aget s1 (k0 + 2 ^ t) = Some (row1 Mh x0 x1)).
  { rewrite (K1 _ R1), (apply1_at_hi st Mh t k0 B1), X0, X1. reflexivity. }
  assert (C1 : Z.testbit (k0 + 2 ^ t) c = Z.testbit k0 c)
    by (apply testbit_add_pow2; lia || assumption).
  assert (S0 : cx_src c t k0 = if Z.testbit k0 c then k0 + 2 ^ t else k0).
  { unfold cx_src. destruct (Z.testbit k0 c); [|reflexivity].
    rewrite lxor_pow2, B0 by lia. reflexivity. }
  assert (S1 : cx_src c t (k0 + 2 ^ t)
               = if Z.testbit k0 c then k0 else k0 + 2 ^ t).
  { unfold cx_src. rewrite C1. destruct (Z.testbit k0 c); [|reflexivity].
    rewrite lxor_pow2, B1 by lia. lia. }
  assert (W0 : aget s2 k0 = if Z.testbit k0 c then Some (row1 Mh x0 x1)
                            else Some (row0 Mh x0 x1)).
  { rewrite (K2 k0 R0), S0. now destruct (Z.testbit k0 c). }
  assert (W1 : aget s2 (k0 + 2 ^ t)
               = if Z.testbit k0 c then Some (row0 Mh x0 x1)
                 else Some (row1 Mh x0 x1)).
  { rewrite (K2 _ R1), S1. now destruct (Z.testbit k0 c). }
  destruct (hadamard_flip x0 x1) as (F0 & F1).
  destruct (hadamard_back x0 x1) as (G0 & G1).
  destruct Hkk as [-> | ->].
  - rewrite (apply1_at_lo s2 Mh t k0 B0), W0, W1, B0, andb_false_r, X0.
    destruct (Z.testbit k0 c); cbn [on_pair]; now rewrite ?F0, ?G0.
  - rewrite (apply1_at_hi s2 Mh t k0 B1), W0, W1, C1, B1, andb_true_r, X1.
    destruct (Z.testbit k0 c); cbn [on_pair option_map]; now rewrite ?F1, ?G1.
Qed.

(** X29. A CNOT between two Hadamards on its target is a CZ: H on the
    target, then CX(control, target), then H on the target again returns
    the statevector that CZ(control, target) returns, for accepted and
    for refused targets alike. *)
Theorem cz_is_conjugated_cnot (st : state) (n : Z) (c t : jsnum) :
  0 <= n <= 30 -> Z.of_nat (List.length st) = 2 ^ n ->
  (s1 <- apply1 st n t Mh ;; s2 <- applyCX s1 n c t ;; apply1 s2 n t Mh)
  = applyCZ st n c t.
Proof.
  intros Hn Hlen. destruct (valid2 n c t) eqn:Ev.
  - apply valid2_true in Ev.
    destruct Ev as (x & y & -> & -> & Hx & Hy & Hne).
    now apply h_cx_h_in.
  - destruct (apply1_twice st n t Mh Hn Hlen mmul_Mh) as (s1 & E1 & L1 & E2).
    rewrite E1. cbn [bind]. unfold applyCX, applyCZ. rewrite Ev.
    cbn [negb bind]. exact E2.
Qed.

Lemma cz_is_conjugated_cnot_witness :
  0 <= 2 <= 30
  /\ Z.of_nat (List.length bell_state) = 2 ^ 2
  /\ (s1 <- apply1 bell_state 2 (JInt 1) Mh ;;
      s2 <- applyCX s1 2 (JInt 0) (JInt 1) ;; apply1 s2 2 (JInt 1) Mh)
     = applyCZ bell_state 2 (JInt 0) (JInt 1).
Proof.
  split; [lia|]. split; [reflexivity|].
  exact (cz_is_conjugated_cnot bell_state 2 (JInt 0) (JInt 1)
           ltac:(lia) eq_refl).
Defined.

(** * A Hadamard on every qubit *)

Lemma nth_error_map_seq {A : Type} (f : nat -> A) (len : nat) :
  forall start i, (i < len)%nat ->
    nth_error (map f (seq start len)) i = Some (f (start + i)%nat).
Proof.
  induction len as [|len IH]; intros start i Hi; [lia|].
  cbn [seq map]. destruct i as [|i]; cbn [nth_error].
  - now rewrite Nat.add_0_r.
  - rewrite IH by lia. f_equal. f_equal. lia.
Qed.

Lemma evolve_app (n : Z) (l1 l2 : list Op) :
  forall s, evolve n (l1 ++ l2) s = (s' <- evolve n l1 s ;; evolve n l2 s').
Proof.
  induction l1 as [|o l1 IH]; intros s; cbn [app evolve bind]; [reflexivity|].
  destruct (step n o s) as [s'|e]; cbn [bind]; [apply IH|reflexivity].
Qed.

Lemma bit_clear_above (k m : Z) :
  0 <= m -> 2 ^ m <= k -> Z.testbit k m = false -> 2 ^ (m + 1) <= k.
Proof.
  intros Hm Hk Hb. destruct (Z.lt_ge_cases k (2 ^ (m + 1))) as [Hlt|]; [|lia].
  exfalso. rewrite Z.pow_add_r in Hlt by lia. change (2 ^ 1) with 2 in Hlt.
  assert (Hp : 0 < 2 ^ m) by (apply Z.pow_pos_nonneg; lia).
  assert (Hd : k / 2 ^ m = 1).
  { symmetry. apply (Z.div_unique k (2 ^ m) 1 (k - 2 ^ m)); lia. }
  assert (Ht : Z.testbit k m = true).
  { apply Z.testbit_true; [lia|]. now rewrite Hd. }
  congruence.
Qed.

Lemma hadamard_step (st : state) (n : Z) (m : nat) :
  0 <= n <= 30 -> Z.of_nat (List.length st) = 2 ^ n -> Z.of_nat m < n ->
  (forall k, 0 <= k < 2 ^ n -> aget st k = Some (half_way m k)) ->
  exists out, apply1 st n (JInt (Z.of_nat m)) Mh = Ok out
    /\ Z.of_nat (List.length out) = 2 ^ n
    /\ forall k, 0 <= k < 2 ^ n -> aget out k = Some (half_way (S m) k).
Proof.
  intros Hn Hlen Hm Hst.
  destruct (apply1_spec st n Hn Hlen (Z.of_nat m) Mh ltac:(lia))
    as (out & E & L & K).
  exists out. split; [exact E|]. split; [now rewrite L|].
  intros k Hk. rewrite (K k Hk).
  destruct (pair_of n (Z.of_nat m) k ltac:(lia) Hk)
    as (k0 & R0 & R1 & B0 & B1 & Hkk).
  assert (Hp : 0 < 2 ^ Z.of_nat m) by (apply Z.pow_pos_nonneg; lia).
  assert (Hpow : 2 ^ Z.of_nat (S m) = 2 * 2 ^ Z.of_nat m).
  { rewrite Nat2Z.inj_succ, Z.pow_succ_r by lia. reflexivity. }
  assert (X1 : aget st (k0 + 2 ^ Z.of_nat m) = Some (C 0 0)).
  { rewrite (Hst _ R1). unfold half_way.
    destruct (Z.ltb_spec (k0 + 2 ^ Z.of_nat m) (2 ^ Z.of_nat m)); [lia|reflexivity]. }
  pose proof (Hst k0 R0) as X0.
  assert (Hrow : forall a, row0 Mh a (C 0 0) = C (1 / SQRT2 * re a) (1 / SQRT2 * im a)
                           /\ row1 Mh a (C 0 0)
                              = C (1 / SQRT2 * re a) (1 / SQRT2 * im a)).
  { intros a. destruct (rows_Mh a (C 0 0)) as (-> & ->). cbn [re im].
    split; f_equal; ring. }
  assert (Hnew : C (1 / SQRT2 * re (half_way m k0)) (1 / SQRT2 * im (half_way m k0))
                 = half_way (S m) k0
                 /\ half_way (S m) (k0 + 2 ^ Z.of_nat m) = half_way (S m) k0).
  { unfold half_way. rewrite Hpow.
    destruct (Z.ltb_spec k0 (2 ^ Z.of_nat m)) as [Hlt|Hge].
    - destruct (Z.ltb_spec k0 (2 * 2 ^ Z.of_nat m)); [|lia].
      destruct (Z.ltb_spec (k0 + 2 ^ Z.of_nat m) (2 * 2 ^ Z.of_nat m)); [|lia].
      cbn [re im pow]. split; [f_equal; ring|reflexivity].
    - pose proof (bit_clear_above k0 (Z.of_nat m) ltac:(lia) Hge B0) as Hab.
      rewrite Z.pow_add_r in Hab by lia. change (2 ^ 1) with 2 in Hab.
      destruct (Z.ltb_spec k0 (2 * 2 ^ Z.of_nat m)); [lia|].
      destruct (Z.ltb_spec (k0 + 2 ^ Z.of_nat m) (2 * 2 ^ Z.of_nat m)); [lia|].
      cbn [re im]. split; [f_equal; ring|reflexivity]. }
  destruct Hnew as (N0 & N1). destruct (Hrow (half_way m k0)) as (W0 & W1).
  destruct Hkk as [-> | ->].
  - rewrite (apply1_at_lo st Mh _ k0 B0), X0, X1. cbn [on_pair].
    now rewrite W0, N0.
  - rewrite (apply1_at_hi st Mh _ k0 B1), X0, X1. cbn [on_pair].
    now rewrite W1, N0, N1.
Qed.

Lemma hadamards_evolve (n : Z) (m : nat) :
  0 <= n <= 30 -> Z.of_nat m <= n ->
  forall ent,
  exists out,
    evolve n (hadamards m)
      (map (fun i => if Nat.eqb i 0 then C 1 0 else C 0 0)
         (seq 0 (Z.to_nat (2 ^ n))), ent) = Ok (out, ent)
    /\ Z.of_nat (List.length out) = 2 ^ n
    /\ forall k, 0 <= k < 2 ^ n -> aget out k = Some (half_way m k).
Proof.
  intros Hn. assert (Hp : 0 < 2 ^ n) by (apply Z.pow_pos_nonneg; lia).
  induction m as [|m IH]; intros Hm ent.
  - eexists. split; [reflexivity|].
    split; [rewrite length_map, length_seq; lia|].
    intros k Hk. unfold aget. destruct (Z.ltb_spec k 0); [lia|].
    rewrite nth_error_map_seq by lia. cbn [Nat.add]. f_equal.
    unfold half_way. cbn [Z.of_nat pow]. change (2 ^ 0) with 1.
    destruct (Z.ltb_spec k 1).
    + replace (Z.to_nat k) with 0%nat by lia. reflexivity.
    + destruct (Nat.eqb_spec (Z.to_nat k) 0); [lia|reflexivity].
  - destruct (IH ltac:(lia) ent) as (mid & Em & Lm & Km).
    destruct (hadamard_step mid n m Hn Lm ltac:(lia) Km) as (out & Eo & Lo & Ko).
    exists out. split; [|split; assumption].
    unfold hadamards in *. rewrite seq_S, map_app, evolve_app, Em.
    cbn [bind Nat.add map evolve].
    change (step n (opHon (Z.of_nat m)) (mid, ent))
      with (psi' <- apply1 mid n (JInt (Z.of_nat m)) Mh ;; Ok (psi', ent)).
    rewrite Eo. reflexivity.
Qed.

(** X30. In exact arithmetic, a Hadamard on every qubit of a circuit of
    at most 30 qubits, from the state |0...0>, gives the uniform
    distribution: each of the 2^n basis states has probability (1/2)^n;
    the entangled-likely flag stays down. *)
Theorem hadamards_give_uniform (mathRandom : nat -> R) (n : nat) (opts : Opts) :
  Z.of_nat n <= 30 ->
  exists r, simulateCircuit mathRandom (mkIR (Some (Z.of_nat n)) (hadamards n)) opts
            = Ok r
    /\ Z.of_nat (List.length (probs r)) = 2 ^ Z.of_nat n
    /\ Forall (fun x => x = ((1 / 2) ^ n)%R) (probs r)
    /\ entangledLikely r = false.
Proof.
  intros Hn.
  set (ir := mkIR (Some (Z.of_nat n)) (hadamards n)).
  assert (Hq : qubitsOf ir = Z.of_nat n) by (unfold qubitsOf, ir; cbn [qubits]; lia).
  assert (Hticks : Forall (fun o => tickOf o = 0) (hadamards n)).
  { unfold hadamards. apply Forall_forall. intros o Ho.
    apply in_map_iff in Ho. destruct Ho as (z & <- & _). reflexivity. }
  assert (Hfind : find is_postselect (hadamards n) = None).
  { unfold hadamards. induction (seq 0 n) as [|z l IH]; [reflexivity|exact IH]. }
  destruct (hadamards_evolve (Z.of_nat n) n ltac:(lia) ltac:(lia) false)
    as (out & Eo & Lo & Ko).
  assert (He : evolveCircuit ir = Ok (out, false)).
  { unfold evolveCircuit. rewrite Hq. cbn [ops ir].
    rewrite (sort_sorted_id _ (same_tick_sorted 0 _ Hticks)).
    rewrite shl32_small by lia. unfold init_state.
    destruct (Z.ltb_spec (2 ^ Z.of_nat n) 0) as [Hneg|_];
      [pose proof (Z.pow_pos_nonneg 2 (Z.of_nat n)); lia|].
    cbn [bind]. exact Eo. }
  assert (Hp : postSelect (ops ir) (qubitsOf ir) out = Ok (out, None)).
  { unfold postSelect. cbn [ops ir]. now rewrite Hfind. }
  destruct (simulate_ok mathRandom ir opts _ _ _ _ He Hp) as (cnt & Hs).
  eexists. split; [exact Hs|]. cbn [probs entangledLikely].
  split; [now rewrite length_map|]. split; [|reflexivity].
  apply Forall_forall. intros x Hx. apply in_map_iff in Hx.
  destruct Hx as (a & <- & Ha). apply In_nth_error in Ha.
  destruct Ha as (i & Hi).
  assert (Ri : (i < List.length out)%nat) by (apply nth_error_Some; congruence).
  specialize (Ko (Z.of_nat i) ltac:(lia)). unfold aget in Ko.
  destruct (Z.ltb_spec (Z.of_nat i) 0); [lia|].
  rewrite Nat2Z.id, Hi in Ko. injection Ko as ->.
  unfold half_way. destruct (Z.ltb_spec (Z.of_nat i) (2 ^ Z.of_nat n)); [|lia].
  unfold norm2; cbn [re im].
  replace ((1 / SQRT2) ^ n * (1 / SQRT2) ^ n + 0 * 0)%R
    with ((1 / SQRT2 * (1 / SQRT2)) ^ n)%R by (rewrite Rpow_mult_distr; ring).
  now rewrite inv_sqrt2_sqr.
Qed.

Lemma hadamards_give_uniform_witness :
  Z.of_nat 2 <= 30
  /\ exists r, simulateCircuit (fun _ => 0%R)
                 (mkIR (Some (Z.of_nat 2)) (hadamards 2)) (mkOpts None None None)
               = Ok r
       /\ Forall (fun x => x = ((1 / 2) ^ 2)%R) (probs r).
Proof.
  split; [cbn; lia|].
  destruct (hadamards_give_uniform (fun _ => 0%R) 2 (mkOpts None None None)
              ltac:(cbn; lia)) as (r & E & _ & F & _).
  exists r. split; [exact E|exact F].
Defined.

(** * The program's arithmetic: double precision

    What the exact statements above become in binary64, on the smallest
    circuits that show a difference. *)

Example double_constants :
  PrimFloat.sqrt 2 = Double.SQRT2 /\ PrimFloat.sqrt 0.5 = Double.SQRT1_2.
Proof. split; reflexivity. Qed.

(** One H on one qubit: both probabilities are 0.5 - 2^-53 and they add
    up to 1 - 2^-52 (printed 0.9999999999999998), not to 1. *)
Example hadamard_in_doubles (Math_cos Math_sin : float -> float)
  (thetaD : Op -> float) :
  rmap Double.probs
    (Double.simulate Math_cos Math_sin thetaD (mkIR (Some 1) [opH]))
  = Ok [0x1.ffffffffffffep-2%float; 0x1.ffffffffffffep-2%float]
  /\ Double.sum [0x1.ffffffffffffep-2%float; 0x1.ffffffffffffep-2%float]
     = 0x1.ffffffffffffep-1%float
  /\ PrimFloat.ltb 0x1.ffffffffffffep-1 1 = true.
Proof. split; [|split]; vm_compute; reflexivity. Qed.

(** A Hadamard on each of two and of three qubits: every probability is
    0.25 - 2^-53 and 0.125 - 2^-54 (printed 0.2499999999999999 and
    0.12499999999999994), not 1/4 and 1/8. *)
Example hadamards_in_doubles (Math_cos Math_sin : float -> float)
  (thetaD : Op -> float) :
  rmap Double.probs
    (Double.simulate Math_cos Math_sin thetaD (mkIR (Some 2) (hadamards 2)))
  = Ok (repeat 0x1.ffffffffffffcp-3%float 4)
  /\ rmap Double.probs
       (Double.simulate Math_cos Math_sin thetaD (mkIR (Some 3) (hadamards 3)))
     = Ok (repeat 0x1.ffffffffffffcp-4%float 8).
Proof. split; vm_compute; reflexivity. Qed.

(** X, then T, then a post-selection of the value 1: the retained
    probability and the only non-zero probability are 1 + 2^-52 (printed
    1.0000000000000002), above 1. *)
Example phase_postselect_in_doubles (Math_cos Math_sin : float -> float)
  (thetaD : Op -> float) :
  let ir := mkIR (Some 1)
              [opX; mkOp "gate" "T" (Some [JInt 0]) None None (Some 1); note1] in
  rmap Double.postSelectProb (Double.simulate Math_cos Math_sin thetaD ir)
  = Ok (Some 0x1.0000000000001p+0%float)
  /\ rmap Double.probs (Double.simulate Math_cos Math_sin thetaD ir)
     = Ok [0%float; 0x1.0000000000001p+0%float]
  /\ PrimFloat.ltb 1 0x1.0000000000001p+0 = true.
Proof. intros ir. split; [|split]; vm_compute; reflexivity. Qed.

(** A mass that underflows: the amplitude 2^-700 has the square 2^-1400,
    which is 0 in binary64. The post-selection returns 0 without
    renormalising and the amplitude stays as it is, not zero. *)
Example postselect_underflow_in_doubles :
  Double.postSelectByBit [Double.C 1 0; Double.C 0 (- 0x1p-700)] 1 (JInt 0) 1
  = Ok ([Double.C 0 0; Double.C 0 (- 0x1p-700)], Some 0%float)
  /\ PrimFloat.ltb (- 0x1p-700) 0 = true.
Proof. split; vm_compute; reflexivity. Qed.
